(** * sqct batch tooling: range partitioning, ID ledgers, reconciliation, archiving

    Shallow embedding of
      - run/run_sqct_one_by_one.py       (the Dispatcher: planner loop, ledger append, qsub)
      - run/archive_completed_results.py (the Reconciler and the Archiver)
      - run/task_gen.py                  (static generation of range configs)
      - run/task_run.py                  (process_config_file)

    Python integers are [Z]; Python [str] values are [string], read as text
    whose characters are all below code point 128 (the IDs, file names and
    ledger lines of these scripts are digits, letters, [_], [-] and [.]);
    Python sets of strings are [gset string]; lists are lists.  File
    contents, directory listings and the outcomes of I/O calls are explicit
    arguments, and whatever a script prints to stderr or hands to an external
    program is recorded in a trace. *)

From Stdlib Require Import ZArith Lia List Ascii String Sorted.
From stdpp Require Import base tactics option list sets gmap strings pretty.

Local Open Scope Z_scope.

(** ** Python built-ins used by the scripts *)

Module Py.

(** [len(range(start, stop, step))] as CPython computes it.  [step = 0]
    raises ValueError in Python; no call site of the scripts can pass it
    (K_STEP is the literal 2, the job span is checked positive), and the
    model returns the empty range there. *)
Definition range_len (start stop step : Z) : nat :=
  if 0 <? step then
    if start <? stop then Z.to_nat ((stop - start - 1) / step + 1) else 0%nat
  else if step <? 0 then
    if stop <? start then Z.to_nat ((start - stop - 1) / (- step) + 1) else 0%nat
  else 0%nat.

(** [list(range(start, stop, step))]: item [i] is [start + i * step]. *)
Definition range (start stop step : Z) : list Z :=
  map (fun i : nat => start + Z.of_nat i * step) (seq 0 (range_len start stop step)).

(** [str(i)] for an int, as used by f-string interpolation. *)
Definition str_of_int (i : Z) : string := pretty i.

Definition LF : ascii := "010"%char.
Definition CR : ascii := "013"%char.
Definition newline : string := String LF "".

(** [c.isspace()] below code point 128: TAB, LF, VT, FF, CR, the four
    separators 0x1c..0x1f and the space. *)
Definition is_space (c : ascii) : bool :=
  let n := N_of_ascii c in
  (((9 <=? n) && (n <=? 13)) || ((28 <=? n) && (n <=? 32)))%N.

(** [s.lstrip()], [s.rstrip()], [s.strip()] *)
Fixpoint lstrip (s : string) : string :=
  match s with
  | "" => ""
  | String c r => if is_space c then lstrip r else s
  end.

Fixpoint rstrip (s : string) : string :=
  match s with
  | "" => ""
  | String c r =>
      match rstrip r with
      | "" => if is_space c then "" else String c ""
      | r' => String c r'
      end
  end.

Definition strip (s : string) : string := rstrip (lstrip s).

(** Text-mode reading with the default [newline=None]: every "\r\n" and
    every lone "\r" is translated to "\n".  [pending_cr] tells that the
    previous character was a "\r" (already emitted as "\n"). *)
Fixpoint universal_newlines (pending_cr : bool) (s : string) : string :=
  match s with
  | "" => ""
  | String c r =>
      if Ascii.eqb c CR then String LF (universal_newlines true r)
      else if Ascii.eqb c LF then
        if pending_cr then universal_newlines false r
        else String LF (universal_newlines false r)
      else String c (universal_newlines false r)
  end.

(** The lines of a text, each with its terminating "\n" except possibly the
    last one. *)
Fixpoint split_lines (s : string) : list string :=
  match s with
  | "" => []
  | String c r =>
      if Ascii.eqb c LF then String c "" :: split_lines r
      else match split_lines r with
           | [] => [String c ""]
           | l :: ls => String c l :: ls
           end
  end.

(** [for line in f] over a file opened with [open(path, 'r')]. *)
Definition file_lines (content : string) : list string :=
  split_lines (universal_newlines false content).

Fixpoint str_take (n : nat) (s : string) : string :=
  match n, s with
  | S n', String c r => String c (str_take n' r)
  | _, _ => ""
  end.

Fixpoint str_drop (n : nat) (s : string) : string :=
  match n, s with
  | S n', String _ r => str_drop n' r
  | _, _ => s
  end.

Definition endswith (s suffix : string) : bool :=
  String.prefix (String.rev suffix) (String.rev s).

(** [s.removeprefix(p)] and [s.removesuffix(p)] *)
Definition removeprefix (s p : string) : string :=
  if String.prefix p s then str_drop (String.length p) s else s.

Definition removesuffix (s p : string) : string :=
  if endswith s p && negb (String.eqb p "")
  then str_take (String.length s - String.length p) s else s.

(** [s.split(sep)] for a one-character separator. *)
Fixpoint split (sep : ascii) (s : string) : list string :=
  match s with
  | "" => [""]
  | String c r =>
      if Ascii.eqb c sep then "" :: split sep r
      else match split sep r with
           | [] => [String c ""]
           | p :: ps => String c p :: ps
           end
  end.

Definition digit_value (c : ascii) : option Z :=
  let n := N_of_ascii c in
  if ((48 <=? n) && (n <=? 57))%N then Some (Z.of_N n - 48) else None.

(** The white space [int()] skips around the number in a string of
    characters below code point 128: TAB, LF, VT, FF, CR and the space.
    The separators 0x1c-0x1f, which [str.strip] removes, are not among
    them. *)
Definition is_int_space (c : ascii) : bool :=
  let n := N_of_ascii c in
  (((9 <=? n) && (n <=? 13)) || (n =? 32))%N.

Fixpoint int_lstrip (s : string) : string :=
  match s with
  | "" => ""
  | String c r => if is_int_space c then int_lstrip r else s
  end.

Fixpoint int_rstrip (s : string) : string :=
  match s with
  | "" => ""
  | String c r =>
      match int_rstrip r with
      | "" => if is_int_space c then "" else String c ""
      | r' => String c r'
      end
  end.

(** The digits of [int(s)] in base 10: decimal digits, with single
    underscores allowed between two digits.  [after_underscore] tells that
    the previous character was an underscore. *)
Fixpoint int_digits (acc : Z) (after_underscore : bool) (s : string) : option Z :=
  match s with
  | "" => if after_underscore then None else Some acc
  | String c r =>
      if Ascii.eqb c "_" then
        if after_underscore then None else int_digits acc true r
      else
        match digit_value c with
        | Some d => int_digits (10 * acc + d) false r
        | None => None
        end
  end.

(** [int(s)] in base 10: white space around the number is skipped, one
    sign is allowed, then come the digits, at least one, the first
    character after the sign not being an underscore.  [None] stands for
    ValueError.  (The interpreter's optional limit on the number of digits
    is taken as switched off.) *)
Definition int_of_str (s : string) : option Z :=
  match int_rstrip (int_lstrip s) with
  | "" => None
  | String c r =>
      let '(negative, body) :=
        if Ascii.eqb c "-" then (true, r)
        else if Ascii.eqb c "+" then (false, r)
        else (false, String c r) in
      match body with
      | "" => None
      | String d _ =>
          if Ascii.eqb d "_" then None
          else (if negative then Z.opp else id) <$> int_digits 0 false body
      end
  end.

(** Shell-style matching as [Path.glob] applies it to one directory level,
    for patterns whose only special character is the star. *)
Fixpoint glob_match (pattern : string) : string -> bool :=
  match pattern with
  | "" => fun name => match name with "" => true | _ => false end
  | String p pattern' =>
      if Ascii.eqb p "*" then
        fix star (name : string) : bool :=
          glob_match pattern' name
          || match name with "" => false | String _ name' => star name' end
      else
        fun name =>
          match name with
          | "" => false
          | String c name' => Ascii.eqb p c && glob_match pattern' name'
          end
  end.

End Py.

(** ** Shared constants and the canonical ID string *)

(** [K_STEP = 2] in both scripts. *)
Definition K_STEP : Z := 2.

(** [f"{n}_{k}"] *)
Definition id_str (n k : Z) : string :=
  Py.str_of_int n +:+ "_" +:+ Py.str_of_int k.

(** The constituent IDs of the range [[kmin, kmax)] for size [n]: the strings
    the loops [for k in range(kmin, kmax, K_STEP)] build, in loop order. *)
Definition constituent_ids (n kmin kmax : Z) : list string :=
  map (id_str n) (Py.range kmin kmax K_STEP).

(** ** The ID ledgers (started_ids.txt, completed_ids.txt) *)

Module Ledger.

(** What a script finds when it looks at a tracking file. *)
Inductive file_read :=
| Absent
| Unreadable
| Content (text : string).

(** A helper either returns or ends the process with [sys.exit(code)]. *)
Inductive outcome (A : Type) :=
| Ret (a : A)
| SysExit (code : Z).
Arguments Ret {A} a.
Arguments SysExit {A} code.

(** [set(line.strip() for line in f if line.strip())] *)
Definition id_set_of_text (text : string) : gset string :=
  list_to_set
    (map Py.strip
       (List.filter (fun line => negb (String.eqb (Py.strip line) ""))
          (Py.file_lines text))).

(** [load_tracked_ids(filepath)], and [load_completed_ids(filepath)] of the
    archiving script, which differs only by a warning on a missing file. *)
Definition load_tracked_ids (f : file_read) : outcome (gset string) :=
  match f with
  | Absent => Ret ∅
  | Unreadable => SysExit 1
  | Content text => Ret (id_set_of_text text)
  end.

(** How an [open(path, 'a')] ... [write] ... close sequence ends: normally,
    or with an IOError after [written] characters of the data reached the
    file ([written = 0] when the open itself fails). *)
Inductive write_result :=
| WriteOk
| WriteIOError (written : nat).

(** The characters [append_ids_to_file] writes: [f"{id_str}\n"] per ID. *)
Definition lines_of_ids (ids_to_add : list string) : string :=
  fold_right (fun id_str rest => id_str +:+ Py.newline +:+ rest) "" ids_to_add.

(** [append_ids_to_file(filepath, ids_to_add)]: the new file content, and
    whether the except-branch printed its message.  The function returns
    [None] to its caller in both cases. *)
Definition append_ids_to_file (content : string) (ids_to_add : list string)
    (res : write_result) : string * bool :=
  match res with
  | WriteOk => (content +:+ lines_of_ids ids_to_add, false)
  | WriteIOError written =>
      (content +:+ Py.str_take written (lines_of_ids ids_to_add), true)
  end.

(** [path.touch(exist_ok=True)] *)
Definition touch (f : file_read) : file_read :=
  match f with
  | Absent => Content ""
  | _ => f
  end.

End Ledger.

(** ** archive_completed_results.py: the Reconciler *)

Module Reconciler.

(** The [for k in range(kmin, kmax, K_STEP)] loop of [check_range_completion],
    threading [missing_ids]. *)
Fixpoint collect_missing (n : Z) (completed_set : gset string)
    (ks : list Z) (missing_ids : list string) : list string :=
  match ks with
  | [] => missing_ids
  | k :: ks' =>
      let individual_id := id_str n k in
      collect_missing n completed_set ks'
        (if decide (individual_id ∈ completed_set) then missing_ids
         else missing_ids ++ [individual_id])
  end.

(** [check_range_completion(n, kmin, kmax, completed_set)] *)
Definition check_range_completion (n kmin kmax : Z) (completed_set : gset string)
    : bool * list string :=
  if kmax <=? kmin then (false, [])
  else
    let missing_ids := collect_missing n completed_set (Py.range kmin kmax K_STEP) [] in
    (match missing_ids with [] => true | _ => false end, missing_ids).

(** [num_ids_expected = (kmax - kmin + K_STEP - 1) // K_STEP] *)
Definition num_ids_expected (kmin kmax : Z) : Z :=
  (kmax - kmin + K_STEP - 1) / K_STEP.

(** The parsing block of the scan loop: [None] is the except-branch
    (warning, [continue]). *)
Definition parse_range_filename (filename : string) : option (Z * Z * Z) :=
  let core_part := Py.removesuffix (Py.removeprefix filename "uni_") ".txt" in
  match Py.split "_" core_part with
  | [n_str; kmin_str; kmax_str] =>
      match Py.int_of_str n_str, Py.int_of_str kmin_str, Py.int_of_str kmax_str with
      | Some n, Some kmin, Some kmax => Some (n, kmin, kmax)
      | _, _, _ => None
      end
  | _ => None
  end.

End Reconciler.

(** ** run_sqct_one_by_one.py: the Dispatcher *)

Module Dispatcher.

Import Ledger.

(** The module-level configuration constants the main loop reads.  The
    script derives [N = 2**M] and [MAX_K = 2**(M - 1)] from [M]. *)
Record config := Config {
  N : Z;
  MAX_K : Z;
  NUM_K_PER_JOB : Z;
  MAX_JOBS : Z
}.

Definition config_of_M (M num_k_per_job max_jobs : Z) : config :=
  {| N := 2 ^ M; MAX_K := 2 ^ (M - 1);
     NUM_K_PER_JOB := num_k_per_job; MAX_JOBS := max_jobs |}.

(** The constants as committed: [M = 21], 512 values of k per job, at most
    128 jobs. *)
Definition source_config : config := config_of_M 21 512 128.

(** [job_k_range_size = NUM_K_PER_JOB * K_STEP] *)
Definition job_k_range_size (cfg : config) : Z := NUM_K_PER_JOB cfg * K_STEP.

(** How [subprocess.run(['qsub'], ..., check=True)] ends. *)
Inductive qsub_result :=
| QsubOk (job_id : string)
| QsubNotFound                     (* FileNotFoundError *)
| QsubRejected (returncode : Z)    (* CalledProcessError *)
| QsubOtherError.                  (* any other Exception *)

(** The outside world of one run, asked once per range (keyed by [kmin]). *)
Record env := Env {
  preflight_ok : bool;   (* copying layers and executable, sanity checks, mkdir *)
  append_result : Z -> write_result;
  config_write_ok : Z -> bool;
  qsub : Z -> qsub_result
}.

(** Messages printed to stderr. *)
Inductive message :=
| ErrTrackingWrite
| ErrConfigWrite (kmin kmax : Z)
| ErrQsubNotFound
| ErrQsubFailed (kmin kmax returncode : Z)
| ErrQsubUnexpected (kmin kmax : Z).

(** What a run does to the outside, in order. *)
Inductive event :=
| LedgerAppend (ids : list string) (res : write_result)
| Stderr (m : message)
| ConfigWrite (kmin kmax : Z) (ok : bool)
| Qsub (kmin kmax : Z) (ids : list string) (res : qsub_result).

Record state := State {
  started_file : string;            (* content of started_ids.txt *)
  started_ids_set : gset string;
  submitted_count : Z;
  skipped_ranges_count : Z;
  error_count : Z;
  trace : list event
}.

Inductive control := Continue | Break.

(** The inner loop [for current_k in range(kmin, kmax_actual, K_STEP)]:
    returns [skip_range] and [ids_in_range] as they stand when the loop
    ends or breaks. *)
Fixpoint scan_range (n : Z) (started : gset string) (ks : list Z)
    (ids_in_range : list string) : bool * list string :=
  match ks with
  | [] => (false, ids_in_range)
  | current_k :: ks' =>
      let current_id_str := id_str n current_k in
      let ids_in_range := ids_in_range ++ [current_id_str] in
      if decide (current_id_str ∈ started) then (true, ids_in_range)
      else scan_range n started ks' ids_in_range
  end.

Definition log (st : state) (evs : list event) : state :=
  {| started_file := started_file st; started_ids_set := started_ids_set st;
     submitted_count := submitted_count st;
     skipped_ranges_count := skipped_ranges_count st;
     error_count := error_count st; trace := trace st ++ evs |}.

Definition count_skipped (st : state) : state :=
  {| started_file := started_file st; started_ids_set := started_ids_set st;
     submitted_count := submitted_count st;
     skipped_ranges_count := skipped_ranges_count st + 1;
     error_count := error_count st; trace := trace st |}.

Definition count_error (st : state) : state :=
  {| started_file := started_file st; started_ids_set := started_ids_set st;
     submitted_count := submitted_count st;
     skipped_ranges_count := skipped_ranges_count st;
     error_count := error_count st + 1; trace := trace st |}.

Definition count_submitted (st : state) : state :=
  {| started_file := started_file st; started_ids_set := started_ids_set st;
     submitted_count := submitted_count st + 1;
     skipped_ranges_count := skipped_ranges_count st;
     error_count := error_count st; trace := trace st |}.

(** Lines 234-237: [append_ids_to_file(TRACKING_FILE_STARTED, ids_in_range)]
    followed by [started_ids_set.update(ids_in_range)]. *)
Definition mark_started (res : write_result) (ids_in_range : list string)
    (st : state) : state :=
  let '(text, complained) := append_ids_to_file (started_file st) ids_in_range res in
  {| started_file := text;
     started_ids_set := started_ids_set st ∪ list_to_set ids_in_range;
     submitted_count := submitted_count st;
     skipped_ranges_count := skipped_ranges_count st;
     error_count := error_count st;
     trace := trace st ++ LedgerAppend ids_in_range res
                :: (if complained then [Stderr ErrTrackingWrite] else []) |}.

(** Lines 278-316: build the PBS script (it carries [ids_in_range], one
    [echo] per ID) and pipe it to qsub. *)
Definition submit (cfg : config) (e : env) (kmin kmax_actual : Z)
    (ids_in_range : list string) (st : state) : state * control :=
  let res := qsub e kmin in
  let st := log st [Qsub kmin kmax_actual ids_in_range res] in
  match res with
  | QsubOk _ => (count_submitted st, Continue)
  | QsubNotFound => (count_error (log st [Stderr ErrQsubNotFound]), Break)
  | QsubRejected code =>
      (count_error (log st [Stderr (ErrQsubFailed kmin kmax_actual code)]), Continue)
  | QsubOtherError =>
      (count_error (log st [Stderr (ErrQsubUnexpected kmin kmax_actual)]), Continue)
  end.

(** Lines 232-316, reached when the range is clear: mark the IDs started,
    write the config file, submit. *)
Definition claim_and_submit (cfg : config) (e : env) (kmin kmax_actual : Z)
    (ids_in_range : list string) (st : state) : state * control :=
  let st := mark_started (append_result e kmin) ids_in_range st in
  if config_write_ok e kmin then
    submit cfg e kmin kmax_actual ids_in_range
      (log st [ConfigWrite kmin kmax_actual true])
  else
    (count_error
       (log st [ConfigWrite kmin kmax_actual false;
                Stderr (ErrConfigWrite kmin kmax_actual)]),
     Continue).

(** The body of [for kmin in range(1, MAX_K, job_k_range_size)] below the
    MAX_JOBS test. *)
Definition loop_body (cfg : config) (e : env) (kmin : Z) (st : state)
    : state * control :=
  let kmax_calc := kmin + job_k_range_size cfg in
  let kmax_actual := Z.min kmax_calc (MAX_K cfg) in
  let '(skip_range, ids_in_range) :=
    scan_range (N cfg) (started_ids_set st) (Py.range kmin kmax_actual K_STEP) [] in
  if skip_range then (count_skipped st, Continue)
  else
    match ids_in_range with
    | [] => (count_skipped st, Continue)
    | _ => claim_and_submit cfg e kmin kmax_actual ids_in_range st
    end.

(** The main loop over the values [kmin] takes; it stops at the first
    [break]. *)
Fixpoint main_loop (cfg : config) (e : env) (kmins : list Z) (st : state) : state :=
  match kmins with
  | [] => st
  | kmin :: rest =>
      if MAX_JOBS cfg <=? submitted_count st then st
      else
        match loop_body cfg e kmin st with
        | (st', Continue) => main_loop cfg e rest st'
        | (st', Break) => st'
        end
  end.

(** The ranges the main loop walks through: [kmin] and [kmax_actual]. *)
Definition partition (cfg : config) : list (Z * Z) :=
  map (fun kmin => (kmin, Z.min (kmin + job_k_range_size cfg) (MAX_K cfg)))
      (Py.range 1 (MAX_K cfg) (job_k_range_size cfg)).

Inductive run_result :=
| Aborted (code : Z)        (* sys.exit(1) before the main loop *)
| Finished (final : state). (* summary printed, sys.exit(0) *)

(** The script from top to bottom. *)
Definition main (cfg : config) (e : env) (started : file_read) : run_result :=
  let started := touch started in
  if NUM_K_PER_JOB cfg <=? 0 then Aborted 1
  else if negb (preflight_ok e) then Aborted 1
  else
    match started, load_tracked_ids started with
    | Content text, Ret started_ids_set =>
        Finished
          (main_loop cfg e (Py.range 1 (MAX_K cfg) (job_k_range_size cfg))
             {| started_file := text; started_ids_set := started_ids_set;
                submitted_count := 0; skipped_ranges_count := 0;
                error_count := 0; trace := [] |})
    | _, _ => Aborted 1
    end.

(** The content of started_ids.txt after the events of a trace. *)
Fixpoint ledger_after (content : string) (tr : list event) : string :=
  match tr with
  | [] => content
  | LedgerAppend ids res :: tr' =>
      ledger_after (fst (append_ids_to_file content ids res)) tr'
  | _ :: tr' => ledger_after content tr'
  end.

End Dispatcher.

(** ** task_gen.py *)

Module TaskGen.

(** The ranges [(k1, k2)] of the inner loop of [generate_config_files] for
    one [n]. *)
Definition batches (n k_per_batch k_step : Z) : list (Z * Z) :=
  let max_k := n / 2 in
  let total_k_values := (max_k - 1) / k_step + 1 in
  let num_batches := (total_k_values + k_per_batch - 1) / k_per_batch in
  map (fun batch =>
         let k1 := 1 + batch * k_per_batch * k_step in
         let k2 := Z.min (k1 + k_per_batch * k_step) (max_k + 1) in
         (k1, k2))
      (Py.range 0 num_batches 1).

(** [generate_config_files(m_min, m_max, k_per_batch, k_step)]: the config
    files written, as [(n, (k1, k2))], for exponents [m >= 0]. *)
Definition generate_config_files (m_min m_max k_per_batch k_step : Z)
    : list (Z * (Z * Z)) :=
  flat_map (fun m => map (pair (2 ^ m)) (batches (2 ^ m) k_per_batch k_step))
           (Py.range m_min (m_max + 1) 1).

End TaskGen.

(** ** archive_completed_results.py: scan, archive, remove, clean up *)

Module Archiver.

Import Ledger Reconciler.

(** One entry of the directory [out/]. *)
Record dir_entry := DirEntry {
  entry_name : string;
  entry_is_file : bool
}.

Definition ARCHIVE_NAME : string := "archive_ranges.tar".
Definition RANGE_PATTERN : string := "uni_*_*_*.txt".
Definition TITLE_PATTERN : string := "*.title".

(** [OUTPUT_DIR.glob(pattern)], in directory order. *)
Definition glob (pattern : string) (dir : list dir_entry) : list dir_entry :=
  List.filter (fun d => Py.glob_match pattern (entry_name d)) dir.

Definition exists_in (dir : list dir_entry) (name : string) : bool :=
  existsb (fun d => String.eqb (entry_name d) name) dir.

(** [path.unlink()] when it succeeds. *)
Definition unlink (name : string) (dir : list dir_entry) : list dir_entry :=
  List.filter (fun d => negb (String.eqb (entry_name d) name)) dir.

(** The scan loop over the candidate files, threading [files_to_archive]. *)
Fixpoint scan (completed_ids_set : gset string) (candidates : list dir_entry)
    (files_to_archive : list string) : list string :=
  match candidates with
  | [] => files_to_archive
  | d :: rest =>
      if negb (entry_is_file d) then scan completed_ids_set rest files_to_archive
      else
        match parse_range_filename (entry_name d) with
        | None => scan completed_ids_set rest files_to_archive
        | Some (n, kmin, kmax) =>
            let '(all_complete, missing) :=
              check_range_completion n kmin kmax completed_ids_set in
            if all_complete
            then scan completed_ids_set rest (files_to_archive ++ [entry_name d])
            else scan completed_ids_set rest files_to_archive
        end
  end.

(** The batch: the files classified Complete. *)
Definition complete_files (dir : list dir_entry) (completed_ids_set : gset string)
    : list string :=
  scan completed_ids_set (glob RANGE_PATTERN dir) [].

(** How a tarfile call ends: normally, with one of the exceptions the
    script catches (TarError, IOError, OSError), or with any other one. *)
Inductive tar_result := TarOk | TarCaught | TarUncaught.

Record env := Env {
  tar_open : tar_result;
  tar_add : string -> tar_result;
  tar_close : tar_result;
  unlink_ok : string -> bool
}.

(** The [for file_path in files_to_archive: tar.add(...)] loop: the members
    of the archive and how the loop ended. *)
Fixpoint add_all (e : env) (files : list string) (members : list string)
    : list string * tar_result :=
  match files with
  | [] => (members, TarOk)
  | f :: rest =>
      match tar_add e f with
      | TarOk => add_all e rest (members ++ [f])
      | r => (members, r)
      end
  end.

(** The [with tarfile.open(ARCHIVE_PATH, mode=tar_mode) as tar] block.
    Mode 'a' keeps the members of an existing archive, mode 'w' starts an
    empty one. *)
Definition write_archive (e : env) (files : list string) (dir : list dir_entry)
    (members : list string) : list dir_entry * list string * tar_result :=
  let tar_mode_append := exists_in dir ARCHIVE_NAME in
  match tar_open e with
  | TarOk =>
      let dir := if tar_mode_append then dir
                 else dir ++ [DirEntry ARCHIVE_NAME true] in
      let members := if tar_mode_append then members else [] in
      match add_all e files members with
      | (members, TarOk) => (dir, members, tar_close e)
      | (members, r) => (dir, members, r)
      end
  | r => (dir, members, r)
  end.

(** The removal loop: the directory afterwards, the files unlinked, and the
    number of failed removals. *)
Fixpoint remove_archived (e : env) (files : list string) (dir : list dir_entry)
    (removed : list string) (failed_removal_count : Z)
    : list dir_entry * list string * Z :=
  match files with
  | [] => (dir, removed, failed_removal_count)
  | f :: rest =>
      if exists_in dir f then
        if unlink_ok e f
        then remove_archived e rest (unlink f dir) (removed ++ [f]) failed_removal_count
        else remove_archived e rest dir removed (failed_removal_count + 1)
      else remove_archived e rest dir removed failed_removal_count
  end.

(** The [*.title] clean-up loop. *)
Fixpoint remove_titles (e : env) (title_files_found : list dir_entry)
    (dir : list dir_entry) (removed : list string) : list dir_entry * list string :=
  match title_files_found with
  | [] => (dir, removed)
  | t :: rest =>
      if entry_is_file t && exists_in dir (entry_name t) then
        if unlink_ok e (entry_name t)
        then remove_titles e rest (unlink (entry_name t) dir) (removed ++ [entry_name t])
        else remove_titles e rest dir removed
      else remove_titles e rest dir removed
  end.

Inductive ending :=
| ExitedEarly (code : Z)   (* sys.exit(1): completed_ids.txt unreadable *)
| Traceback                (* an exception nobody catches *)
| RanToEnd.

Record result := Result {
  out_dir : list dir_entry;
  archive_members : list string;
  files_to_archive : list string;
  removed_range_files : list string;
  removed_title_files : list string;
  archive_failure_reported : bool;   (* "ERROR: Archive operation failed" *)
  how_ended : ending
}.

(** The script from top to bottom. *)
Definition main (e : env) (completed : file_read) (dir : list dir_entry)
    (members : list string) : result :=
  match load_tracked_ids completed with
  | SysExit code => Result dir members [] [] [] false (ExitedEarly code)
  | Ret completed_ids_set =>
      let files := complete_files dir completed_ids_set in
      let '(dir1, members1, status) :=
        match files with
        | [] => (dir, members, TarOk)
        | _ => write_archive e files dir members
        end in
      match status with
      | TarUncaught => Result dir1 members1 files [] [] false Traceback
      | _ =>
          let failed := match status with TarOk => false | _ => true end in
          let files_to_remove_post_archive := if failed then [] else files in
          let '(dir2, removed, _) :=
            remove_archived e files_to_remove_post_archive dir1 [] 0 in
          let '(dir3, titles) := remove_titles e (glob TITLE_PATTERN dir2) dir2 [] in
          Result dir3 members1 files removed titles failed RanToEnd
      end
  end.

(** The archive write of a batch fails when the open, one of the adds, or
    the close does not return normally. *)
Definition write_fails (e : env) (files : list string) : Prop :=
  tar_open e <> TarOk \/ (exists f, In f files /\ tar_add e f <> TarOk)
  \/ tar_close e <> TarOk.

(** The source artifacts present in a directory. *)
Definition range_files (dir : list dir_entry) : list dir_entry :=
  glob RANGE_PATTERN dir.

End Archiver.

(** ** More Python built-ins *)

Module PyMore.

(** [s[i]] for [i >= 0]: a one-character string; [None] stands for
    IndexError. *)
Definition item (s : string) (i : nat) : option string :=
  (fun c => String c "") <$> String.get i s.

(** [s.startswith(p)] *)
Definition startswith (s p : string) : bool := String.prefix p s.

End PyMore.

(** ** run_sqct_one_by_one.py: the name of a range output file *)

Module Naming.

(** [output_filename = f"uni_{N}_{kmin}_{kmax_actual}.txt"] *)
Definition output_filename (n kmin kmax_actual : Z) : string :=
  "uni_" +:+ Py.str_of_int n +:+ "_" +:+ Py.str_of_int kmin +:+ "_"
  +:+ Py.str_of_int kmax_actual +:+ ".txt".

End Naming.

(** ** task_gen.py: the files it writes *)

Module TaskGenFiles.

(** [filename = f"configs/uni{n}_{batch+1}.config"] *)
Definition filename (n batch : Z) : string :=
  "configs/uni" +:+ Py.str_of_int n +:+ "_" +:+ Py.str_of_int (batch + 1)
  +:+ ".config".

(** The f-string [config_content] of [generate_config_files]. *)
Definition config_content (n batch k1 k2 k_step : Z) : string :=
  "# Request approximation of R_z rotations by angles of the form $2\pi k/n$ for k in the interval [k1,k2)"
  +:+ Py.newline +:+ "UNIFORM"
  +:+ Py.newline +:+ "#Filename with approximation results"
  +:+ Py.newline +:+ "batch_out/uni" +:+ Py.str_of_int n +:+ "_"
                 +:+ Py.str_of_int (batch + 1) +:+ ".txt"
  +:+ Py.newline +:+ "#Minimal number of T gates to use for approximation"
  +:+ Py.newline +:+ "0"
  +:+ Py.newline +:+ "#Maximal number of T gates to use for approximation"
  +:+ Py.newline +:+ "100"
  +:+ Py.newline +:+ "#n"
  +:+ Py.newline +:+ Py.str_of_int n
  +:+ Py.newline +:+ "#k1"
  +:+ Py.newline +:+ Py.str_of_int k1
  +:+ Py.newline +:+ "#k2"
  +:+ Py.newline +:+ Py.str_of_int k2
  +:+ Py.newline +:+ "#kstep"
  +:+ Py.newline +:+ Py.str_of_int k_step
  +:+ Py.newline.

(** The inner loop of [generate_config_files] for one [n]: the files
    written, as name and content, in order. *)
Definition written_files (n k_per_batch k_step : Z) : list (string * string) :=
  let max_k := n / 2 in
  let total_k_values := (max_k - 1) / k_step + 1 in
  let num_batches := (total_k_values + k_per_batch - 1) / k_per_batch in
  map (fun batch =>
         let k1 := 1 + batch * k_per_batch * k_step in
         let k2 := Z.min (k1 + k_per_batch * k_step) (max_k + 1) in
         (filename n batch, config_content n batch k1 k2 k_step))
      (Py.range 0 num_batches 1).

End TaskGenFiles.

(** ** task_run.py *)

Module TaskRun.

Import Ledger.

Definition MARKER : string := "#Filename with approximation results".

(** What the [for i, line in enumerate(f)] loop leaves in [output_file]. *)
Inductive found :=
| NoMarker                        (* the loop ends, [output_file] is None *)
| OutputFile (output_file : string)
| IndexError.                     (* [line[i+1]] is out of range *)

Fixpoint find_output (i : nat) (lines : list string) : found :=
  match lines with
  | [] => NoMarker
  | line :: rest =>
      if PyMore.startswith line MARKER then
        match PyMore.item line (i + 1) with
        | Some output_file => OutputFile output_file
        | None => IndexError
        end
      else find_output (S i) rest
  end.

(** The outside of one call: which paths exist, and how
    [run(cmd, env=env, check=True)] ends. *)
Record env := Env {
  path_exists : string -> bool;
  run_ok : bool
}.

Inductive outcome :=
| CannotOpen                          (* [open(config_file, 'r')] raises *)
| Warned                              (* no output file found, return *)
| RaisedIndexError
| Skipped (output_file : string)      (* the output exists already *)
| Completed (output_file : string)    (* sqct was run and succeeded *)
| RaisedCalledProcessError (output_file : string).

(** [process_config_file(config_file)] *)
Definition process_config_file (e : env) (config_file : file_read) : outcome :=
  match config_file with
  | Content text =>
      match find_output 0 (Py.file_lines text) with
      | NoMarker => Warned
      | IndexError => RaisedIndexError
      | OutputFile output_file =>
          if String.eqb output_file "" then Warned
          else if path_exists e output_file then Skipped output_file
          else if run_ok e then Completed output_file
          else RaisedCalledProcessError output_file
      end
  | _ => CannotOpen
  end.

End TaskRun.

(** ** Vocabulary of the statements *)

Fixpoint all_chars (P : ascii -> bool) (s : string) : bool :=
  match s with
  | "" => true
  | String c r => P c && all_chars P r
  end.

Definition not_space (c : ascii) : bool := negb (Py.is_space c).
Definition not_cr (c : ascii) : bool := negb (Ascii.eqb c Py.CR).

(** A ledger line that survives [strip] unchanged and is not dropped as
    empty: at least one character, none of them whitespace. *)
Definition clean_id (id : string) : Prop :=
  id <> "" /\ all_chars not_space id = true.

(** [ends_line true text]: the text is empty or its last character ends a
    line ("\n" or "\r"). *)
Fixpoint ends_line (at_line_start : bool) (text : string) : bool :=
  match text with
  | "" => at_line_start
  | String c r => ends_line (Ascii.eqb c Py.LF || Ascii.eqb c Py.CR) r
  end.

Definition line_terminated (text : string) : Prop := ends_line true text = true.

(** [k] lies in the half-open range [[kmin, kmax)]. *)
Definition in_range (r : Z * Z) (k : Z) : Prop := fst r <= k < snd r.

(** Consecutive ranges of a list do not overlap and are in increasing order:
    each one ends no later than every later one starts. *)
Fixpoint ordered_disjoint (rs : list (Z * Z)) : Prop :=
  match rs with
  | [] => True
  | r :: rest => Forall (fun r' => fst r < fst r' /\ snd r <= fst r') rest
                 /\ ordered_disjoint rest
  end.

(** The ranges of span [size] that start at [start], [start + size], ...
    below [stop], each clipped at [stop]. *)
Definition clipped_ranges (start stop size : Z) : list (Z * Z) :=
  map (fun kmin => (kmin, Z.min (kmin + size) stop)) (Py.range start stop size).

(** A list of ranges covers the interval [[lo, hi)] exactly once, in order. *)
Definition covers_once (rs : list (Z * Z)) (lo hi : Z) : Prop :=
  ordered_disjoint rs
  /\ (forall k, (exists r, r ∈ rs /\ in_range r k) <-> lo <= k < hi)
  /\ (forall k r r', r ∈ rs -> r' ∈ rs -> in_range r k -> in_range r' k -> r = r').

Definition is_append (ev : Dispatcher.event) : bool :=
  match ev with
  | Dispatcher.LedgerAppend _ _ => true
  | _ => false
  end.

(** The end of the range that starts at [kmin]: [kmax_actual]. *)
Definition kmax_of (cfg : Dispatcher.config) (kmin : Z) : Z :=
  Z.min (kmin + Dispatcher.job_k_range_size cfg) (Dispatcher.MAX_K cfg).

(** A small instance used to run the scripts: n = 16 with two values of k
    per job, so the ranges are [[1, 5)] and [[5, 8)]. *)
Definition small_config (max_jobs : Z) : Dispatcher.config :=
  Dispatcher.Config 16 8 2 max_jobs.

(** An outside world that answers every range the same way. *)
Definition constant_env (a : Ledger.write_result) (config_ok : bool)
    (q : Dispatcher.qsub_result) : Dispatcher.env :=
  Dispatcher.Env true (fun _ => a) (fun _ => config_ok) (fun _ => q).

(** The state at the start of the main loop for a given ledger text. *)
Definition initial_state (text : string) : Dispatcher.state :=
  Dispatcher.State text (Ledger.id_set_of_text text) 0 0 0 [].

(** No event of the list appends to the ledger. *)
Definition no_append (evs : list Dispatcher.event) : Prop :=
  forallb (fun ev => negb (is_append ev)) evs = true.

(** In the trace of a run that started with the set [started0], every qsub
    call is for a range of the partition, carries that range's constituent
    IDs, none of which was in [started0], and comes after the ledger append
    of these IDs, with no other ledger append in between. *)
Definition claimed_before_submitted (cfg : Dispatcher.config)
    (started0 : gset string) (tr : list Dispatcher.event) : Prop :=
  forall pre kmin kmax ids res post,
    tr = pre ++ Dispatcher.Qsub kmin kmax ids res :: post ->
    kmax = kmax_of cfg kmin
    /\ ids = constituent_ids (Dispatcher.N cfg) kmin kmax
    /\ ids <> []
    /\ (forall id, id ∈ ids -> id ∉ started0)
    /\ exists pre1 wres mid,
         pre = pre1 ++ Dispatcher.LedgerAppend ids wres :: mid /\ no_append mid.

(** In the trace, every ledger append is for a range of the partition and
    carries that range's constituent IDs, none of which was in [started0]. *)
Definition appends_are_claims (cfg : Dispatcher.config)
    (started0 : gset string) (tr : list Dispatcher.event) : Prop :=
  forall ids wres,
    Dispatcher.LedgerAppend ids wres ∈ tr ->
    ids <> [] /\ (forall id, id ∈ ids -> id ∉ started0)
    /\ exists kmin, ids = constituent_ids (Dispatcher.N cfg) kmin (kmax_of cfg kmin).

(** The facts every state of a run satisfies, for a run that started from
    the ledger text [text0] and the in-memory set [started0]. *)
Definition run_invariant (cfg : Dispatcher.config) (text0 : string)
    (started0 : gset string) (st : Dispatcher.state) : Prop :=
  started0 ⊆ Dispatcher.started_ids_set st
  /\ Dispatcher.started_file st = Dispatcher.ledger_after text0 (Dispatcher.trace st)
  /\ claimed_before_submitted cfg started0 (Dispatcher.trace st)
  /\ appends_are_claims cfg started0 (Dispatcher.trace st)
  /\ (forall ids wres, Dispatcher.LedgerAppend ids wres ∈ Dispatcher.trace st ->
        forall id, id ∈ ids -> id ∈ Dispatcher.started_ids_set st).

(** A finished run of the small instance over its two ranges, with every
    outside call succeeding and qsub answering [job]. *)
Definition small_run (max_jobs : Z) (job text : string) : Dispatcher.state :=
  Dispatcher.main_loop (small_config max_jobs)
    (constant_env Ledger.WriteOk true (Dispatcher.QsubOk job))
    [1; 5] (initial_state text).

Fixpoint last_char (s : string) : option ascii :=
  match s with
  | "" => None
  | String c r => match last_char r with None => Some c | Some d => Some d end
  end.

(** An output directory with a batch of three complete range files and a
    title file, the Completed ledger that makes them complete, and a tar
    library whose [add] fails on the second file. *)
Definition example_dir : list Archiver.dir_entry :=
  [Archiver.DirEntry "uni_16_1_5.txt" true;
   Archiver.DirEntry "uni_16_5_8.txt" true;
   Archiver.DirEntry "uni_8_1_4.txt" true;
   Archiver.DirEntry "uni_16_1_5.title" true].

Definition example_completed : string :=
  Ledger.lines_of_ids ["16_1"; "16_3"; "16_5"; "16_7"; "8_1"; "8_3"].

Definition example_failing_tar : Archiver.env :=
  Archiver.Env Archiver.TarOk
    (fun f => if String.eqb f "uni_16_5_8.txt" then Archiver.TarCaught
              else Archiver.TarOk)
    Archiver.TarOk (fun _ => true).

(** ** Vocabulary of the further properties *)

Definition not_sign (c : ascii) : bool :=
  negb (Ascii.eqb c "-") && negb (Ascii.eqb c "+").

Definition not_lf (c : ascii) : bool := negb (Ascii.eqb c Py.LF).

(** A tar library and a file system that never fail. *)
Definition example_working_tar : Archiver.env :=
  Archiver.Env Archiver.TarOk (fun _ => Archiver.TarOk) Archiver.TarOk
    (fun _ => true).


(** Counting and projecting the events of a Dispatcher trace. *)
Definition is_qsub_ok (ev : Dispatcher.event) : bool :=
  match ev with
  | Dispatcher.Qsub _ _ _ (Dispatcher.QsubOk _) => true
  | _ => false
  end.

Definition is_failure (ev : Dispatcher.event) : bool :=
  match ev with
  | Dispatcher.ConfigWrite _ _ false => true
  | Dispatcher.Qsub _ _ _ (Dispatcher.QsubOk _) => false
  | Dispatcher.Qsub _ _ _ _ => true
  | _ => false
  end.

Definition count_events (P : Dispatcher.event -> bool)
    (tr : list Dispatcher.event) : Z :=
  Z.of_nat (length (List.filter P tr)).

(** The IDs a trace hands to [append_ids_to_file], in order. *)
Definition appended_ids (tr : list Dispatcher.event) : list string :=
  flat_map (fun ev => match ev with
                      | Dispatcher.LedgerAppend ids _ => ids
                      | _ => []
                      end) tr.

(** The [kmin] of the ranges for which qsub is called, in order. *)
Definition qsub_kmins (tr : list Dispatcher.event) : list Z :=
  flat_map (fun ev => match ev with
                      | Dispatcher.Qsub kmin _ _ _ => [kmin]
                      | _ => []
                      end) tr.

(** A text that does not begin with a line feed. *)
Definition no_leading_lf (t : string) : Prop := forall r, t <> String Py.LF r.

(* END OF VOCABULARY *)

(* ================================================================== *)
(** * Properties *)

(** ** Facts about [range] *)

Section RangeFacts.

Lemma range_len_pos start stop step :
  0 < step -> start < stop ->
  Z.of_nat (Py.range_len start stop step) = (stop - start - 1) / step + 1.
Proof.
  intros Hs Hlt. unfold Py.range_len.
  destruct (Z.ltb_spec 0 step); [|lia].
  destruct (Z.ltb_spec start stop); [|lia].
  rewrite Z2Nat.id; [reflexivity|].
  assert (0 <= (stop - start - 1) / step) by (apply Z.div_pos; lia). lia.
Qed.

Lemma range_len_empty start stop step :
  0 < step -> stop <= start -> Py.range_len start stop step = 0%nat.
Proof.
  intros Hs Hle. unfold Py.range_len.
  destruct (Z.ltb_spec 0 step); [|lia].
  destruct (Z.ltb_spec start stop); [lia|reflexivity].
Qed.

Lemma range_length start stop step :
  length (Py.range start stop step) = Py.range_len start stop step.
Proof. unfold Py.range. by rewrite length_map, length_seq. Qed.

(** The length is the ceiling of [(stop - start) / step]. *)
Lemma range_len_ceil start stop step :
  0 < step -> start < stop ->
  let c := Z.of_nat (Py.range_len start stop step) in
  (c - 1) * step < stop - start <= c * step.
Proof.
  intros Hs Hlt c. subst c. rewrite range_len_pos by lia.
  pose proof (Z.div_mod (stop - start - 1) step ltac:(lia)) as Hdm.
  pose proof (Z.mod_pos_bound (stop - start - 1) step Hs) as Hb.
  nia.
Qed.

Lemma range_len_formula start stop step :
  0 < step -> start < stop ->
  Z.of_nat (Py.range_len start stop step) = (stop - start + step - 1) / step.
Proof.
  intros Hs Hlt. rewrite range_len_pos by lia.
  replace (stop - start + step - 1) with ((stop - start - 1) + 1 * step) by lia.
  rewrite Z.div_add by lia. reflexivity.
Qed.

Lemma elem_of_range k start stop step :
  0 < step ->
  k ∈ Py.range start stop step <->
  start <= k < stop /\ (k - start) mod step = 0.
Proof.
  intros Hs. unfold Py.range. rewrite list_elem_of_fmap. split.
  - intros (i & -> & Hi). apply elem_of_seq in Hi.
    destruct (Z.lt_ge_cases start stop) as [Hlt|Hge].
    + pose proof (range_len_ceil start stop step Hs Hlt) as Hc. cbv zeta in Hc.
      split; [nia|].
      replace (start + Z.of_nat i * step - start) with (Z.of_nat i * step) by lia.
      apply Z.mod_mul; lia.
    + rewrite range_len_empty in Hi by lia. lia.
  - intros [[Hlo Hhi] Hmod].
    apply Z.mod_divide in Hmod; [|lia]. destruct Hmod as [q Hq].
    assert (0 <= q) by nia.
    exists (Z.to_nat q). split; [rewrite Z2Nat.id by lia; lia|].
    apply elem_of_seq.
    pose proof (range_len_ceil start stop step Hs ltac:(lia)) as Hc. cbv zeta in Hc.
    split; [lia|]. simpl. apply Nat2Z.inj_lt. rewrite Z2Nat.id by lia. nia.
Qed.

Lemma range_cons start stop step :
  0 < step -> start < stop ->
  Py.range start stop step = start :: Py.range (start + step) stop step.
Proof.
  intros Hs Hlt. unfold Py.range.
  assert (Py.range_len start stop step = S (Py.range_len (start + step) stop step)) as ->.
  { apply Nat2Z.inj. rewrite Nat2Z.inj_succ, range_len_pos by lia.
    destruct (Z.lt_ge_cases (start + step) stop).
    - rewrite range_len_pos by lia.
      replace (stop - start - 1) with ((stop - (start + step) - 1) + 1 * step) by lia.
      rewrite Z.div_add by lia. lia.
    - rewrite range_len_empty by lia.
      rewrite Z.div_small by lia. lia. }
  simpl. f_equal; [lia|].
  rewrite <- seq_shift, map_map. apply map_ext. intros i. lia.
Qed.

Lemma range_nil start stop step :
  0 < step -> stop <= start -> Py.range start stop step = [].
Proof. intros. unfold Py.range. by rewrite range_len_empty. Qed.

Lemma range_NoDup start stop step :
  0 < step -> NoDup (Py.range start stop step).
Proof.
  intros Hs. unfold Py.range. apply NoDup_fmap_2_strong; [|apply NoDup_seq].
  intros i j _ _ Heq. nia.
Qed.

End RangeFacts.

(** ** Facts about strings and ID strings *)

Section IdFacts.

Lemma app_cons c (s t : string) : String c s +:+ t = String c (s +:+ t).
Proof. reflexivity. Qed.

Lemma app_empty_l (t : string) : "" +:+ t = t.
Proof. reflexivity. Qed.

Lemma app_empty_r (s : string) : s +:+ "" = s.
Proof. induction s as [|c s IH]; [done|]. by rewrite app_cons, IH. Qed.

Lemma app_assoc' (s t u : string) : (s +:+ t) +:+ u = s +:+ (t +:+ u).
Proof. induction s as [|c s IH]; [done|]. by rewrite !app_cons, IH. Qed.

Lemma all_chars_app P (s t : string) :
  all_chars P (s +:+ t) = all_chars P s && all_chars P t.
Proof.
  induction s as [|c s IH]; [done|].
  rewrite app_cons. simpl. by rewrite IH, andb_assoc.
Qed.

Lemma pretty_N_go_chars (P : ascii -> bool) :
  (forall d, P (pretty_N_char d) = true) ->
  forall x s, all_chars P s = true -> all_chars P (pretty_N_go x s) = true.
Proof.
  intros HP x. induction (N.lt_wf_0 x) as [x _ IH]. intros s Hs.
  destruct (decide (x = 0)%N) as [->|Hx].
  - by rewrite pretty_N_go_0.
  - rewrite pretty_N_go_step by lia. apply IH.
    + apply N.div_lt; lia.
    + simpl. by rewrite HP, Hs.
Qed.

Lemma pretty_N_chars (P : ascii -> bool) (x : N) :
  (forall d, P (pretty_N_char d) = true) -> all_chars P (pretty x) = true.
Proof.
  intros HP. unfold pretty, pretty_N. case_decide.
  - simpl. specialize (HP 0%N). simpl in HP. by rewrite HP.
  - by apply pretty_N_go_chars.
Qed.

Lemma pretty_N_nonempty (x : N) : pretty x <> "".
Proof.
  intros Heq. assert (String.length (pretty x) = 0%nat) as Hlen by (by rewrite Heq).
  unfold pretty, pretty_N in Hlen. case_decide; [done|].
  rewrite pretty_N_go_step in Hlen by lia.
  assert (forall y s, (String.length s <= String.length (pretty_N_go y s))%nat) as Hmono.
  { intros y. induction (N.lt_wf_0 y) as [y _ IH]. intros s.
    destruct (decide (y = 0)%N) as [->|Hy]; [by rewrite pretty_N_go_0|].
    rewrite pretty_N_go_step by lia.
    etrans; [|apply IH; apply N.div_lt; lia]. simpl. lia. }
  specialize (Hmono (x `div` 10)%N (String (pretty_N_char (x `mod` 10)) "")).
  simpl in Hmono. lia.
Qed.

Lemma str_of_int_chars (P : ascii -> bool) z :
  (forall d, P (pretty_N_char d) = true) -> P "-"%char = true ->
  all_chars P (Py.str_of_int z) = true.
Proof.
  intros HP Hdash. unfold Py.str_of_int, pretty, pretty_Z.
  destruct z as [|p|p].
  - specialize (HP 0%N). simpl in *. by rewrite HP.
  - by apply pretty_N_chars.
  - rewrite all_chars_app. simpl. rewrite Hdash. simpl.
    by apply pretty_N_chars.
Qed.

Lemma str_of_int_nonempty z : Py.str_of_int z <> "".
Proof.
  unfold Py.str_of_int, pretty, pretty_Z. destruct z as [|p|p]; [done| |done].
  apply pretty_N_nonempty.
Qed.

Lemma digits_not_space d : negb (Py.is_space (pretty_N_char d)) = true.
Proof. unfold pretty_N_char. by repeat case_match. Qed.

(** Every ID string the scripts build is a clean ledger line. *)
Lemma id_str_clean n k : clean_id (id_str n k).
Proof.
  unfold clean_id, id_str. split.
  - pose proof (str_of_int_nonempty n).
    destruct (Py.str_of_int n) eqn:E; [done|]. by rewrite app_cons.
  - rewrite !all_chars_app.
    rewrite !str_of_int_chars by (done || apply digits_not_space). done.
Qed.

(** [f"{n}_{k}"] determines [k]. *)
Lemma id_str_inj n k k' : id_str n k = id_str n k' -> k = k'.
Proof.
  unfold id_str, Py.str_of_int. intros H.
  apply (inj (String.append _)) in H. apply (inj (String.append _)) in H.
  by apply (inj pretty) in H.
Qed.

Lemma constituent_ids_NoDup n kmin kmax : NoDup (constituent_ids n kmin kmax).
Proof.
  unfold constituent_ids. apply NoDup_fmap_2_strong.
  - intros k k' _ _. apply id_str_inj.
  - by apply range_NoDup.
Qed.

Lemma elem_of_constituent_ids n kmin kmax id :
  id ∈ constituent_ids n kmin kmax <->
  exists k, id = id_str n k /\ kmin <= k < kmax /\ (k - kmin) mod K_STEP = 0.
Proof.
  unfold constituent_ids. rewrite list_elem_of_fmap.
  split; intros (k & -> & Hk); exists k; (split; [done|]);
    by apply (elem_of_range k kmin kmax K_STEP).
Qed.

Lemma constituent_ids_nonempty n kmin kmax :
  kmin < kmax -> constituent_ids n kmin kmax <> [].
Proof.
  intros Hlt. unfold constituent_ids. rewrite range_cons by done. done.
Qed.

End IdFacts.

(** ** The enumeration loops *)

Section Enumeration.

Lemma collect_missing_filter n (completed : gset string) ks acc :
  Reconciler.collect_missing n completed ks acc
  = acc ++ filter (fun id => id ∉ completed) (map (id_str n) ks).
Proof.
  revert acc. induction ks as [|k ks IH]; intros acc; simpl.
  - by rewrite app_nil_r.
  - rewrite IH. destruct (decide (id_str n k ∈ completed)) as [Hin|Hout].
    + by rewrite filter_cons_False by (intros ?; done).
    + rewrite filter_cons_True by done. by rewrite <- app_assoc.
Qed.

Lemma scan_range_clear n (started : gset string) ks acc :
  (forall k, k ∈ ks -> id_str n k ∉ started) ->
  Dispatcher.scan_range n started ks acc = (false, acc ++ map (id_str n) ks).
Proof.
  revert acc. induction ks as [|k ks IH]; intros acc Hks; simpl.
  - by rewrite app_nil_r.
  - rewrite decide_False by (apply Hks; left).
    rewrite IH by (intros k' Hk'; apply Hks; by right).
    by rewrite <- app_assoc.
Qed.

Lemma scan_range_hit n (started : gset string) ks acc :
  (exists k, k ∈ ks /\ id_str n k ∈ started) ->
  fst (Dispatcher.scan_range n started ks acc) = true.
Proof.
  revert acc. induction ks as [|k ks IH]; intros acc (k' & Hk' & Hin).
  - by apply elem_of_nil in Hk'.
  - simpl. destruct (decide (id_str n k ∈ started)); [done|].
    apply IH. apply elem_of_cons in Hk' as [->|Hk']; [done|]. eauto.
Qed.

Lemma check_range_completion_nonempty n kmin kmax (completed : gset string) :
  kmin < kmax ->
  let missing := filter (fun id => id ∉ completed) (constituent_ids n kmin kmax) in
  Reconciler.check_range_completion n kmin kmax completed
  = (match missing with [] => true | _ => false end, missing).
Proof.
  intros Hlt. unfold Reconciler.check_range_completion.
  destruct (Z.leb_spec kmax kmin); [lia|].
  by rewrite collect_missing_filter.
Qed.

Lemma filter_absent_nil (completed : gset string) ids :
  filter (fun id => id ∉ completed) ids = [] <-> forall id, id ∈ ids -> id ∈ completed.
Proof.
  induction ids as [|x ids IH].
  - split; [intros _ id Hid; by apply elem_of_nil in Hid|done].
  - destruct (decide (x ∈ completed)) as [Hin|Hout].
    + rewrite filter_cons_False by (intros ?; done). rewrite IH.
      split; intros H id Hid.
      * apply elem_of_cons in Hid as [->|Hid]; auto.
      * apply H. by right.
    + rewrite filter_cons_True by done. split; [done|].
      intros H. exfalso. apply Hout, H. left.
Qed.

Lemma filter_all_absent (completed : gset string) (ids : list string) :
  (forall id, id ∈ ids -> id ∉ completed) ->
  filter (fun id => id ∉ completed) ids = ids.
Proof.
  induction ids as [|x ids IH]; intros H; [done|].
  rewrite filter_cons_True by (apply H; left).
  rewrite IH; [done|]. intros id Hid. apply H. by right.
Qed.

(** A file reaches the batch only through a name that parses to a range
    classified Complete. *)
Lemma scan_only_complete completed candidates acc f :
  f ∈ Archiver.scan completed candidates acc ->
  f ∈ acc
  \/ exists n kmin kmax,
       Reconciler.parse_range_filename f = Some (n, kmin, kmax)
       /\ fst (Reconciler.check_range_completion n kmin kmax completed) = true.
Proof.
  revert acc. induction candidates as [|d rest IH]; intros acc Hf; [by left|].
  simpl in Hf.
  destruct (negb (Archiver.entry_is_file d)); [by apply IH|].
  destruct (Reconciler.parse_range_filename (Archiver.entry_name d))
    as [[[n kmin] kmax]|] eqn:Ep; [|by apply IH].
  destruct (Reconciler.check_range_completion n kmin kmax completed)
    as [[] missing] eqn:Ec; [|by apply IH].
  apply IH in Hf as [Hf|Hf]; [|by right].
  apply elem_of_app in Hf as [Hf|Hf]; [by left|].
  apply list_elem_of_singleton in Hf as ->. right. exists n, kmin, kmax.
  by rewrite Ec.
Qed.

End Enumeration.

(** C7.  For a range with [kmin < kmax] the enumeration
    [range(kmin, kmax, K_STEP)] yields [ceil((kmax - kmin) / K_STEP)] IDs
    (the count [c] with [(c - 1) * K_STEP < kmax - kmin <= c * K_STEP]); the
    IDs are exactly the strings [f"{n}_{k}"] with [k] in [[kmin, kmax)] and
    [k] congruent to [kmin] modulo the step; the Reconciler's expected count
    [(kmax - kmin + K_STEP - 1) // K_STEP] is that number; and both
    enumeration loops (the Reconciler's, seen on an empty Completed set, and
    the Dispatcher's, on a range none of whose IDs is started) produce this
    list. *)
Theorem enumeration_count n kmin kmax (started : gset string) :
  kmin < kmax ->
  let ids := constituent_ids n kmin kmax in
  let c := Z.of_nat (length ids) in
  ((c - 1) * K_STEP < kmax - kmin <= c * K_STEP)
  /\ c = Reconciler.num_ids_expected kmin kmax
  /\ (forall id, id ∈ ids <->
        exists k, id = id_str n k /\ kmin <= k < kmax /\ (k - kmin) mod K_STEP = 0)
  /\ NoDup ids
  /\ Reconciler.collect_missing n ∅ (Py.range kmin kmax K_STEP) [] = ids
  /\ ((forall id, id ∈ ids -> id ∉ started) ->
      Dispatcher.scan_range n started (Py.range kmin kmax K_STEP) [] = (false, ids)).
Proof.
  intros Hlt ids c.
  assert (c = Z.of_nat (Py.range_len kmin kmax K_STEP)) as Hc.
  { subst c ids. unfold constituent_ids. by rewrite length_map, range_length. }
  split; [|split; [|split; [|split; [|split]]]].
  - rewrite Hc. by apply (range_len_ceil kmin kmax K_STEP).
  - rewrite Hc. unfold Reconciler.num_ids_expected.
    by apply range_len_formula.
  - intros id. apply elem_of_constituent_ids.
  - apply constituent_ids_NoDup.
  - rewrite collect_missing_filter, app_nil_l.
    apply filter_all_absent. intros id _. set_solver.
  - intros Hclear. rewrite scan_range_clear; [done|].
    intros k Hk. apply Hclear. subst ids. unfold constituent_ids.
    apply list_elem_of_fmap. eauto.
Qed.

Lemma enumeration_count_witness :
  length (constituent_ids 16 1 8) = 4%nat
  /\ Z.of_nat (length (constituent_ids 16 1 8)) = Reconciler.num_ids_expected 1 8.
Proof.
  pose proof (enumeration_count 16 1 8 ∅ ltac:(lia)) as (_ & Hc & _).
  split; [reflexivity|exact Hc].
Defined.

Section FourIds.

Context (a b c d : string) (completed : gset string).

Lemma four_subset :
  {[a; b; c; d]} ⊆ completed <->
  a ∈ completed /\ b ∈ completed /\ c ∈ completed /\ d ∈ completed.
Proof. rewrite !union_subseteq, !singleton_subseteq_l. tauto. Qed.

Lemma four_listed :
  (forall id, id ∈ [a; b; c; d] -> id ∈ completed) <->
  a ∈ completed /\ b ∈ completed /\ c ∈ completed /\ d ∈ completed.
Proof.
  rewrite <- Forall_forall, !Forall_cons, Forall_nil. tauto.
Qed.

Lemma absent_after_removal x : x ∉ completed ∖ {[x]}.
Proof. intros [_ H]%elem_of_difference. apply H. by apply elem_of_singleton. Qed.

Lemma present_after_removal x y :
  y ∈ completed -> y <> x -> ~ (y ∉ completed ∖ {[x]}).
Proof.
  intros Hy Hne Hn. apply Hn. apply elem_of_difference. split; [done|].
  by rewrite elem_of_singleton.
Qed.

End FourIds.

(** C4.  [check_range_completion]: a range with [kmin >= kmax] is not
    complete and has an empty missing list, and a file whose name parses to
    it never enters the batch to archive; a range with [kmin < kmax] is
    complete exactly when every constituent ID is in the Completed set, and
    its missing list is the constituent IDs absent from the set, in
    increasing order of k.  The file name uni_1024_1_9.txt parses to
    (1024, 1, 9); it is complete exactly when 1024_1, 1024_3, 1024_5 and
    1024_7 are all completed, and taking any one of them out of such a set
    gives "not complete" with exactly that ID missing. *)
Theorem reconciler_classification n kmin kmax (completed : gset string) :
  (kmax <= kmin ->
     Reconciler.check_range_completion n kmin kmax completed = (false, [])
     /\ forall dir f,
          Reconciler.parse_range_filename f = Some (n, kmin, kmax) ->
          f ∉ Archiver.complete_files dir completed)
  /\ (kmin < kmax ->
      let r := Reconciler.check_range_completion n kmin kmax completed in
      snd r = filter (fun id => id ∉ completed) (constituent_ids n kmin kmax)
      /\ (fst r = true <-> forall id, id ∈ constituent_ids n kmin kmax -> id ∈ completed))
  /\ Reconciler.parse_range_filename "uni_1024_1_9.txt" = Some (1024, 1, 9)
  /\ constituent_ids 1024 1 9 = ["1024_1"; "1024_3"; "1024_5"; "1024_7"]
  /\ (fst (Reconciler.check_range_completion 1024 1 9 completed) = true <->
      {["1024_1"; "1024_3"; "1024_5"; "1024_7"]} ⊆ completed)
  /\ (forall x, x ∈ ["1024_1"; "1024_3"; "1024_5"; "1024_7"] ->
      {["1024_1"; "1024_3"; "1024_5"; "1024_7"]} ⊆ completed ->
      Reconciler.check_range_completion 1024 1 9 (completed ∖ {[x]}) = (false, [x])).
Proof.
  assert (constituent_ids 1024 1 9 = ["1024_1"; "1024_3"; "1024_5"; "1024_7"]) as Hids
    by (vm_compute; reflexivity).
  split; [|split; [|split; [|split; [|split]]]].
  - intros Hle.
    assert (Reconciler.check_range_completion n kmin kmax completed = (false, []))
      as Hcheck.
    { unfold Reconciler.check_range_completion.
      by destruct (Z.leb_spec kmax kmin); [|lia]. }
    split; [done|]. intros dir f Hparse Hin.
    apply scan_only_complete in Hin as [Hin|(n' & kmin' & kmax' & Hp & Hc)];
      [by apply elem_of_nil in Hin|].
    rewrite Hparse in Hp. injection Hp as <- <- <-. by rewrite Hcheck in Hc.
  - intros Hlt r. subst r. rewrite check_range_completion_nonempty by done.
    cbv zeta. split; [done|].
    rewrite <- filter_absent_nil. cbn [fst]. by case_match.
  - vm_compute. reflexivity.
  - exact Hids.
  - rewrite check_range_completion_nonempty by lia. cbv zeta. cbn [fst].
    rewrite four_subset, <- four_listed, <- Hids, <- filter_absent_nil.
    by case_match.
  - intros x Hx Hsub. rewrite check_range_completion_nonempty by lia. cbv zeta.
    rewrite Hids. apply four_subset in Hsub as (H1 & H3 & H5 & H7).
    assert (filter (fun id => id ∉ completed ∖ {[x]})
              ["1024_1"; "1024_3"; "1024_5"; "1024_7"] = [x]) as ->; [|done].
    repeat (apply elem_of_cons in Hx as [->|Hx]);
      [..|by apply elem_of_nil in Hx];
      repeat (first
        [ rewrite filter_cons_True by apply absent_after_removal
        | rewrite filter_cons_False by (by apply present_after_removal) ]);
      by rewrite filter_nil.
Qed.

(** ** Partitioning the k axis *)

Section Partition.

Lemma elem_of_clipped_ranges r start stop size :
  0 < size ->
  r ∈ clipped_ranges start stop size <->
  start <= fst r < stop /\ (fst r - start) mod size = 0
  /\ snd r = Z.min (fst r + size) stop.
Proof.
  intros Hs. unfold clipped_ranges. rewrite list_elem_of_fmap. split.
  - intros (kmin & -> & Hk). apply elem_of_range in Hk; [|done]. simpl. tauto.
  - intros (Hb & Hm & Hsnd). exists (fst r). split.
    + destruct r as [a b]. simpl in *. by subst b.
    + by apply elem_of_range.
Qed.

Lemma clipped_ranges_cons start stop size :
  0 < size -> start < stop ->
  clipped_ranges start stop size
  = (start, Z.min (start + size) stop) :: clipped_ranges (start + size) stop size.
Proof. intros. unfold clipped_ranges. by rewrite range_cons. Qed.

Lemma clipped_ranges_ordered stop size :
  0 < size -> forall start, ordered_disjoint (clipped_ranges start stop size).
Proof.
  intros Hs start.
  remember (Py.range_len start stop size) as len eqn:Hlen.
  revert start Hlen. induction len as [|len IH]; intros start Hlen.
  - unfold clipped_ranges, Py.range. by rewrite <- Hlen.
  - destruct (Z.lt_ge_cases start stop) as [Hlt|Hge];
      [|by rewrite range_len_empty in Hlen].
    rewrite clipped_ranges_cons by done. simpl. split.
    + apply Forall_forall. intros r Hr.
      apply elem_of_clipped_ranges in Hr; [|done]. simpl. lia.
    + apply IH. pose proof (range_length start stop size) as HL.
      rewrite range_cons in HL by done. simpl in HL.
      rewrite range_length in HL. lia.
Qed.

Lemma clipped_ranges_cover start stop size k :
  0 < size ->
  (exists r, r ∈ clipped_ranges start stop size /\ in_range r k) <-> start <= k < stop.
Proof.
  intros Hs. unfold in_range. split.
  - intros (r & Hr & Hk). apply elem_of_clipped_ranges in Hr; [|done]. lia.
  - intros Hk.
    pose proof (Z.div_mod (k - start) size ltac:(lia)) as Hdm.
    pose proof (Z.mod_pos_bound (k - start) size Hs) as Hb.
    assert (0 <= (k - start) / size) by (apply Z.div_pos; lia).
    set (q := (k - start) / size) in *.
    exists (start + q * size, Z.min (start + q * size + size) stop). split.
    + apply elem_of_clipped_ranges; [done|]. simpl.
      split; [nia|]. split; [|done].
      replace (start + q * size - start) with (q * size) by lia.
      apply Z.mod_mul. lia.
    + simpl. nia.
Qed.

Lemma clipped_ranges_unique start stop size k r r' :
  0 < size ->
  r ∈ clipped_ranges start stop size -> r' ∈ clipped_ranges start stop size ->
  in_range r k -> in_range r' k -> r = r'.
Proof.
  intros Hs Hr Hr' Hk Hk'. unfold in_range in *.
  apply elem_of_clipped_ranges in Hr as (Hb & Hm & Hsnd); [|done].
  apply elem_of_clipped_ranges in Hr' as (Hb' & Hm' & Hsnd'); [|done].
  apply Z.mod_divide in Hm as [q Hq]; [|lia].
  apply Z.mod_divide in Hm' as [q' Hq']; [|lia].
  assert (q = q') by nia. subst q'.
  destruct r as [a b], r' as [a' b']. simpl in *.
  assert (a = a') by lia. subst a'. by subst b b'.
Qed.

Lemma clipped_ranges_covers_once start stop size :
  0 < size -> covers_once (clipped_ranges start stop size) start stop.
Proof.
  intros Hs. split; [|split].
  - by apply clipped_ranges_ordered.
  - intros k. by apply clipped_ranges_cover.
  - intros k r r'. by apply clipped_ranges_unique.
Qed.

Lemma clipped_ranges_width start stop size :
  0 < size ->
  Forall (fun r => 0 < snd r - fst r <= size) (clipped_ranges start stop size).
Proof.
  intros Hs. apply Forall_forall. intros r Hr.
  apply elem_of_clipped_ranges in Hr; [|done]. lia.
Qed.

Lemma partition_clipped cfg :
  Dispatcher.partition cfg
  = clipped_ranges 1 (Dispatcher.MAX_K cfg) (Dispatcher.job_k_range_size cfg).
Proof. reflexivity. Qed.

(** task_gen.py walks the same kind of chain, but clipped at [n // 2 + 1]. *)
Lemma batches_clipped n k_per_batch k_step :
  0 < k_per_batch -> 0 < k_step ->
  TaskGen.batches n k_per_batch k_step
  = clipped_ranges 1 (n / 2 + 1) (k_per_batch * k_step).
Proof.
  intros Hw Hs. unfold TaskGen.batches, clipped_ranges. cbv zeta.
  set (max_k := n / 2).
  set (num_batches := ((max_k - 1) / k_step + 1 + k_per_batch - 1) / k_per_batch).
  assert (Py.range_len 0 num_batches 1
          = Py.range_len 1 (max_k + 1) (k_per_batch * k_step)) as Hlen.
  { assert (num_batches = (max_k - 1) / (k_step * k_per_batch) + 1) as Hnb.
    { subst num_batches.
      replace ((max_k - 1) / k_step + 1 + k_per_batch - 1)
        with ((max_k - 1) / k_step + 1 * k_per_batch) by lia.
      rewrite Z.div_add by lia. rewrite Z.div_div by lia. reflexivity. }
    destruct (Z.lt_ge_cases 0 max_k) as [Hpos|Hneg].
    - apply Nat2Z.inj. rewrite !range_len_pos; try nia.
      + rewrite Hnb. rewrite Z.div_1_r.
        replace (max_k + 1 - 1 - 1) with (max_k - 1) by lia.
        replace (k_per_batch * k_step) with (k_step * k_per_batch) by lia. lia.
      + rewrite Hnb.
        assert (0 <= (max_k - 1) / (k_step * k_per_batch))
          by (apply Z.div_pos; nia). lia.
    - rewrite !range_len_empty; try nia.
      rewrite Hnb.
      assert ((max_k - 1) / (k_step * k_per_batch) < 0); [|lia].
      apply Z.div_lt_upper_bound; nia. }
  unfold Py.range. rewrite Hlen, !map_map. apply map_ext. intros i.
  f_equal; [lia|]. f_equal; lia.
Qed.

End Partition.

(** C6, as the code has it.  For every total size [n] and positive batch
    width [w], the ranges the Dispatcher's main loop walks through cover the
    k-interval [[1, n/2)] exactly once: they are in strictly increasing,
    non-overlapping order, a value of k lies in one of them exactly when
    [1 <= k < n/2], never in two, and every range (so also the final,
    clipped one) is non-empty and at most [w * K_STEP] wide.  With the
    script's own constants, [MAX_K] is [N / 2] for every exponent [M >= 1].
    The ranges task_gen.py generates are clipped at [n/2 + 1] instead: with
    any positive step they cover [[1, n/2 + 1)] exactly once, with the same
    bound on the width. *)
Theorem partition_covers n w j :
  0 < w ->
  let cfg := Dispatcher.Config n (n / 2) w j in
  covers_once (Dispatcher.partition cfg) 1 (n / 2)
  /\ Forall (fun r => 0 < snd r - fst r <= w * K_STEP) (Dispatcher.partition cfg)
  /\ (forall M, 1 <= M ->
        Dispatcher.MAX_K (Dispatcher.config_of_M M w j)
        = Dispatcher.N (Dispatcher.config_of_M M w j) / 2)
  /\ (forall k_step, 0 < k_step ->
        covers_once (TaskGen.batches n w k_step) 1 (n / 2 + 1)
        /\ Forall (fun r => 0 < snd r - fst r <= w * k_step)
             (TaskGen.batches n w k_step)).
Proof.
  intros Hw cfg.
  assert (0 < Dispatcher.job_k_range_size cfg) as Hsize
    by (unfold Dispatcher.job_k_range_size, K_STEP; simpl; lia).
  split; [|split; [|split]].
  - rewrite partition_clipped. by apply clipped_ranges_covers_once.
  - rewrite partition_clipped. by apply clipped_ranges_width.
  - intros M HM. simpl.
    replace M with (Z.succ (M - 1)) at 2 by lia.
    rewrite Z.pow_succ_r by lia.
    rewrite Z.mul_comm, Z.div_mul by lia. reflexivity.
  - intros k_step Hs. rewrite batches_clipped by done. split.
    + apply clipped_ranges_covers_once. nia.
    + apply clipped_ranges_width. nia.
Qed.

Lemma partition_covers_witness :
  covers_once (Dispatcher.partition (Dispatcher.Config 16 (16 / 2) 2 1)) 1 (16 / 2)
  /\ Dispatcher.partition (Dispatcher.Config 16 (16 / 2) 2 1) = [(1, 5); (5, 8)].
Proof.
  split; [|reflexivity].
  apply (partition_covers 16 2 1). lia.
Defined.

(** C6 as stated fails for task_gen.py: for [n = 2] its single range is
    [[1, 2)], whose ID 2_1 has [k = 1 = n/2], outside the empty interval
    [[1, n/2)]; for [n = 4] its single range is [[1, 3)], which contains
    [k = 2 = n/2]. *)
Lemma task_gen_range_reaches_half :
  TaskGen.batches 2 1024 2 = [(1, 2)]
  /\ constituent_ids 2 1 2 = ["2_1"]
  /\ ~ covers_once (TaskGen.batches 2 1024 2) 1 (2 / 2)
  /\ TaskGen.batches 4 1024 2 = [(1, 3)]
  /\ ~ covers_once (TaskGen.batches 4 1024 2) 1 (4 / 2).
Proof.
  split; [reflexivity|]. split; [by vm_compute|]. split; [|split; [reflexivity|]].
  - intros (_ & Hcover & _).
    assert (1 <= 1 < 2 / 2) as Hk; [|change (2 / 2) with 1 in Hk; lia].
    apply Hcover. exists (1, 2). split; [left|unfold in_range; simpl; lia].
  - intros (_ & Hcover & _).
    assert (1 <= 2 < 4 / 2) as Hk; [|change (4 / 2) with 2 in Hk; lia].
    apply Hcover. exists (1, 3). split; [left|unfold in_range; simpl; lia].
Qed.

(** ** Reading a ledger back *)

Section LedgerText.

Lemma not_space_not_lf c : not_space c = true -> Ascii.eqb c Py.LF = false.
Proof.
  destruct (Ascii.eqb_spec c Py.LF) as [->|]; [|done]. by vm_compute.
Qed.

Lemma not_space_not_cr c : not_space c = true -> Ascii.eqb c Py.CR = false.
Proof.
  destruct (Ascii.eqb_spec c Py.CR) as [->|]; [|done]. by vm_compute.
Qed.

Lemma all_chars_impl (P Q : ascii -> bool) s :
  (forall c, P c = true -> Q c = true) ->
  all_chars P s = true -> all_chars Q s = true.
Proof.
  intros HPQ. induction s as [|c s IH]; [done|]. simpl.
  intros [Hc Hs]%andb_true_iff. by rewrite HPQ, IH.
Qed.

Lemma universal_newlines_no_cr b s :
  all_chars not_cr (Py.universal_newlines b s) = true.
Proof.
  revert b. induction s as [|c s IH]; intros b; [done|]. simpl.
  destruct (Ascii.eqb_spec c Py.CR) as [->|Hcr]; [simpl; apply IH|].
  destruct (Ascii.eqb_spec c Py.LF) as [->|Hlf].
  - destruct b; simpl; apply IH.
  - simpl. rewrite IH. unfold not_cr.
    by destruct (Ascii.eqb_spec c Py.CR).
Qed.

Lemma universal_newlines_id s :
  all_chars not_cr s = true -> Py.universal_newlines false s = s.
Proof.
  induction s as [|c s IH]; [done|]. simpl.
  intros [Hc Hs]%andb_true_iff. unfold not_cr in Hc.
  destruct (Ascii.eqb_spec c Py.CR) as [->|Hcr]; [done|].
  destruct (Ascii.eqb_spec c Py.LF) as [->|Hlf]; rewrite IH by done; done.
Qed.

Lemma universal_newlines_pending t :
  (forall r, t <> String Py.LF r) ->
  Py.universal_newlines true t = Py.universal_newlines false t.
Proof.
  destruct t as [|c r]; [done|]. intros H. simpl.
  destruct (Ascii.eqb_spec c Py.CR); [done|].
  destruct (Ascii.eqb_spec c Py.LF) as [->|]; [|done].
  by destruct (H r).
Qed.

Lemma universal_newlines_app b s t :
  (forall r, t <> String Py.LF r) ->
  Py.universal_newlines b (s +:+ t)
  = Py.universal_newlines b s +:+ Py.universal_newlines false t.
Proof.
  intros Ht. revert b. induction s as [|c s IH]; intros b.
  - rewrite app_empty_l. simpl. destruct b; [|done].
    by apply universal_newlines_pending.
  - rewrite app_cons. simpl.
    destruct (Ascii.eqb_spec c Py.CR); [by rewrite IH|].
    destruct (Ascii.eqb_spec c Py.LF); [destruct b|]; by rewrite IH.
Qed.

Lemma universal_newlines_ends_line b p s :
  (b = true -> p = true) ->
  ends_line p s = true -> ends_line p (Py.universal_newlines b s) = true.
Proof.
  revert b p. induction s as [|c s IH]; intros b p Hbp; [done|]. simpl.
  destruct (Ascii.eqb_spec c Py.CR) as [->|Hcr].
  - simpl. intros H. by apply IH.
  - destruct (Ascii.eqb_spec c Py.LF) as [->|Hlf]; simpl.
    + intros H. destruct b.
      * rewrite Hbp by done. by apply IH.
      * simpl. by apply IH.
    + destruct (Ascii.eqb_spec c Py.LF); [done|].
      destruct (Ascii.eqb_spec c Py.CR); [done|]. simpl.
      intros H. by apply IH.
Qed.

Lemma split_lines_nil s : Py.split_lines s = [] -> s = "".
Proof.
  destruct s as [|c s]; [done|]. simpl.
  destruct (Ascii.eqb c Py.LF); [done|]. by destruct (Py.split_lines s).
Qed.

Lemma split_lines_app p s t :
  all_chars not_cr s = true -> ends_line p s = true ->
  Py.split_lines (s +:+ t) = Py.split_lines s ++ Py.split_lines t.
Proof.
  revert p. induction s as [|c s IH]; intros p; [done|].
  rewrite app_cons. simpl. intros [Hc Hs]%andb_true_iff.
  unfold not_cr in Hc. destruct (Ascii.eqb_spec c Py.CR) as [|Hcr]; [done|].
  destruct (Ascii.eqb_spec c Py.LF) as [->|Hlf]; simpl; intros Hend.
  - by rewrite (IH true).
  - rewrite (IH false) by done.
    destruct (Py.split_lines s) as [|l ls] eqn:El; [|done].
    apply split_lines_nil in El. by subst s.
Qed.

Lemma split_lines_one_line id t :
  all_chars not_space id = true ->
  Py.split_lines (id +:+ Py.newline +:+ t)
  = (id +:+ Py.newline) :: Py.split_lines t.
Proof.
  induction id as [|c id IH]; [done|].
  rewrite !app_cons. simpl. intros [Hc Hid]%andb_true_iff.
  rewrite (not_space_not_lf c Hc). by rewrite IH.
Qed.

Lemma split_lines_of_ids ids :
  Forall clean_id ids ->
  Py.split_lines (Ledger.lines_of_ids ids) = map (fun id => id +:+ Py.newline) ids.
Proof.
  induction 1 as [|id ids' [_ Hid] _ IH]; [done|]. simpl.
  rewrite split_lines_one_line by done. by rewrite IH.
Qed.

Lemma lines_of_ids_no_cr ids :
  Forall clean_id ids -> all_chars not_cr (Ledger.lines_of_ids ids) = true.
Proof.
  induction 1 as [|id ids' [_ Hid] _ IH]; [done|]. simpl.
  rewrite !all_chars_app, IH.
  rewrite (all_chars_impl not_space not_cr id); [done| |done].
  intros c Hc. unfold not_cr. by rewrite not_space_not_cr.
Qed.

Lemma lines_of_ids_start ids :
  Forall clean_id ids -> forall r, Ledger.lines_of_ids ids <> String Py.LF r.
Proof.
  intros [|id ids' [Hne Hid] _] r; [done|]. simpl.
  destruct id as [|c id]; [done|]. rewrite app_cons. intros [= ->].
  simpl in Hid. done.
Qed.

Lemma ends_line_app p s t :
  ends_line p (s +:+ t) = ends_line (ends_line p s) t.
Proof.
  revert p. induction s as [|c s IH]; intros p; [done|].
  rewrite app_cons. simpl. apply IH.
Qed.

Lemma lines_of_ids_ends_line p ids :
  Forall clean_id ids -> ids <> [] -> ends_line p (Ledger.lines_of_ids ids) = true.
Proof.
  intros Hids. revert p. induction Hids as [|id ids' _ _ IH]; intros p Hne; [done|].
  simpl. clear Hne. rewrite !ends_line_app. simpl.
  destruct ids' as [|id' ids'']; [done|]. by apply IH.
Qed.

Lemma rstrip_line id :
  all_chars not_space id = true -> Py.rstrip (id +:+ Py.newline) = id.
Proof.
  induction id as [|c id IH]; [done|].
  rewrite app_cons. simpl. intros [Hc Hid]%andb_true_iff.
  rewrite IH by done. unfold not_space in Hc.
  destruct id; [|done]. by destruct (Py.is_space c).
Qed.

Lemma strip_line id : clean_id id -> Py.strip (id +:+ Py.newline) = id.
Proof.
  intros [Hne Hid]. unfold Py.strip.
  destruct id as [|c id]; [done|].
  rewrite app_cons. simpl in *. apply andb_true_iff in Hid as [Hc Hid].
  unfold not_space in Hc. destruct (Py.is_space c) eqn:E; [done|].
  rewrite <- app_cons. apply rstrip_line. simpl.
  unfold not_space at 1. by rewrite E, Hid.
Qed.

(** Appending whole lines to a text whose last line is terminated adds
    exactly the appended IDs to the set that is read back. *)
Lemma id_set_of_text_append content ids :
  line_terminated content -> Forall clean_id ids ->
  Ledger.id_set_of_text (content +:+ Ledger.lines_of_ids ids)
  = Ledger.id_set_of_text content ∪ list_to_set ids.
Proof.
  intros Hterm Hids. unfold Ledger.id_set_of_text, Py.file_lines.
  rewrite universal_newlines_app by (by apply lines_of_ids_start).
  rewrite (universal_newlines_id (Ledger.lines_of_ids ids))
    by (by apply lines_of_ids_no_cr).
  rewrite (split_lines_app true);
    [|apply universal_newlines_no_cr|by apply universal_newlines_ends_line].
  rewrite split_lines_of_ids by done.
  rewrite List.filter_app, map_app, list_to_set_app_L. f_equal.
  clear Hterm. induction Hids as [|id ids' Hid _ IH]; [done|]. simpl.
  rewrite strip_line by done.
  destruct Hid as [Hne ?]. destruct (String.eqb_spec id ""); [done|].
  simpl. rewrite strip_line by done. by rewrite IH.
Qed.

Lemma line_terminated_append content ids :
  line_terminated content -> Forall clean_id ids ->
  line_terminated (content +:+ Ledger.lines_of_ids ids).
Proof.
  intros Hterm Hids. unfold line_terminated. rewrite ends_line_app.
  destruct ids as [|id ids]; [by rewrite Hterm|].
  by apply lines_of_ids_ends_line.
Qed.

End LedgerText.

(** C8, as the code has it.  When the ledger text is empty or its last line
    is terminated, the IDs are clean ledger lines (as every [f"{n}_{k}"] is)
    and the append ends without an I/O error, loading the file afterwards
    returns the old set together with the appended IDs, so it contains every
    appended ID; and the file is again terminated. *)
Theorem ledger_round_trip content ids :
  line_terminated content -> Forall clean_id ids ->
  let text := fst (Ledger.append_ids_to_file content ids Ledger.WriteOk) in
  Ledger.load_tracked_ids (Ledger.Content text)
  = Ledger.Ret (Ledger.id_set_of_text content ∪ list_to_set ids)
  /\ (forall id, id ∈ ids -> id ∈ Ledger.id_set_of_text text)
  /\ line_terminated text.
Proof.
  intros Hterm Hids text. subst text. simpl.
  rewrite id_set_of_text_append by done.
  split; [done|]. split.
  - intros id Hid. apply elem_of_union_r. by apply elem_of_list_to_set.
  - by apply line_terminated_append.
Qed.

Lemma ledger_round_trip_witness :
  Ledger.load_tracked_ids
    (Ledger.Content
       (fst (Ledger.append_ids_to_file ("16_1" +:+ Py.newline)
               (constituent_ids 16 5 8) Ledger.WriteOk)))
  = Ledger.Ret (Ledger.id_set_of_text ("16_1" +:+ Py.newline)
                ∪ list_to_set (constituent_ids 16 5 8)).
Proof.
  apply (ledger_round_trip ("16_1" +:+ Py.newline) (constituent_ids 16 5 8)).
  - reflexivity.
  - apply Forall_forall. intros id (k & -> & _)%elem_of_constituent_ids.
    apply id_str_clean.
Defined.

(** C8 as stated fails when the last line of the file is not terminated:
    the first appended ID is glued to it.  It also fails when the append
    itself raises an I/O error, which [append_ids_to_file] swallows. *)
Lemma round_trip_loses_id :
  fst (Ledger.append_ids_to_file "16_1" ["16_3"] Ledger.WriteOk)
  = "16_116_3" +:+ Py.newline
  /\ ("16_3" ∉ Ledger.id_set_of_text
                (fst (Ledger.append_ids_to_file "16_1" ["16_3"] Ledger.WriteOk)))
  /\ ("16_3" ∉ Ledger.id_set_of_text
                (fst (Ledger.append_ids_to_file "" ["16_3"] (Ledger.WriteIOError 0)))).
Proof.
  split; [reflexivity|].
  split; apply (bool_decide_unpack _); by vm_compute.
Qed.

(** ** One pass of the Dispatcher's loop body *)

Section LoopBody.

Import Ledger Dispatcher.

Context (cfg : config) (e : env).

Lemma scan_range_false n (started : gset string) ks acc l :
  scan_range n started ks acc = (false, l) ->
  l = acc ++ map (id_str n) ks /\ forall k, k ∈ ks -> id_str n k ∉ started.
Proof.
  revert acc. induction ks as [|k ks IH]; intros acc; simpl.
  - intros [= <-]. split; [by rewrite app_nil_r|]. intros k Hk.
    by apply elem_of_nil in Hk.
  - destruct (decide (id_str n k ∈ started)) as [|Hout]; [done|].
    intros [-> Hks]%IH. split; [by rewrite <- app_assoc|].
    intros k' [->|Hk']%elem_of_cons; auto.
Qed.

Lemma loop_body_skip kmin st :
  (exists id, id ∈ constituent_ids (N cfg) kmin (kmax_of cfg kmin)
              /\ id ∈ started_ids_set st) ->
  loop_body cfg e kmin st = (count_skipped st, Continue).
Proof.
  intros (id & Hid & Hin). unfold loop_body. fold (kmax_of cfg kmin).
  destruct (scan_range _ _ _ _) as [skip l] eqn:E.
  assert (skip = true) as ->; [|done].
  change skip with (fst (skip, l)). rewrite <- E. apply scan_range_hit.
  unfold constituent_ids in Hid. apply list_elem_of_fmap in Hid as (k & -> & Hk).
  eauto.
Qed.

Lemma loop_body_clear kmin st :
  kmin < kmax_of cfg kmin ->
  (forall id, id ∈ constituent_ids (N cfg) kmin (kmax_of cfg kmin) ->
              id ∉ started_ids_set st) ->
  loop_body cfg e kmin st
  = claim_and_submit cfg e kmin (kmax_of cfg kmin)
      (constituent_ids (N cfg) kmin (kmax_of cfg kmin)) st.
Proof.
  intros Hlt Hclear. unfold loop_body. fold (kmax_of cfg kmin).
  rewrite scan_range_clear, app_nil_l.
  - fold (constituent_ids (N cfg) kmin (kmax_of cfg kmin)).
    pose proof (constituent_ids_nonempty (N cfg) kmin _ Hlt).
    by destruct (constituent_ids (N cfg) kmin (kmax_of cfg kmin)).
  - intros k Hk. apply Hclear. unfold constituent_ids.
    apply list_elem_of_fmap. eauto.
Qed.

(** Either the range is counted as skipped and nothing else happens, or
    none of its IDs is started and it is claimed and submitted. *)
Lemma loop_body_cases kmin st :
  let ids := constituent_ids (N cfg) kmin (kmax_of cfg kmin) in
  loop_body cfg e kmin st = (count_skipped st, Continue)
  \/ (ids <> [] /\ (forall id, id ∈ ids -> id ∉ started_ids_set st)
      /\ loop_body cfg e kmin st
         = claim_and_submit cfg e kmin (kmax_of cfg kmin) ids st).
Proof.
  intros ids. unfold loop_body. fold (kmax_of cfg kmin).
  destruct (scan_range _ _ _ _) as [skip l] eqn:E.
  destruct skip; [by left|].
  apply scan_range_false in E as [-> Hclear]. rewrite app_nil_l.
  fold (constituent_ids (N cfg) kmin (kmax_of cfg kmin)). fold ids.
  destruct ids as [|id ids'] eqn:Eids; [by left|]. right.
  split; [done|]. split; [|done].
  intros id' Hid'. rewrite <- Eids in Hid'. subst ids.
  apply list_elem_of_fmap in Hid' as (k & -> & Hk). by apply Hclear.
Qed.

Lemma scan_range_true n (started : gset string) ks acc l :
  scan_range n started ks acc = (true, l) ->
  exists k, k ∈ ks /\ id_str n k ∈ started.
Proof.
  revert acc. induction ks as [|k ks IH]; intros acc; simpl; [done|].
  destruct (decide (id_str n k ∈ started)) as [Hin|Hout].
  - intros _. exists k. split; [left|done].
  - intros (k' & Hk' & Hin)%IH. exists k'. split; [by right|done].
Qed.

(** A non-empty range that is not claimed has an ID in the Started set. *)
Lemma loop_body_skipped_has_started kmin st :
  kmin < kmax_of cfg kmin ->
  loop_body cfg e kmin st = (count_skipped st, Continue) ->
  exists id, id ∈ constituent_ids (N cfg) kmin (kmax_of cfg kmin)
             /\ id ∈ started_ids_set st.
Proof.
  intros Hlt. unfold loop_body. fold (kmax_of cfg kmin).
  destruct (scan_range _ _ _ _) as [skip l] eqn:E. destruct skip.
  - intros _. apply scan_range_true in E as (k & Hk & Hin).
    exists (id_str (N cfg) k). split; [|done].
    unfold constituent_ids. apply list_elem_of_fmap. eauto.
  - apply scan_range_false in E as [-> _]. rewrite app_nil_l.
    fold (constituent_ids (N cfg) kmin (kmax_of cfg kmin)).
    pose proof (constituent_ids_nonempty (N cfg) kmin _ Hlt) as Hne.
    destruct (constituent_ids (N cfg) kmin (kmax_of cfg kmin)) as [|id ids] eqn:Eids;
      [done|].
    unfold claim_and_submit, mark_started, submit.
    intros Heq. exfalso.
    apply (f_equal (fun r => length (trace (fst r)))) in Heq.
    destruct (append_result e kmin); destruct (config_write_ok e kmin);
      try destruct (qsub e kmin); simpl in Heq;
      rewrite !length_app in Heq; simpl in Heq; lia.
Qed.

(** Every range the main loop takes from [range(1, MAX_K, size)] is
    non-empty. *)
Lemma visited_range_nonempty kmin :
  0 < NUM_K_PER_JOB cfg ->
  kmin ∈ Py.range 1 (MAX_K cfg) (job_k_range_size cfg) ->
  kmin < kmax_of cfg kmin.
Proof.
  intros Hw Hk. unfold kmax_of.
  assert (0 < job_k_range_size cfg) by (unfold job_k_range_size, K_STEP; lia).
  apply elem_of_range in Hk; [|done]. lia.
Qed.

(** What claiming and submitting a range does, whatever the outside
    answers. *)
Lemma claim_and_submit_spec kmin kmax ids st :
  exists tail,
    let r := claim_and_submit cfg e kmin kmax ids st in
    trace (fst r) = trace st ++ LedgerAppend ids (append_result e kmin) :: tail
    /\ forallb (fun ev => negb (is_append ev)) tail = true
    /\ started_file (fst r)
       = fst (append_ids_to_file (started_file st) ids (append_result e kmin))
    /\ started_ids_set (fst r) = started_ids_set st ∪ list_to_set ids
    /\ skipped_ranges_count (fst r) = skipped_ranges_count st
    /\ (forall k kx i res, Qsub k kx i res ∈ tail ->
          k = kmin /\ kx = kmax /\ i = ids /\ res = qsub e kmin
          /\ config_write_ok e kmin = true)
    /\ (config_write_ok e kmin = true ->
          Qsub kmin kmax ids (qsub e kmin) ∈ tail)
    /\ (exists ok, ConfigWrite kmin kmax ok ∈ tail).
Proof.
  unfold claim_and_submit, mark_started, submit.
  destruct (append_result e kmin) as [|written] eqn:Ea;
    destruct (config_write_ok e kmin) eqn:Ec;
    try destruct (qsub e kmin) as [job| |code|] eqn:Eq;
    simpl; rewrite <- ?app_assoc; simpl;
    (eexists; split; [reflexivity|]);
    (split; [reflexivity|]); (split; [reflexivity|]);
    (split; [reflexivity|]); (split; [reflexivity|]);
    (split; [|split; [|eexists; rewrite !elem_of_cons; eauto]]);
    try done;
    try (intros _; rewrite !elem_of_cons; eauto);
    intros k kx i res Hin;
    repeat (apply elem_of_cons in Hin as [Hin|Hin]; [by simplify_eq|]);
    by apply elem_of_nil in Hin.
Qed.

Lemma claim_and_submit_control kmin kmax ids st :
  let r := claim_and_submit cfg e kmin kmax ids st in
  submitted_count st <= submitted_count (fst r) <= submitted_count st + 1
  /\ (snd r = Break -> qsub e kmin = QsubNotFound).
Proof.
  unfold claim_and_submit, mark_started, submit.
  destruct (append_result e kmin); destruct (config_write_ok e kmin);
    try destruct (qsub e kmin); simpl; split; (lia || done).
Qed.

(** The ranges of the main loop start at odd values of k, so their
    constituent IDs are those of the odd k they contain. *)
Lemma visited_range_odd_ids kmin id :
  kmin ∈ Py.range 1 (MAX_K cfg) (job_k_range_size cfg) ->
  0 < NUM_K_PER_JOB cfg ->
  id ∈ constituent_ids (N cfg) kmin (kmax_of cfg kmin) <->
  exists k, id = id_str (N cfg) k /\ kmin <= k < kmax_of cfg kmin /\ Z.odd k = true.
Proof.
  intros Hk Hw.
  assert (0 < job_k_range_size cfg) as Hs by (unfold job_k_range_size, K_STEP; lia).
  apply elem_of_range in Hk as [_ Hmod]; [|done].
  apply Z.mod_divide in Hmod as [q Hq]; [|lia].
  unfold job_k_range_size, K_STEP in Hq.
  rewrite elem_of_constituent_ids. unfold K_STEP.
  split; intros (k & -> & Hb & Hp); exists k; (split; [done|]); (split; [done|]).
  - rewrite (Zmod_odd (k - kmin)) in Hp.
    replace k with ((k - kmin) + 1 + 2 * (q * NUM_K_PER_JOB cfg)) by lia.
    rewrite Z.odd_add_mul_2, Z.odd_add. simpl.
    by destruct (Z.odd (k - kmin)).
  - rewrite (Zmod_odd (k - kmin)).
    replace k with ((k - kmin) + 1 + 2 * (q * NUM_K_PER_JOB cfg)) in Hp by lia.
    rewrite Z.odd_add_mul_2, Z.odd_add in Hp. simpl in Hp.
    by destruct (Z.odd (k - kmin)).
Qed.

End LoopBody.

(** C2.  For a range the main loop takes from [range(1, MAX_K, size)] and
    processes (the loop body below the MAX_JOBS test), the constituent IDs
    are the strings [f"{N}_{k}"] for the odd k in [[kmin, kmax_actual)].  If
    any constituent ID is in the in-memory Started set, the range is counted as skipped and
    nothing else changes (no ledger append, no config file, no submission,
    the loop continues); otherwise the whole range is claimed: the first
    thing that happens is the append of all its constituent IDs to the
    Started ledger, the in-memory set receives all of them, the config
    write is attempted and, when it succeeds, the qsub submission carries
    the full ID list. *)
Theorem planner_skips_or_claims cfg e kmin st :
  0 < Dispatcher.NUM_K_PER_JOB cfg ->
  kmin ∈ Py.range 1 (Dispatcher.MAX_K cfg) (Dispatcher.job_k_range_size cfg) ->
  let kmax_actual :=
    Z.min (kmin + Dispatcher.job_k_range_size cfg) (Dispatcher.MAX_K cfg) in
  let ids := constituent_ids (Dispatcher.N cfg) kmin kmax_actual in
  (forall id, id ∈ ids <->
     exists k, id = id_str (Dispatcher.N cfg) k
               /\ kmin <= k < kmax_actual /\ Z.odd k = true)
  /\ ((exists id, id ∈ ids /\ id ∈ Dispatcher.started_ids_set st) ->
     exists st',
       Dispatcher.loop_body cfg e kmin st = (st', Dispatcher.Continue)
       /\ Dispatcher.skipped_ranges_count st' = Dispatcher.skipped_ranges_count st + 1
       /\ Dispatcher.started_file st' = Dispatcher.started_file st
       /\ Dispatcher.started_ids_set st' = Dispatcher.started_ids_set st
       /\ Dispatcher.trace st' = Dispatcher.trace st
       /\ Dispatcher.submitted_count st' = Dispatcher.submitted_count st
       /\ Dispatcher.error_count st' = Dispatcher.error_count st)
  /\ ((forall id, id ∈ ids -> id ∉ Dispatcher.started_ids_set st) ->
     exists st' c tail,
       Dispatcher.loop_body cfg e kmin st = (st', c)
       /\ Dispatcher.trace st'
          = Dispatcher.trace st
            ++ Dispatcher.LedgerAppend ids (Dispatcher.append_result e kmin) :: tail
       /\ Dispatcher.started_ids_set st'
          = Dispatcher.started_ids_set st ∪ list_to_set ids
       /\ Dispatcher.skipped_ranges_count st' = Dispatcher.skipped_ranges_count st
       /\ (exists ok, Dispatcher.ConfigWrite kmin kmax_actual ok ∈ tail)
       /\ (Dispatcher.config_write_ok e kmin = true ->
           Dispatcher.Qsub kmin kmax_actual ids (Dispatcher.qsub e kmin) ∈ tail)).
Proof.
  intros Hw Hk kmax_actual ids. split; [|split].
  - intros id. by apply visited_range_odd_ids.
  - intros Hstarted. exists (Dispatcher.count_skipped st).
    split; [|done]. by apply loop_body_skip.
  - intros Hclear.
    pose proof (visited_range_nonempty cfg kmin Hw Hk) as Hlt.
    destruct (claim_and_submit_spec cfg e kmin kmax_actual ids st)
      as (tail & Htr & _ & _ & Hset & Hskip & _ & Hq & Hc).
    exists (fst (Dispatcher.claim_and_submit cfg e kmin kmax_actual ids st)),
           (snd (Dispatcher.claim_and_submit cfg e kmin kmax_actual ids st)), tail.
    split; [|done].
    rewrite loop_body_clear by done. fold kmax_actual. fold ids.
    by destruct (Dispatcher.claim_and_submit _ _ _ _ _ _).
Qed.

Lemma planner_skips_or_claims_witness :
  Dispatcher.loop_body (small_config 1)
    (constant_env Ledger.WriteOk true (Dispatcher.QsubOk "1.pbs")) 1
    (Dispatcher.State "" {["16_3"]} 0 0 0 [])
  = (Dispatcher.State "" {["16_3"]} 0 1 0 [], Dispatcher.Continue).
Proof.
  destruct (planner_skips_or_claims (small_config 1)
              (constant_env Ledger.WriteOk true (Dispatcher.QsubOk "1.pbs")) 1
              (Dispatcher.State "" {["16_3"]} 0 0 0 []))
    as (_ & Hskip & _).
  - reflexivity.
  - vm_compute. left.
  - destruct Hskip as (st' & -> & Hs & Hf & Hi & Ht & Hsub & He).
    + exists "16_3". split; [vm_compute; right; left|].
      cbn [Dispatcher.started_ids_set]. by apply elem_of_singleton_2.
    + destruct st'. simpl in *. by subst.
Defined.

(** C9.  Take a range the loop processes below the cap and none of whose
    IDs is started.  (a) If writing its config file fails, the error is
    printed and counted, nothing is submitted for it, and the loop goes on
    with the next range (the submitted count is unchanged, so the next range
    passes the MAX_JOBS test as this one did).  (b) If qsub is not found,
    the error is printed and counted and the loop ends there: the final
    state does not depend on the ranges that remain.  (c) If qsub exits
    non-zero, the error is printed and counted, the submitted count stays,
    and the loop goes on with the next range. *)
Theorem failure_granularity cfg e kmin st :
  0 < Dispatcher.NUM_K_PER_JOB cfg ->
  kmin ∈ Py.range 1 (Dispatcher.MAX_K cfg) (Dispatcher.job_k_range_size cfg) ->
  Dispatcher.submitted_count st < Dispatcher.MAX_JOBS cfg ->
  let kmax_actual := kmax_of cfg kmin in
  let ids := constituent_ids (Dispatcher.N cfg) kmin kmax_actual in
  (forall id, id ∈ ids -> id ∉ Dispatcher.started_ids_set st) ->
  let st1 := Dispatcher.mark_started (Dispatcher.append_result e kmin) ids st in
  (Dispatcher.config_write_ok e kmin = false ->
     exists st',
       (forall rest, Dispatcher.main_loop cfg e (kmin :: rest) st
                     = Dispatcher.main_loop cfg e rest st')
       /\ Dispatcher.trace st'
          = Dispatcher.trace st1
            ++ [Dispatcher.ConfigWrite kmin kmax_actual false;
                Dispatcher.Stderr (Dispatcher.ErrConfigWrite kmin kmax_actual)]
       /\ Dispatcher.error_count st' = Dispatcher.error_count st + 1
       /\ Dispatcher.submitted_count st' = Dispatcher.submitted_count st)
  /\ (Dispatcher.config_write_ok e kmin = true ->
      Dispatcher.qsub e kmin = Dispatcher.QsubNotFound ->
     exists st',
       (forall rest, Dispatcher.main_loop cfg e (kmin :: rest) st = st')
       /\ Dispatcher.trace st'
          = Dispatcher.trace st1
            ++ [Dispatcher.ConfigWrite kmin kmax_actual true;
                Dispatcher.Qsub kmin kmax_actual ids Dispatcher.QsubNotFound;
                Dispatcher.Stderr Dispatcher.ErrQsubNotFound]
       /\ Dispatcher.error_count st' = Dispatcher.error_count st + 1
       /\ Dispatcher.submitted_count st' = Dispatcher.submitted_count st)
  /\ (forall code,
      Dispatcher.config_write_ok e kmin = true ->
      Dispatcher.qsub e kmin = Dispatcher.QsubRejected code ->
     exists st',
       (forall rest, Dispatcher.main_loop cfg e (kmin :: rest) st
                     = Dispatcher.main_loop cfg e rest st')
       /\ Dispatcher.trace st'
          = Dispatcher.trace st1
            ++ [Dispatcher.ConfigWrite kmin kmax_actual true;
                Dispatcher.Qsub kmin kmax_actual ids (Dispatcher.QsubRejected code);
                Dispatcher.Stderr (Dispatcher.ErrQsubFailed kmin kmax_actual code)]
       /\ Dispatcher.error_count st' = Dispatcher.error_count st + 1
       /\ Dispatcher.submitted_count st' = Dispatcher.submitted_count st).
Proof.
  intros Hw Hk Hcap kmax_actual ids Hclear st1.
  pose proof (visited_range_nonempty cfg kmin Hw Hk) as Hlt.
  pose proof (loop_body_clear cfg e kmin st Hlt Hclear) as Hbody.
  fold kmax_actual in Hbody. fold ids in Hbody.
  assert (forall rest, Dispatcher.main_loop cfg e (kmin :: rest) st
    = match Dispatcher.claim_and_submit cfg e kmin kmax_actual ids st with
      | (st', Dispatcher.Continue) => Dispatcher.main_loop cfg e rest st'
      | (st', Dispatcher.Break) => st'
      end) as Hloop.
  { intros rest. simpl.
    destruct (Z.leb_spec (Dispatcher.MAX_JOBS cfg) (Dispatcher.submitted_count st));
      [lia|]. by rewrite Hbody. }
  assert (Dispatcher.error_count st1 = Dispatcher.error_count st
          /\ Dispatcher.submitted_count st1 = Dispatcher.submitted_count st)
    as [Herr Hsub].
  { subst st1. unfold Dispatcher.mark_started.
    by destruct (Ledger.append_ids_to_file _ _ _). }
  unfold Dispatcher.claim_and_submit in Hloop. fold st1 in Hloop.
  split; [|split].
  - intros Hc. rewrite Hc in Hloop. eexists. split; [exact Hloop|].
    simpl. by rewrite Herr, Hsub.
  - intros Hc Hq. rewrite Hc in Hloop. unfold Dispatcher.submit in Hloop.
    rewrite Hq in Hloop. eexists. split; [exact Hloop|].
    simpl. rewrite <- !app_assoc. simpl. by rewrite Herr, Hsub.
  - intros code Hc Hq. rewrite Hc in Hloop. unfold Dispatcher.submit in Hloop.
    rewrite Hq in Hloop. eexists. split; [exact Hloop|].
    simpl. rewrite <- !app_assoc. simpl. by rewrite Herr, Hsub.
Qed.

Lemma failure_granularity_witness :
  exists st',
    (forall rest,
       Dispatcher.main_loop (small_config 2)
         (constant_env Ledger.WriteOk true Dispatcher.QsubNotFound)
         (1 :: rest) (initial_state "") = st')
    /\ Dispatcher.error_count st' = 1
    /\ Dispatcher.submitted_count st' = 0.
Proof.
  destruct (failure_granularity (small_config 2)
              (constant_env Ledger.WriteOk true Dispatcher.QsubNotFound)
              1 (initial_state ""))
    as (_ & Hnotfound & _).
  - reflexivity.
  - vm_compute. left.
  - reflexivity.
  - intros id _. change (id ∉ (∅ : gset string)). apply not_elem_of_empty.
  - destruct (Hnotfound eq_refl eq_refl) as (st' & Hloop & _ & Herr & Hsub).
    exists st'. split; [exact Hloop|]. split; [exact Herr|exact Hsub].
Defined.

(** C10.  Take a range the loop processes, none of whose IDs is started,
    and let the append to the Started ledger raise an I/O error after
    [written] characters.  [append_ids_to_file] then returns normally: the
    file holds what was written before the error, the message went to
    stderr, and the caller learns nothing.  The loop body carries on as
    after a successful append: the in-memory set receives the IDs, the
    config file is written and, when that succeeds, qsub is called with the
    range's IDs; with a willing scheduler the job counts as submitted.  When
    nothing was written (the open failed), the ledger file is unchanged, so
    the submitted job's IDs are in the ledger only if they were before. *)
Theorem append_error_is_swallowed cfg e kmin st written :
  0 < Dispatcher.NUM_K_PER_JOB cfg ->
  kmin ∈ Py.range 1 (Dispatcher.MAX_K cfg) (Dispatcher.job_k_range_size cfg) ->
  let kmax_actual := kmax_of cfg kmin in
  let ids := constituent_ids (Dispatcher.N cfg) kmin kmax_actual in
  (forall id, id ∈ ids -> id ∉ Dispatcher.started_ids_set st) ->
  Dispatcher.append_result e kmin = Ledger.WriteIOError written ->
  let text' := Dispatcher.started_file st
               +:+ Py.str_take written (Ledger.lines_of_ids ids) in
  Ledger.append_ids_to_file (Dispatcher.started_file st) ids
    (Ledger.WriteIOError written) = (text', true)
  /\ (exists st' c tail,
        Dispatcher.loop_body cfg e kmin st = (st', c)
        /\ Dispatcher.started_file st' = text'
        /\ Dispatcher.started_ids_set st'
           = Dispatcher.started_ids_set st ∪ list_to_set ids
        /\ Dispatcher.trace st'
           = Dispatcher.trace st
             ++ Dispatcher.LedgerAppend ids (Ledger.WriteIOError written)
                :: Dispatcher.Stderr Dispatcher.ErrTrackingWrite
                :: Dispatcher.ConfigWrite kmin kmax_actual
                     (Dispatcher.config_write_ok e kmin)
                :: tail
        /\ (Dispatcher.config_write_ok e kmin = true ->
            exists tail',
              tail = Dispatcher.Qsub kmin kmax_actual ids (Dispatcher.qsub e kmin)
                     :: tail')
        /\ (forall job,
            Dispatcher.config_write_ok e kmin = true ->
            Dispatcher.qsub e kmin = Dispatcher.QsubOk job ->
            c = Dispatcher.Continue
            /\ Dispatcher.submitted_count st' = Dispatcher.submitted_count st + 1
            /\ Dispatcher.error_count st' = Dispatcher.error_count st))
  /\ (written = 0%nat -> text' = Dispatcher.started_file st).
Proof.
  intros Hw Hk kmax_actual ids Hclear Ha text'.
  pose proof (visited_range_nonempty cfg kmin Hw Hk) as Hlt.
  split; [reflexivity|]. split.
  - rewrite loop_body_clear by done. fold kmax_actual. fold ids.
    unfold Dispatcher.claim_and_submit, Dispatcher.mark_started, Dispatcher.submit.
    rewrite Ha. clearbody ids kmax_actual. simpl. fold text'.
    destruct (Dispatcher.config_write_ok e kmin) eqn:Ec;
      [destruct (Dispatcher.qsub e kmin) as [job| |code|] eqn:Eq|];
      do 3 eexists; (split; [reflexivity|]);
      simpl; rewrite <- ?app_assoc; simpl;
      (split; [reflexivity|]); (split; [reflexivity|]); (split; [reflexivity|]);
      (split; [intros Hok; try discriminate Hok; eexists; reflexivity|]);
      intros; simplify_eq; done.
  - intros ->. subst text'. simpl. apply app_empty_r.
Qed.

Lemma append_error_is_swallowed_witness :
  exists st',
    Dispatcher.loop_body (small_config 1)
      (constant_env (Ledger.WriteIOError 0) true (Dispatcher.QsubOk "1.pbs"))
      1 (initial_state "")
    = (st', Dispatcher.Continue)
    /\ Dispatcher.started_file st' = ""
    /\ Dispatcher.submitted_count st' = 1
    /\ Dispatcher.Qsub 1 5 ["16_1"; "16_3"] (Dispatcher.QsubOk "1.pbs")
       ∈ Dispatcher.trace st'.
Proof.
  destruct (append_error_is_swallowed (small_config 1)
              (constant_env (Ledger.WriteIOError 0) true (Dispatcher.QsubOk "1.pbs"))
              1 (initial_state "") 0)
    as (_ & (st' & c & tail & Hbody & Hfile & _ & Htrace & Hq & Hok) & Hnone).
  - reflexivity.
  - vm_compute. left.
  - intros id _. change (id ∉ (∅ : gset string)). apply not_elem_of_empty.
  - reflexivity.
  - destruct (Hok "1.pbs" eq_refl eq_refl) as (-> & Hsub & _).
    destruct (Hq eq_refl) as (tail' & ->).
    exists st'. split; [exact Hbody|]. split; [by rewrite Hfile|].
    split; [exact Hsub|]. rewrite Htrace.
    apply elem_of_app. right. do 3 right. left.
Defined.

(** ** Whole runs of the Dispatcher *)

Section Runs.

Import Ledger Dispatcher.

Context (cfg : config) (e : env).

Lemma main_loop_invariant (P : state -> Prop) kmins st :
  P st ->
  (forall kmin st0 st' c, P st0 -> loop_body cfg e kmin st0 = (st', c) -> P st') ->
  P (main_loop cfg e kmins st).
Proof.
  intros Hst Hstep. revert st Hst.
  induction kmins as [|kmin rest IH]; intros st Hst; simpl; [done|].
  destruct (MAX_JOBS cfg <=? submitted_count st); [done|].
  destruct (loop_body cfg e kmin st) as [st' c] eqn:E.
  specialize (Hstep _ _ _ _ Hst E). destruct c; auto.
Qed.

Lemma app_eq_split {A} (l1 l2 pre post : list A) x :
  l1 ++ l2 = pre ++ x :: post ->
  (exists post', l1 = pre ++ x :: post' /\ post = post' ++ l2)
  \/ (exists pre', pre = l1 ++ pre' /\ l2 = pre' ++ x :: post).
Proof.
  revert pre. induction l1 as [|a l1 IH]; intros pre H.
  - right. by exists pre.
  - destruct pre as [|b pre]; simpl in *.
    + left. exists l1. by simplify_eq.
    + injection H as -> H. destruct (IH _ H) as [(post' & -> & ->)|(pre' & -> & ->)].
      * left. by exists post'.
      * right. by exists pre'.
Qed.

Lemma ledger_after_app content tr1 tr2 :
  ledger_after content (tr1 ++ tr2) = ledger_after (ledger_after content tr1) tr2.
Proof.
  revert content. induction tr1 as [|ev tr1 IH]; intros content; [done|].
  destruct ev; simpl; apply IH.
Qed.

Lemma ledger_after_no_append content tr :
  no_append tr -> ledger_after content tr = content.
Proof.
  unfold no_append. induction tr as [|ev tr IH]; [done|]. simpl.
  intros [Hev Htr]%andb_true_iff. destruct ev; try done; by apply IH.
Qed.

Lemma no_append_app_l evs1 evs2 : no_append (evs1 ++ evs2) -> no_append evs1.
Proof.
  unfold no_append. rewrite forallb_app. by intros [? ?]%andb_true_iff.
Qed.

Lemma run_invariant_step text0 started0 kmin st st' c :
  run_invariant cfg text0 started0 st ->
  loop_body cfg e kmin st = (st', c) ->
  run_invariant cfg text0 started0 st'.
Proof.
  intros (Hsub & Hfile & Hcbs & Hac & Hmem) Hbody.
  destruct (loop_body_cases cfg e kmin st) as [Hskip|(Hne & Hclear & Hclaim)].
  { rewrite Hskip in Hbody. by simplify_eq. }
  rewrite Hclaim in Hbody.
  destruct (claim_and_submit_spec cfg e kmin (kmax_of cfg kmin)
              (constituent_ids (N cfg) kmin (kmax_of cfg kmin)) st)
    as (tail & Htr & Hna & Hf & Hset & _ & Hq & _).
  rewrite Hbody in Htr, Hf, Hset. simpl in Htr, Hf, Hset.
  set (ids := constituent_ids (N cfg) kmin (kmax_of cfg kmin)) in *.
  assert (forall id, id ∈ ids -> id ∉ started0) as Hfresh.
  { intros id Hid Hin. by apply (Hclear id Hid), Hsub. }
  split; [|split; [|split; [|split]]].
  - rewrite Hset. intros x Hx. apply elem_of_union_l. by apply Hsub.
  - rewrite Htr, ledger_after_app, <- Hfile. simpl.
    by rewrite ledger_after_no_append.
  - intros pre k kx i res post Heq. rewrite Htr in Heq.
    apply app_eq_split in Heq as [(post' & Hold & _)|(pre' & -> & Hnew)].
    + by apply (Hcbs _ _ _ _ _ _ Hold).
    + destruct pre' as [|ev mid]; [done|]. injection Hnew as <- Htail.
      destruct (Hq k kx i res) as (-> & -> & -> & _).
      { rewrite Htail. apply elem_of_app. right. left. }
      do 4 (split; [done|]). exists (trace st), (append_result e kmin), mid.
      split; [done|]. rewrite Htail in Hna. by apply no_append_app_l in Hna.
  - intros i wres Hin. rewrite Htr in Hin.
    apply elem_of_app in Hin as [Hin|Hin]; [by apply Hac in Hin|].
    apply elem_of_cons in Hin as [[= -> ->]|Hin].
    + split; [done|]. split; [done|]. by exists kmin.
    + exfalso. unfold no_append in Hna. rewrite forallb_forall in Hna.
      apply list_elem_of_In, Hna in Hin. done.
  - intros i wres Hin id Hid. rewrite Htr in Hin. rewrite Hset.
    apply elem_of_app in Hin as [Hin|Hin].
    + apply elem_of_union_l. by apply (Hmem i wres).
    + apply elem_of_cons in Hin as [[= -> ->]|Hin].
      * apply elem_of_union_r. by apply elem_of_list_to_set.
      * exfalso. unfold no_append in Hna. rewrite forallb_forall in Hna.
        apply list_elem_of_In, Hna in Hin. done.
Qed.

Lemma run_invariant_initial text0 :
  run_invariant cfg text0 (id_set_of_text text0) (initial_state text0).
Proof.
  split; [done|]. split; [done|]. split; [|split].
  - intros pre k kx i res post Heq. by destruct pre.
  - intros i wres Hin. by apply elem_of_nil in Hin.
  - intros i wres Hin. by apply elem_of_nil in Hin.
Qed.

(** A finished run is the main loop run from the loaded ledger. *)
Lemma main_finished started st :
  main cfg e started = Finished st ->
  exists text0,
    touch started = Content text0
    /\ st = main_loop cfg e (Py.range 1 (MAX_K cfg) (job_k_range_size cfg))
              (initial_state text0).
Proof.
  unfold main. destruct (NUM_K_PER_JOB cfg <=? 0); [done|].
  destruct (negb (preflight_ok e)); [done|].
  destruct (touch started) as [| |text0] eqn:Et; simpl; try done.
  intros [= <-]. by exists text0.
Qed.

Lemma main_finished_valid started st :
  main cfg e started = Finished st -> 0 < NUM_K_PER_JOB cfg.
Proof.
  unfold main. destruct (Z.leb_spec (NUM_K_PER_JOB cfg) 0); [done|lia].
Qed.

Lemma main_loop_set_mono kmins st :
  started_ids_set st ⊆ started_ids_set (main_loop cfg e kmins st).
Proof.
  apply (main_loop_invariant (fun st' => started_ids_set st ⊆ started_ids_set st'));
    [done|].
  intros kmin st0 st' c Hsub Hbody.
  destruct (loop_body_cases cfg e kmin st0) as [Hskip|(_ & _ & Hclaim)].
  - rewrite Hskip in Hbody. by simplify_eq.
  - rewrite Hclaim in Hbody.
    destruct (claim_and_submit_spec cfg e kmin (kmax_of cfg kmin)
                (constituent_ids (N cfg) kmin (kmax_of cfg kmin)) st0)
      as (tail & _ & _ & _ & Hset & _).
    rewrite Hbody in Hset. simpl in Hset. rewrite Hset.
    intros x Hx. apply elem_of_union_l. by apply Hsub.
Qed.

(** When the cap leaves room for every range and qsub is present, the loop
    reaches every range, and afterwards each of them has an ID in the
    Started set. *)
Lemma main_loop_reaches_all kmins st :
  (forall k, qsub e k <> QsubNotFound) ->
  Z.of_nat (length kmins) + submitted_count st <= MAX_JOBS cfg ->
  (forall kmin, kmin ∈ kmins -> kmin < kmax_of cfg kmin) ->
  forall kmin, kmin ∈ kmins ->
    exists id, id ∈ constituent_ids (N cfg) kmin (kmax_of cfg kmin)
               /\ id ∈ started_ids_set (main_loop cfg e kmins st).
Proof.
  intros Hq. revert st.
  induction kmins as [|k0 rest IH]; intros st Hcap Hne kmin Hin;
    [by apply elem_of_nil in Hin|].
  simpl in Hcap. simpl.
  destruct (Z.leb_spec (MAX_JOBS cfg) (submitted_count st)); [lia|].
  assert (k0 < kmax_of cfg k0) as Hlt by (apply Hne; left).
  assert (forall k, k ∈ rest -> k < kmax_of cfg k) as Hne'
    by (intros k Hk; apply Hne; by right).
  destruct (loop_body_cases cfg e k0 st) as [Hskip|(Hids & _ & Hclaim)].
  - rewrite Hskip.
    apply elem_of_cons in Hin as [->|Hin].
    + destruct (loop_body_skipped_has_started cfg e k0 st Hlt Hskip) as (id & Hid & Hst).
      exists id. split; [done|].
      by apply (main_loop_set_mono rest (count_skipped st)).
    + apply IH; [simpl; lia|done|done].
  - rewrite Hclaim.
    pose proof (claim_and_submit_control cfg e k0 (kmax_of cfg k0)
                  (constituent_ids (N cfg) k0 (kmax_of cfg k0)) st) as [Hcount Hbreak].
    destruct (claim_and_submit_spec cfg e k0 (kmax_of cfg k0)
                (constituent_ids (N cfg) k0 (kmax_of cfg k0)) st)
      as (tail & _ & _ & _ & Hset & _).
    destruct (claim_and_submit cfg e k0 _ _ st) as [st' c]. simpl in *.
    destruct c; [|by destruct (Hq k0); apply Hbreak].
    apply elem_of_cons in Hin as [->|Hin].
    + destruct (constituent_ids (N cfg) k0 (kmax_of cfg k0)) as [|id ids] eqn:E;
        [done|].
      exists id. split; [left|].
      apply (main_loop_set_mono rest st'). rewrite Hset.
      apply elem_of_union_r, elem_of_list_to_set. left.
    + apply IH; [lia|done|done].
Qed.

(** When every range has an ID in the Started set, the loop submits
    nothing and writes nothing. *)
Lemma main_loop_all_skipped kmins st :
  (forall kmin, kmin ∈ kmins ->
     exists id, id ∈ constituent_ids (N cfg) kmin (kmax_of cfg kmin)
                /\ id ∈ started_ids_set st) ->
  trace (main_loop cfg e kmins st) = trace st
  /\ submitted_count (main_loop cfg e kmins st) = submitted_count st
  /\ started_file (main_loop cfg e kmins st) = started_file st.
Proof.
  revert st. induction kmins as [|k0 rest IH]; intros st Hall; [done|]. simpl.
  destruct (MAX_JOBS cfg <=? submitted_count st); [done|].
  rewrite loop_body_skip by (apply Hall; left).
  apply (IH (count_skipped st)). intros kmin Hk. apply Hall. by right.
Qed.

Lemma main_run_invariant started st :
  main cfg e started = Finished st ->
  exists text0,
    touch started = Content text0
    /\ run_invariant cfg text0 (id_set_of_text text0) st.
Proof.
  intros (text0 & Ht & ->)%main_finished. exists text0. split; [done|].
  apply main_loop_invariant; [apply run_invariant_initial|].
  intros kmin st0 st' c. apply run_invariant_step.
Qed.

(** When no append fails and the ledger text was terminated at the start,
    the file always reads back as the in-memory set. *)
Lemma file_mirrors_set_step kmin st st' c :
  (forall k, append_result e k = WriteOk) ->
  line_terminated (started_file st)
  /\ id_set_of_text (started_file st) = started_ids_set st ->
  loop_body cfg e kmin st = (st', c) ->
  line_terminated (started_file st')
  /\ id_set_of_text (started_file st') = started_ids_set st'.
Proof.
  intros Hok [Hterm Hmirror] Hbody.
  destruct (loop_body_cases cfg e kmin st) as [Hskip|(Hne & Hclear & Hclaim)].
  { rewrite Hskip in Hbody. by simplify_eq. }
  rewrite Hclaim in Hbody.
  destruct (claim_and_submit_spec cfg e kmin (kmax_of cfg kmin)
              (constituent_ids (N cfg) kmin (kmax_of cfg kmin)) st)
    as (tail & _ & _ & Hf & Hset & _).
  rewrite Hbody in Hf, Hset. simpl in Hf, Hset.
  rewrite Hok in Hf. simpl in Hf.
  assert (Forall clean_id (constituent_ids (N cfg) kmin (kmax_of cfg kmin))) as Hclean.
  { apply Forall_forall. intros id (k & -> & _)%elem_of_constituent_ids.
    apply id_str_clean. }
  rewrite Hf, Hset. split.
  - by apply line_terminated_append.
  - by rewrite id_set_of_text_append, Hmirror.
Qed.

Lemma main_file_mirrors_set started st :
  (forall k, append_result e k = WriteOk) ->
  (forall text0, touch started = Content text0 -> line_terminated text0) ->
  main cfg e started = Finished st ->
  line_terminated (started_file st)
  /\ id_set_of_text (started_file st) = started_ids_set st.
Proof.
  intros Hok Hterm (text0 & Ht & ->)%main_finished.
  apply (main_loop_invariant (fun st =>
    line_terminated (started_file st)
    /\ id_set_of_text (started_file st) = started_ids_set st)).
  - split; [by apply Hterm|done].
  - intros kmin st0 st' c. by apply file_mirrors_set_step.
Qed.

End Runs.

(** C5, as the code has it.  In every finished run, every qsub call is for
    a range of the partition with that range's constituent IDs, and the
    call of [append_ids_to_file] with exactly these IDs comes before it,
    with no other ledger append in between; so the ledger file at the time
    of the submission is the file before the append plus whatever this
    append wrote.  When the append ended without I/O error (and the file's
    last line was terminated), all the IDs are in the ledger at that time.
    An append that failed is not noticed: the submission goes ahead. *)
Theorem append_call_precedes_submission cfg e started st :
  Dispatcher.main cfg e started = Dispatcher.Finished st ->
  exists text0,
    Ledger.touch started = Ledger.Content text0
    /\ Dispatcher.started_file st
       = Dispatcher.ledger_after text0 (Dispatcher.trace st)
    /\ forall pre kmin kmax ids res post,
         Dispatcher.trace st = pre ++ Dispatcher.Qsub kmin kmax ids res :: post ->
         kmax = kmax_of cfg kmin
         /\ ids = constituent_ids (Dispatcher.N cfg) kmin kmax
         /\ exists pre1 wres mid,
              pre = pre1 ++ Dispatcher.LedgerAppend ids wres :: mid
              /\ no_append mid
              /\ Dispatcher.ledger_after text0 pre
                 = fst (Ledger.append_ids_to_file
                          (Dispatcher.ledger_after text0 pre1) ids wres)
              /\ (wres = Ledger.WriteOk ->
                  line_terminated (Dispatcher.ledger_after text0 pre1) ->
                  forall id, id ∈ ids ->
                    id ∈ Ledger.id_set_of_text (Dispatcher.ledger_after text0 pre)).
Proof.
  intros (text0 & Ht & _ & Hfile & Hcbs & _)%main_run_invariant.
  exists text0. split; [done|]. split; [done|].
  intros pre kmin kmax ids res post Heq.
  destruct (Hcbs _ _ _ _ _ _ Heq) as (Hkx & Hids & _ & _ & pre1 & wres & mid & Hpre & Hna).
  split; [done|]. split; [done|]. exists pre1, wres, mid.
  split; [done|]. split; [done|].
  assert (Dispatcher.ledger_after text0 pre
          = fst (Ledger.append_ids_to_file
                   (Dispatcher.ledger_after text0 pre1) ids wres)) as Hled.
  { rewrite Hpre, ledger_after_app. simpl. by apply ledger_after_no_append. }
  split; [done|]. intros -> Hterm id Hid. rewrite Hled. simpl.
  rewrite id_set_of_text_append; [by apply elem_of_union_r, elem_of_list_to_set|done|].
  rewrite Hids. apply Forall_forall.
  intros id' (k & -> & _)%elem_of_constituent_ids. apply id_str_clean.
Qed.

Lemma append_call_precedes_submission_witness :
  exists text0,
    Ledger.touch Ledger.Absent = Ledger.Content text0
    /\ Dispatcher.started_file
         (Dispatcher.main_loop (small_config 1)
            (constant_env Ledger.WriteOk true (Dispatcher.QsubOk "1.pbs"))
            [1; 5] (initial_state ""))
       = Dispatcher.ledger_after text0
           (Dispatcher.trace
              (Dispatcher.main_loop (small_config 1)
                 (constant_env Ledger.WriteOk true (Dispatcher.QsubOk "1.pbs"))
                 [1; 5] (initial_state ""))).
Proof.
  destruct (append_call_precedes_submission (small_config 1)
              (constant_env Ledger.WriteOk true (Dispatcher.QsubOk "1.pbs"))
              Ledger.Absent
              (Dispatcher.main_loop (small_config 1)
                 (constant_env Ledger.WriteOk true (Dispatcher.QsubOk "1.pbs"))
                 [1; 5] (initial_state "")))
    as (text0 & Ht & Hfile & _).
  - reflexivity.
  - exists text0. split; [exact Ht|exact Hfile].
Defined.

(** C5 as stated fails: when the append cannot open started_ids.txt, the
    error is swallowed and the range is submitted although none of its IDs
    was appended; the ledger is empty when qsub is called and stays so. *)
Lemma submission_without_ledger_entry :
  exists st,
    Dispatcher.main (small_config 1)
      (constant_env (Ledger.WriteIOError 0) true (Dispatcher.QsubOk "1.pbs"))
      Ledger.Absent = Dispatcher.Finished st
    /\ Dispatcher.trace st
       = [Dispatcher.LedgerAppend ["16_1"; "16_3"] (Ledger.WriteIOError 0);
          Dispatcher.Stderr Dispatcher.ErrTrackingWrite;
          Dispatcher.ConfigWrite 1 5 true]
         ++ [Dispatcher.Qsub 1 5 ["16_1"; "16_3"] (Dispatcher.QsubOk "1.pbs")]
    /\ Dispatcher.ledger_after ""
         [Dispatcher.LedgerAppend ["16_1"; "16_3"] (Ledger.WriteIOError 0);
          Dispatcher.Stderr Dispatcher.ErrTrackingWrite;
          Dispatcher.ConfigWrite 1 5 true] = ""
    /\ Dispatcher.started_file st = ""
    /\ Dispatcher.submitted_count st = 1.
Proof. eexists. split; [reflexivity|]. by vm_compute. Qed.

(** ** The Archiver *)

Section ArchiverFacts.

Import Ledger Archiver.

Lemma last_char_cons c s d :
  last_char s = Some d -> last_char (String c s) = Some d.
Proof. simpl. by intros ->. Qed.

(** A name matched by a pattern that ends in an ordinary character ends in
    that character. *)
Lemma glob_match_last pattern c :
  last_char pattern = Some c -> c <> "*"%char ->
  forall name, Py.glob_match pattern name = true -> last_char name = Some c.
Proof.
  induction pattern as [|p pattern IH]; [done|].
  intros Hlast Hc. simpl in Hlast.
  destruct (last_char pattern) as [d|] eqn:El.
  - injection Hlast as ->. specialize (IH eq_refl Hc). simpl.
    destruct (Ascii.eqb p "*").
    + intros name. induction name as [|a name IHn]; intros Hm.
      * apply orb_true_iff in Hm as [Hm|Hm]; [by apply IH|done].
      * apply orb_true_iff in Hm as [Hm|Hm]; [by apply IH|].
        apply last_char_cons. by apply IHn.
    + intros [|a name]; [done|]. intros [_ Hm]%andb_true_iff.
      apply last_char_cons. by apply IH.
  - injection Hlast as ->. destruct pattern; [|simpl in El; by destruct (last_char pattern)].
    simpl. destruct (Ascii.eqb_spec c "*"); [done|].
    intros [|a name]; [done|]. intros [Ha Hm]%andb_true_iff.
    destruct name; [|done]. apply Ascii.eqb_eq in Ha. by subst a.
Qed.

(** No file name matches both the range pattern and the title pattern. *)
Lemma range_file_not_title name :
  Py.glob_match RANGE_PATTERN name = true ->
  Py.glob_match TITLE_PATTERN name = false.
Proof.
  intros Hr. destruct (Py.glob_match TITLE_PATTERN name) eqn:Ht; [|done].
  apply (glob_match_last RANGE_PATTERN "t") in Hr; [|done..].
  apply (glob_match_last TITLE_PATTERN "e") in Ht; [|done..].
  by rewrite Hr in Ht.
Qed.

Lemma glob_unlink_other pattern name dir :
  Py.glob_match pattern name = false ->
  glob pattern (unlink name dir) = glob pattern dir.
Proof.
  intros Hno. unfold glob, unlink.
  induction dir as [|d dir IH]; [done|]. simpl.
  destruct (String.eqb_spec (entry_name d) name) as [Heq|Hne]; simpl.
  - rewrite Heq, Hno. apply IH.
  - destruct (Py.glob_match pattern (entry_name d)); by rewrite IH.
Qed.

Lemma remove_titles_keeps_range_files e titles dir removed :
  Forall (fun t => Py.glob_match TITLE_PATTERN (entry_name t) = true) titles ->
  range_files (fst (remove_titles e titles dir removed)) = range_files dir.
Proof.
  intros Ht. revert dir removed.
  induction Ht as [|t titles Hm _ IH]; intros dir removed; [done|]. simpl.
  destruct (entry_is_file t && exists_in dir (entry_name t)); [|apply IH].
  destruct (unlink_ok e (entry_name t)); [|apply IH].
  rewrite IH. unfold range_files. apply glob_unlink_other.
  destruct (Py.glob_match RANGE_PATTERN (entry_name t)) eqn:Hr; [|done].
  apply range_file_not_title in Hr. by rewrite Hr in Hm.
Qed.

Lemma glob_all_match pattern dir :
  Forall (fun t => Py.glob_match pattern (entry_name t) = true) (glob pattern dir).
Proof.
  apply Forall_forall. intros t Ht. unfold glob in Ht.
  apply list_elem_of_In, filter_In in Ht. tauto.
Qed.

Lemma add_all_fails e files members :
  (exists f, In f files /\ tar_add e f <> TarOk) ->
  snd (add_all e files members) <> TarOk.
Proof.
  revert members. induction files as [|f files IH]; intros members (g & Hg & Hbad).
  - done.
  - simpl. destruct (tar_add e f) eqn:Ef; try done.
    apply IH. destruct Hg as [->|Hg]; [done|]. eauto.
Qed.

Lemma write_archive_fails e files dir members :
  write_fails e files ->
  snd (write_archive e files dir members) <> TarOk.
Proof.
  intros Hfail. unfold write_archive.
  destruct (tar_open e) eqn:Eo; try done.
  destruct Hfail as [Ho|[Hadd|Hclose]]; [done| |].
  - pose proof (add_all_fails e files
      (if exists_in dir ARCHIVE_NAME then members else []) Hadd) as Hne.
    destruct (add_all e files _) as [members' status]. simpl in Hne.
    by destruct status.
  - destruct (add_all e files _) as [members' status].
    by destruct status.
Qed.

Lemma write_archive_keeps_range_files e files dir members :
  range_files (fst (fst (write_archive e files dir members))) = range_files dir.
Proof.
  unfold write_archive. destruct (tar_open e); try done.
  assert (range_files (if exists_in dir ARCHIVE_NAME then dir
                       else dir ++ [DirEntry ARCHIVE_NAME true])
          = range_files dir) as Hdir.
  { destruct (exists_in dir ARCHIVE_NAME); [done|].
    unfold range_files, glob. rewrite List.filter_app. simpl.
    apply app_nil_r. }
  destruct (add_all e files _) as [members' status].
  by destruct status.
Qed.

(** Every file of the batch is a regular file of the directory whose name
    matches the range pattern. *)
Lemma scan_from_candidates completed candidates acc f :
  f ∈ scan completed candidates acc ->
  f ∈ acc \/ exists d, d ∈ candidates /\ entry_name d = f.
Proof.
  revert acc. induction candidates as [|d rest IH]; intros acc Hf; [by left|].
  simpl in Hf.
  assert (f ∈ acc \/ (exists d', d' ∈ rest /\ entry_name d' = f) ->
          f ∈ acc \/ exists d', d' ∈ d :: rest /\ entry_name d' = f) as Hweak.
  { intros [?|(d' & ? & ?)]; [by left|]. right. exists d'. split; [by right|done]. }
  destruct (negb (entry_is_file d)); [by apply Hweak, IH|].
  destruct (Reconciler.parse_range_filename (entry_name d)) as [[[n kmin] kmax]|];
    [|by apply Hweak, IH].
  destruct (Reconciler.check_range_completion n kmin kmax completed) as [[] missing];
    [|by apply Hweak, IH].
  apply IH in Hf as [Hf|Hf]; [|by apply Hweak; right].
  apply elem_of_app in Hf as [Hf|Hf]; [by left|].
  apply list_elem_of_singleton in Hf as ->. right. exists d. split; [left|done].
Qed.

Lemma complete_file_is_range_file dir completed f :
  f ∈ complete_files dir completed ->
  exists d, d ∈ range_files dir /\ entry_name d = f.
Proof.
  intros [Hf|Hf]%scan_from_candidates; [by apply elem_of_nil in Hf|done].
Qed.

End ArchiverFacts.

(** C1.  Whatever the directory, the Completed ledger and the archive held
    before: if the archive write of the batch of Complete files fails (the
    open, the add of any one file, or the close does not return normally),
    the run unlinks no range file; the range files in the output directory
    are exactly those that were there before, so every file of the batch is
    still there; and, unless the failure was an exception the script does
    not catch (which ends it on the spot), the failure is reported and the
    removal list is emptied before the removal loop. *)
Theorem failed_archive_deletes_nothing e completed completed_ids_set dir members :
  Ledger.load_tracked_ids completed = Ledger.Ret completed_ids_set ->
  Archiver.write_fails e (Archiver.complete_files dir completed_ids_set) ->
  let r := Archiver.main e completed dir members in
  Archiver.files_to_archive r = Archiver.complete_files dir completed_ids_set
  /\ Archiver.removed_range_files r = []
  /\ Archiver.range_files (Archiver.out_dir r) = Archiver.range_files dir
  /\ (forall f, f ∈ Archiver.files_to_archive r ->
        exists d, d ∈ Archiver.out_dir r /\ Archiver.entry_name d = f)
  /\ (Archiver.files_to_archive r <> [] ->
      Archiver.how_ended r = Archiver.RanToEnd ->
      Archiver.archive_failure_reported r = true).
Proof.
  intros Hload Hfail r.
  assert (Archiver.files_to_archive r = Archiver.complete_files dir completed_ids_set
          /\ Archiver.removed_range_files r = []
          /\ Archiver.range_files (Archiver.out_dir r) = Archiver.range_files dir
          /\ (Archiver.files_to_archive r <> [] ->
              Archiver.how_ended r = Archiver.RanToEnd ->
              Archiver.archive_failure_reported r = true)) as (Hfiles & Hrem & Hdir & Hrep).
  { subst r. unfold Archiver.main. rewrite Hload.
    destruct (Archiver.complete_files dir completed_ids_set) as [|f files] eqn:Ef.
    - simpl.
      destruct (Archiver.remove_titles e _ dir []) as [dir3 titles] eqn:Et. simpl.
      repeat split; try done.
      change dir3 with (fst (dir3, titles)). rewrite <- Et.
      apply remove_titles_keeps_range_files, glob_all_match.
    - pose proof (write_archive_fails e (f :: files) dir members Hfail) as Hst.
      pose proof (write_archive_keeps_range_files e (f :: files) dir members) as Hkeep.
      destruct (Archiver.write_archive e (f :: files) dir members)
        as [[dir1 members1] status].
      simpl in Hst, Hkeep. destruct status; [done| |].
      + simpl.
        destruct (Archiver.remove_titles e _ dir1 []) as [dir3 titles] eqn:Et. simpl.
        repeat split; try done.
        change dir3 with (fst (dir3, titles)). rewrite <- Et, <- Hkeep.
        apply remove_titles_keeps_range_files, glob_all_match.
      + simpl. repeat split; done. }
  split; [done|]. split; [done|]. split; [done|]. split; [|done].
  intros f Hf. rewrite Hfiles in Hf.
  apply complete_file_is_range_file in Hf as (d & Hd & Hname).
  exists d. split; [|done]. rewrite <- Hdir in Hd.
  unfold Archiver.range_files, Archiver.glob in Hd.
  apply list_elem_of_In, filter_In in Hd as [Hd _]. by apply list_elem_of_In.
Qed.

Lemma failed_archive_deletes_nothing_witness :
  Archiver.files_to_archive
    (Archiver.main example_failing_tar (Ledger.Content example_completed)
       example_dir [])
  = ["uni_16_1_5.txt"; "uni_16_5_8.txt"; "uni_8_1_4.txt"]
  /\ Archiver.removed_range_files
       (Archiver.main example_failing_tar (Ledger.Content example_completed)
          example_dir []) = []
  /\ Archiver.range_files
       (Archiver.out_dir
          (Archiver.main example_failing_tar (Ledger.Content example_completed)
             example_dir []))
     = Archiver.range_files example_dir.
Proof.
  destruct (failed_archive_deletes_nothing example_failing_tar
              (Ledger.Content example_completed)
              (Ledger.id_set_of_text example_completed) example_dir [])
    as (Hfiles & Hremoved & Hdir & _).
  - reflexivity.
  - right. left. exists "uni_16_5_8.txt". split; [vm_compute; tauto|].
    vm_compute. discriminate.
  - split; [|split; [exact Hremoved|exact Hdir]].
    rewrite Hfiles. vm_compute. reflexivity.
Defined.

(** The same run, computed: one member reached the archive, the failure was
    reported, the three range files are still in the directory, only the
    title file is gone. *)
Example failed_archive_run :
  let r := Archiver.main example_failing_tar (Ledger.Content example_completed)
             example_dir [] in
  Archiver.archive_members r = ["uni_16_1_5.txt"]
  /\ Archiver.archive_failure_reported r = true
  /\ Archiver.removed_range_files r = []
  /\ Archiver.removed_title_files r = ["uni_16_1_5.title"]
  /\ Archiver.out_dir r
     = [Archiver.DirEntry "uni_16_1_5.txt" true;
        Archiver.DirEntry "uni_16_5_8.txt" true;
        Archiver.DirEntry "uni_8_1_4.txt" true;
        Archiver.DirEntry Archiver.ARCHIVE_NAME true].
Proof. by vm_compute. Qed.

(** With a tar library that works, the same batch is archived and the three
    range files are removed. *)
Example successful_archive_run :
  let e := Archiver.Env Archiver.TarOk (fun _ => Archiver.TarOk) Archiver.TarOk
             (fun _ => true) in
  let r := Archiver.main e (Ledger.Content example_completed) example_dir [] in
  Archiver.archive_members r = ["uni_16_1_5.txt"; "uni_16_5_8.txt"; "uni_8_1_4.txt"]
  /\ Archiver.removed_range_files r
     = ["uni_16_1_5.txt"; "uni_16_5_8.txt"; "uni_8_1_4.txt"]
  /\ Archiver.out_dir r = [Archiver.DirEntry Archiver.ARCHIVE_NAME true].
Proof. by vm_compute. Qed.

(** The end-to-end example: n = 16 with ranges of width 4 gives [[1, 5)] and
    the clipped [[5, 8)], with IDs 16_1, 16_3 and 16_5, 16_7. *)
Example end_to_end_16 :
  Dispatcher.partition (small_config 1) = [(1, 5); (5, 8)]
  /\ constituent_ids 16 1 5 = ["16_1"; "16_3"]
  /\ constituent_ids 16 5 8 = ["16_5"; "16_7"].
Proof. by vm_compute. Qed.

(** The constants as committed give 1024 ranges of 512 IDs each, of which
    one run submits at most 128. *)
Example committed_constants :
  Dispatcher.N Dispatcher.source_config = 2097152
  /\ Dispatcher.MAX_K Dispatcher.source_config = 1048576
  /\ length (Dispatcher.partition Dispatcher.source_config) = 1024%nat
  /\ Dispatcher.MAX_JOBS Dispatcher.source_config = 128
  /\ Reconciler.num_ids_expected 1 1025 = 512.
Proof. by vm_compute. Qed.

(** File names the scan loop rejects or accepts. *)
Example parse_examples :
  Reconciler.parse_range_filename "uni_16_1_5.txt" = Some (16, 1, 5)
  /\ Reconciler.parse_range_filename "uni_16_5.txt" = None
  /\ Reconciler.parse_range_filename "uni_16_a_5.txt" = None
  /\ Reconciler.parse_range_filename "uni_16_9_5.txt" = Some (16, 9, 5)
  /\ Reconciler.check_range_completion 16 9 5 ∅ = (false, []).
Proof. by vm_compute. Qed.

(** task_gen.py for n = 4 and n = 8 with one value of k per file: the last
    range of each n ends at [n/2 + 1]. *)
Example task_gen_small :
  TaskGen.generate_config_files 2 3 1 2 = [(4, (1, 3)); (8, (1, 3)); (8, (3, 5))].
Proof. by vm_compute. Qed.

(* ================================================================== *)
(** * Further properties of the scripts *)

(** ** Printing and parsing integers, naming and recognising files *)

Section Names.

Lemma digit_value_char d :
  (d < 10)%N -> Py.digit_value (pretty_N_char d) = Some (Z.of_N d).
Proof.
  intros Hd.
  assert (d = 0 \/ d = 1 \/ d = 2 \/ d = 3 \/ d = 4 \/ d = 5 \/ d = 6
          \/ d = 7 \/ d = 8 \/ d = 9)%N as Hcases by lia.
  repeat (destruct Hcases as [->|Hcases]; [reflexivity|]). by subst d.
Qed.

Lemma digit_not_underscore d : Ascii.eqb (pretty_N_char d) "_" = false.
Proof. unfold pretty_N_char. by repeat case_match. Qed.

Lemma int_digits_pretty_N_go x s :
  Py.int_digits 0 false (pretty_N_go x s) = Py.int_digits (Z.of_N x) false s.
Proof.
  revert s. induction (N.lt_wf_0 x) as [x _ IH]. intros s.
  destruct (decide (x = 0)%N) as [->|Hx]; [by rewrite pretty_N_go_0|].
  rewrite pretty_N_go_step by lia.
  rewrite IH by (apply N.div_lt; lia). simpl.
  rewrite digit_not_underscore.
  rewrite digit_value_char by (apply N.mod_lt; lia).
  f_equal. pose proof (N.div_mod x 10 ltac:(lia)). lia.
Qed.

Lemma int_digits_pretty_N (x : N) :
  Py.int_digits 0 false (pretty x) = Some (Z.of_N x).
Proof.
  unfold pretty, pretty_N. case_decide as Hx; [by subst x|].
  by rewrite int_digits_pretty_N_go.
Qed.

Lemma int_space_is_space c : Py.is_int_space c = true -> Py.is_space c = true.
Proof.
  unfold Py.is_int_space, Py.is_space. cbv zeta.
  intros [[H1 H2]%andb_true_iff|H]%orb_true_iff.
  - by rewrite H1, H2.
  - apply N.eqb_eq in H. rewrite H. reflexivity.
Qed.

Lemma not_space_not_int_space c :
  not_space c = true -> Py.is_int_space c = false.
Proof.
  unfold not_space. intros H. destruct (Py.is_int_space c) eqn:E; [|done].
  apply int_space_is_space in E. by rewrite E in H.
Qed.

Lemma int_lstrip_clean s : all_chars not_space s = true -> Py.int_lstrip s = s.
Proof.
  destruct s as [|c s]; [done|]. simpl. intros [Hc _]%andb_true_iff.
  by rewrite not_space_not_int_space.
Qed.

Lemma int_rstrip_clean s : all_chars not_space s = true -> Py.int_rstrip s = s.
Proof.
  induction s as [|c s IH]; [done|]. simpl. intros [Hc Hs]%andb_true_iff.
  rewrite IH by done. destruct s; [|done]. by rewrite not_space_not_int_space.
Qed.

Lemma lstrip_clean s : all_chars not_space s = true -> Py.lstrip s = s.
Proof.
  destruct s as [|c s]; [done|]. simpl. intros [Hc _]%andb_true_iff.
  unfold not_space in Hc. by destruct (Py.is_space c).
Qed.

Lemma rstrip_clean s : all_chars not_space s = true -> Py.rstrip s = s.
Proof.
  induction s as [|c s IH]; [done|]. simpl. intros [Hc Hs]%andb_true_iff.
  rewrite IH by done. unfold not_space in Hc.
  destruct s; [|done]. by destruct (Py.is_space c).
Qed.

Lemma strip_clean s : all_chars not_space s = true -> Py.strip s = s.
Proof. intros H. unfold Py.strip. by rewrite lstrip_clean, rstrip_clean. Qed.

Lemma digits_not_sign d : not_sign (pretty_N_char d) = true.
Proof. unfold pretty_N_char. by repeat case_match. Qed.

End Names.

Section NameRoundTrip.

Lemma int_of_str_of_int z : Py.int_of_str (Py.str_of_int z) = Some z.
Proof.
  assert (forall p, exists c r,
            pretty (N.pos p) = String c r
            /\ Ascii.eqb c "-" = false /\ Ascii.eqb c "+" = false
            /\ Ascii.eqb c "_" = false) as Hhead.
  { intros p.
    pose proof (pretty_N_chars not_sign (N.pos p) digits_not_sign) as Hsign.
    assert (all_chars (fun c => negb (Ascii.eqb c "_")) (pretty (N.pos p)) = true)
      as Hus by (apply pretty_N_chars; intros d; by rewrite digit_not_underscore).
    pose proof (pretty_N_nonempty (N.pos p)) as Hne.
    destruct (pretty (N.pos p)) as [|c r]; [done|]. exists c, r.
    simpl in Hsign. apply andb_true_iff in Hsign as [Hc _].
    unfold not_sign in Hc. apply andb_true_iff in Hc as [Hminus Hplus].
    apply negb_true_iff in Hminus, Hplus.
    simpl in Hus. apply andb_true_iff in Hus as [Hu _].
    apply negb_true_iff in Hu. done. }
  unfold Py.int_of_str.
  rewrite int_lstrip_clean, int_rstrip_clean
    by (apply str_of_int_chars; [apply digits_not_space|done]).
  destruct z as [|p|p].
  - reflexivity.
  - change (Py.str_of_int (Z.pos p)) with (pretty (N.pos p)).
    pose proof (int_digits_pretty_N (N.pos p)) as Hval.
    destruct (Hhead p) as (c & r & Hp & Hminus & Hplus & Hus).
    rewrite Hp in *. rewrite Hminus, Hplus, Hus. by rewrite Hval.
  - change (Py.str_of_int (Z.neg p)) with (String "-" (pretty (N.pos p))).
    pose proof (int_digits_pretty_N (N.pos p)) as Hval.
    destruct (Hhead p) as (c & r & Hp & Hminus & Hplus & Hus).
    rewrite Hp in *. simpl. rewrite Hus.
    simpl in Hval. rewrite Hus in Hval. by rewrite Hval.
Qed.

Lemma split_piece sep a :
  all_chars (fun c => negb (Ascii.eqb c sep)) a = true -> Py.split sep a = [a].
Proof.
  induction a as [|c a IH]; [done|]. simpl. intros [Hc Ha]%andb_true_iff.
  apply negb_true_iff in Hc. by rewrite Hc, IH.
Qed.

Lemma split_cons sep a rest :
  all_chars (fun c => negb (Ascii.eqb c sep)) a = true ->
  Py.split sep (a +:+ String sep rest) = a :: Py.split sep rest.
Proof.
  induction a as [|c a IH].
  - intros _. rewrite app_empty_l. simpl. by rewrite Ascii.eqb_refl.
  - rewrite app_cons. simpl. intros [Hc Ha]%andb_true_iff.
    apply negb_true_iff in Hc. by rewrite Hc, IH.
Qed.

Lemma rev_app_app s t acc :
  String.rev_app (s +:+ t) acc = String.rev_app t (String.rev_app s acc).
Proof.
  revert acc. induction s as [|c s IH]; intros acc; [done|].
  rewrite app_cons. simpl. apply IH.
Qed.

Lemma str_length_app s t :
  String.length (s +:+ t) = (String.length s + String.length t)%nat.
Proof. induction s as [|c s IH]; [done|]. rewrite app_cons. simpl. by rewrite IH. Qed.

Lemma str_take_app s t : Py.str_take (String.length s) (s +:+ t) = s.
Proof. induction s as [|c s IH]; [by destruct t|]. rewrite app_cons. simpl. by rewrite IH. Qed.

Lemma removesuffix_txt core : Py.removesuffix (core +:+ ".txt") ".txt" = core.
Proof.
  unfold Py.removesuffix, Py.endswith, String.rev.
  rewrite rev_app_app. simpl.
  assert (String.prefix "" (String.rev_app core "") = true) as ->
    by (by destruct (String.rev_app core "")).
  rewrite str_length_app. simpl.
  replace (String.length core + 4 - 4)%nat with (String.length core) by lia.
  apply str_take_app.
Qed.

Lemma removeprefix_uni rest : Py.removeprefix ("uni_" +:+ rest) "uni_" = rest.
Proof.
  unfold Py.removeprefix.
  change ("uni_" +:+ rest) with (String "u" (String "n" (String "i" (String "_" rest)))).
  simpl. by destruct rest.
Qed.

Lemma str_of_int_no_underscore z :
  all_chars (fun c => negb (Ascii.eqb c "_")) (Py.str_of_int z) = true.
Proof.
  apply str_of_int_chars; [|done].
  intros d. unfold pretty_N_char. by repeat case_match.
Qed.

Lemma glob_star_unfold p s :
  Py.glob_match (String "*" p) s
  = Py.glob_match p s
    || match s with "" => false | String _ s' => Py.glob_match (String "*" p) s' end.
Proof. by destruct s. Qed.

Lemma glob_star_skip p a s :
  Py.glob_match p s = true -> Py.glob_match (String "*" p) (a +:+ s) = true.
Proof.
  intros Hm. induction a as [|c a IH].
  - rewrite app_empty_l, glob_star_unfold. by rewrite Hm.
  - rewrite app_cons, glob_star_unfold, IH. apply orb_true_r.
Qed.

End NameRoundTrip.

Lemma output_filename_parses n kmin kmax :
  Reconciler.parse_range_filename (Naming.output_filename n kmin kmax)
  = Some (n, kmin, kmax).
Proof.
  unfold Reconciler.parse_range_filename, Naming.output_filename.
  rewrite removeprefix_uni.
  replace (Py.str_of_int n +:+ "_" +:+ Py.str_of_int kmin +:+ "_"
           +:+ Py.str_of_int kmax +:+ ".txt")
    with ((Py.str_of_int n +:+ "_" +:+ Py.str_of_int kmin +:+ "_"
           +:+ Py.str_of_int kmax) +:+ ".txt")
    by (by rewrite !app_assoc').
  rewrite removesuffix_txt.
  change (Py.str_of_int n +:+ "_" +:+ Py.str_of_int kmin +:+ "_" +:+ Py.str_of_int kmax)
    with (Py.str_of_int n +:+ String "_" (Py.str_of_int kmin
            +:+ String "_" (Py.str_of_int kmax))).
  rewrite !split_cons by apply str_of_int_no_underscore.
  rewrite split_piece by apply str_of_int_no_underscore.
  by rewrite !int_of_str_of_int.
Qed.

Lemma output_filename_matches n kmin kmax :
  Py.glob_match Archiver.RANGE_PATTERN (Naming.output_filename n kmin kmax) = true.
Proof.
  unfold Archiver.RANGE_PATTERN, Naming.output_filename.
  change ("uni_" +:+ ?rest) with (String "u" (String "n" (String "i" (String "_" rest)))).
  change (Py.glob_match "uni_*_*_*.txt"
            (String "u" (String "n" (String "i" (String "_" ?rest)))))
    with (Py.glob_match "*_*_*.txt" rest).
  apply glob_star_skip.
  change ("_" +:+ ?rest) with (String "_" rest).
  change (Py.glob_match "_*_*.txt" (String "_" ?rest))
    with (Py.glob_match "*_*.txt" rest).
  apply glob_star_skip.
  change ("_" +:+ ?rest) with (String "_" rest).
  change (Py.glob_match "_*.txt" (String "_" ?rest))
    with (Py.glob_match "*.txt" rest).
  by apply glob_star_skip.
Qed.

(** X1.  The Archiver recognises every output file name the Dispatcher
    builds: [f"uni_{N}_{kmin}_{kmax_actual}.txt"] matches the pattern
    uni_*_*_*.txt and parses back to exactly (N, kmin, kmax_actual), for all
    integers; hence two different ranges never share an output file name. *)
Theorem output_filename_round_trip n kmin kmax :
  Py.glob_match Archiver.RANGE_PATTERN (Naming.output_filename n kmin kmax) = true
  /\ Reconciler.parse_range_filename (Naming.output_filename n kmin kmax)
     = Some (n, kmin, kmax)
  /\ (forall n' kmin' kmax',
        Naming.output_filename n kmin kmax = Naming.output_filename n' kmin' kmax' ->
        n = n' /\ kmin = kmin' /\ kmax = kmax').
Proof.
  split; [apply output_filename_matches|]. split; [apply output_filename_parses|].
  intros n' kmin' kmax' Heq.
  pose proof (output_filename_parses n kmin kmax) as H1.
  rewrite Heq, output_filename_parses in H1.
  by injection H1 as -> -> ->.
Qed.

(** ** What the Archiver selects *)

Section Selection.

Import Ledger Archiver.

Lemma check_complete_iff n kmin kmax (completed : gset string) :
  fst (Reconciler.check_range_completion n kmin kmax completed) = true <->
  kmin < kmax /\ forall id, id ∈ constituent_ids n kmin kmax -> id ∈ completed.
Proof.
  destruct (Z.lt_ge_cases kmin kmax) as [Hlt|Hge].
  - rewrite check_range_completion_nonempty by done. cbv zeta. cbn [fst].
    rewrite <- filter_absent_nil.
    split; [intros H; split; [done|]; by case_match|intros [_ H]; by rewrite H].
  - unfold Reconciler.check_range_completion.
    destruct (Z.leb_spec kmax kmin); [|lia]. simpl. split; [done|lia].
Qed.

Lemma scan_accepts completed candidates acc d n kmin kmax :
  d ∈ candidates -> entry_is_file d = true ->
  Reconciler.parse_range_filename (entry_name d) = Some (n, kmin, kmax) ->
  fst (Reconciler.check_range_completion n kmin kmax completed) = true ->
  entry_name d ∈ scan completed candidates acc.
Proof.
  intros Hd Hfile Hparse Hcheck.
  assert (forall cands acc', entry_name d ∈ acc' ->
            entry_name d ∈ scan completed cands acc') as Hkeep.
  { induction cands as [|d' rest IH]; intros acc' Hin; [done|]. simpl.
    destruct (negb (entry_is_file d')); [by apply IH|].
    destruct (Reconciler.parse_range_filename (entry_name d'))
      as [[[n' kmin'] kmax']|]; [|by apply IH].
    destruct (Reconciler.check_range_completion n' kmin' kmax' completed)
      as [[] missing]; apply IH; [|done].
    apply elem_of_app. by left. }
  revert acc. induction candidates as [|d' rest IH]; intros acc;
    [by apply elem_of_nil in Hd|].
  apply elem_of_cons in Hd as [<-|Hd].
  - simpl. rewrite Hfile, Hparse. simpl.
    destruct (Reconciler.check_range_completion n kmin kmax completed)
      as [ok missing]. simpl in Hcheck. subst ok.
    apply Hkeep. apply elem_of_app. right. left.
  - simpl. destruct (negb (entry_is_file d')); [by apply IH|].
    destruct (Reconciler.parse_range_filename (entry_name d'))
      as [[[n' kmin'] kmax']|]; [|by apply IH].
    destruct (Reconciler.check_range_completion n' kmin' kmax' completed)
      as [[] missing]; by apply IH.
Qed.

Lemma scan_only_files completed candidates acc f :
  f ∈ scan completed candidates acc ->
  f ∈ acc \/ exists d, d ∈ candidates /\ entry_name d = f /\ entry_is_file d = true.
Proof.
  revert acc. induction candidates as [|d rest IH]; intros acc Hf; [by left|].
  simpl in Hf.
  assert (f ∈ acc \/ (exists d', d' ∈ rest /\ entry_name d' = f
                                 /\ entry_is_file d' = true) ->
          f ∈ acc \/ exists d', d' ∈ d :: rest /\ entry_name d' = f
                                /\ entry_is_file d' = true) as Hweak.
  { intros [?|(d' & ? & ?)]; [by left|]. right. exists d'. split; [by right|done]. }
  destruct (entry_is_file d) eqn:Hfile; simpl in Hf; [|by apply Hweak, IH].
  destruct (Reconciler.parse_range_filename (entry_name d)) as [[[n kmin] kmax]|];
    [|by apply Hweak, IH].
  destruct (Reconciler.check_range_completion n kmin kmax completed) as [[] missing];
    [|by apply Hweak, IH].
  apply IH in Hf as [Hf|Hf]; [|by apply Hweak; right].
  apply elem_of_app in Hf as [Hf|Hf]; [by left|].
  apply list_elem_of_singleton in Hf as ->. right. exists d. split; [left|done].
Qed.

Lemma elem_of_glob pattern dir d :
  d ∈ glob pattern dir <-> d ∈ dir /\ Py.glob_match pattern (entry_name d) = true.
Proof.
  unfold glob. rewrite !list_elem_of_In. apply filter_In.
Qed.

End Selection.

Lemma elem_of_complete_files dir (completed : gset string) f :
  f ∈ Archiver.complete_files dir completed <->
  exists n kmin kmax,
    Archiver.DirEntry f true ∈ dir
    /\ Py.glob_match Archiver.RANGE_PATTERN f = true
    /\ Reconciler.parse_range_filename f = Some (n, kmin, kmax)
    /\ kmin < kmax
    /\ forall id, id ∈ constituent_ids n kmin kmax -> id ∈ completed.
Proof.
  unfold Archiver.complete_files. split.
  - intros Hf.
    destruct (scan_only_complete _ _ _ _ Hf) as [Hnil|(n & kmin & kmax & Hp & Hc)];
      [by apply elem_of_nil in Hnil|].
    destruct (scan_only_files _ _ _ _ Hf) as [Hnil|(d & Hd & Hname & Hfile)];
      [by apply elem_of_nil in Hnil|].
    apply elem_of_glob in Hd as [Hd Hglob].
    apply check_complete_iff in Hc as [Hlt Hall].
    exists n, kmin, kmax. destruct d as [name is_file]. simpl in *. by subst.
  - intros (n & kmin & kmax & Hd & Hglob & Hparse & Hlt & Hall).
    apply (scan_accepts completed _ [] (Archiver.DirEntry f true) n kmin kmax);
      [by apply elem_of_glob|done|done|].
    by apply check_complete_iff.
Qed.


(** [int()] does not skip the separators 0x1c-0x1f, although [str.strip]
    does: a name with such a character next to a number does not parse, so
    the file is skipped.  Blanks around a number and single underscores
    between digits are accepted. *)
Example int_of_str_examples :
  Reconciler.parse_range_filename
    ("uni_16_1_5" +:+ String (ascii_of_nat 31) "" +:+ ".txt") = None
  /\ Py.strip ("5" +:+ String (ascii_of_nat 31) "") = "5"
  /\ Py.int_of_str ("5" +:+ String (ascii_of_nat 31) "") = None
  /\ Py.int_of_str " -5 " = Some (-5)
  /\ Py.int_of_str "1_0" = Some 10
  /\ Py.int_of_str "1__0" = None
  /\ Py.int_of_str "+_1" = None
  /\ Py.int_of_str "5_" = None
  /\ Py.int_of_str "- 5" = None.
Proof. by vm_compute. Qed.

(** X2.  The batch the Archiver builds is exactly the set of names of
    regular files in out/ that match uni_*_*_*.txt, parse to integers
    (n, kmin, kmax) with [kmin < kmax], and all of whose constituent IDs are
    in the Completed set. *)
Theorem batch_is_the_complete_files dir (completed : gset string) f :
  f ∈ Archiver.complete_files dir completed <->
  exists n kmin kmax,
    Archiver.DirEntry f true ∈ dir
    /\ Py.glob_match Archiver.RANGE_PATTERN f = true
    /\ Reconciler.parse_range_filename f = Some (n, kmin, kmax)
    /\ kmin < kmax
    /\ forall id, id ∈ constituent_ids n kmin kmax -> id ∈ completed.
Proof. apply elem_of_complete_files. Qed.

(** X3.  The Dispatcher's name for a range's output file and the
    Reconciler's reading of it agree: when the output file of the range
    (N, kmin, kmax_actual) is a regular file in out/, it enters the archive
    batch exactly when the range is non-empty and every ID the job was given
    (the range's constituent IDs) is in the Completed set. *)
Theorem dispatcher_output_is_archived_when_complete n kmin kmax dir
    (completed : gset string) :
  Archiver.DirEntry (Naming.output_filename n kmin kmax) true ∈ dir ->
  Naming.output_filename n kmin kmax ∈ Archiver.complete_files dir completed <->
  kmin < kmax /\ forall id, id ∈ constituent_ids n kmin kmax -> id ∈ completed.
Proof.
  intros Hd. rewrite elem_of_complete_files.
  pose proof (output_filename_matches n kmin kmax) as Hglob.
  pose proof (output_filename_parses n kmin kmax) as Hparse.
  split.
  - intros (n' & kmin' & kmax' & _ & _ & Hp & Hlt & Hall).
    rewrite Hparse in Hp. by injection Hp as <- <- <-.
  - intros [Hlt Hall]. by exists n, kmin, kmax.
Qed.

Lemma dispatcher_output_is_archived_when_complete_witness :
  Naming.output_filename 16 1 5 ∈ Archiver.complete_files example_dir
    (Ledger.id_set_of_text example_completed).
Proof.
  apply (dispatcher_output_is_archived_when_complete 16 1 5 example_dir).
  - vm_compute. left.
  - split; [lia|]. intros id Hid.
    apply (bool_decide_unpack _). revert id Hid. apply Forall_forall.
    vm_compute. repeat constructor.
Defined.

(** ** What a run of the Archiver changes *)

Section ArchiverRuns.

Import Ledger Archiver.

Context (e : env).

Lemma add_all_extends files members :
  exists added,
    fst (add_all e files members) = members ++ added
    /\ added `prefix_of` files
    /\ (snd (add_all e files members) = TarOk -> added = files).
Proof.
  revert members. induction files as [|f files IH]; intros members; simpl.
  - exists []. by rewrite app_nil_r.
  - destruct (tar_add e f) eqn:Ef.
    + destruct (IH (members ++ [f])) as (added & Hm & Hp & Hok).
      exists (f :: added). rewrite Hm, <- app_assoc. split; [done|].
      split; [by apply prefix_cons|]. intros H. by rewrite Hok.
    + exists []. rewrite app_nil_r. split; [done|]. split; [apply prefix_nil|done].
    + exists []. rewrite app_nil_r. split; [done|]. split; [apply prefix_nil|done].
Qed.

(** The directory after the archive block is the old one, possibly with
    the new archive file; the members are the old ones (of an existing
    archive) followed by the files added before the first failure. *)
Lemma write_archive_spec files dir members :
  let w := write_archive e files dir members in
  (fst (fst w) = dir \/ fst (fst w) = dir ++ [DirEntry ARCHIVE_NAME true])
  /\ exists added,
       added `prefix_of` files
       /\ (snd w = TarOk -> added = files)
       /\ (exists_in dir ARCHIVE_NAME = true -> snd (fst w) = members ++ added)
       /\ (snd w = TarOk -> exists_in dir ARCHIVE_NAME = false ->
           snd (fst w) = added).
Proof.
  unfold write_archive. destruct (tar_open e).
  - destruct (add_all_extends files
                (if exists_in dir ARCHIVE_NAME then members else []))
      as (added & Hm & Hp & Hok).
    destruct (add_all e files _) as [members' status]. simpl in Hm, Hok.
    assert ((if exists_in dir ARCHIVE_NAME then dir
             else dir ++ [DirEntry ARCHIVE_NAME true]) = dir
            \/ (if exists_in dir ARCHIVE_NAME then dir
                else dir ++ [DirEntry ARCHIVE_NAME true])
               = dir ++ [DirEntry ARCHIVE_NAME true]) as Hdir
      by (destruct (exists_in dir ARCHIVE_NAME); auto).
    destruct status; simpl; (split; [done|]); exists added;
      (split; [done|]); (split; [try done|]);
      try (intros Hc; by apply Hok);
      (split; [intros Hex; by rewrite Hex in Hm|]);
      try done; intros _ Hex; by rewrite Hex in Hm.
  - simpl. split; [by left|]. exists []. split; [apply prefix_nil|].
    split; [done|]. split; [intros _; by rewrite app_nil_r|done].
  - simpl. split; [by left|]. exists []. split; [apply prefix_nil|].
    split; [done|]. split; [intros _; by rewrite app_nil_r|done].
Qed.



Lemma elem_of_unlink d name dir :
  d ∈ unlink name dir <-> d ∈ dir /\ entry_name d <> name.
Proof.
  unfold unlink. rewrite !list_elem_of_In, filter_In.
  rewrite negb_true_iff, String.eqb_neq. done.
Qed.

Lemma exists_in_false dir name :
  exists_in dir name = false -> forall d, d ∈ dir -> entry_name d <> name.
Proof.
  unfold exists_in. intros Hex d Hd Heq.
  assert (existsb (fun d => String.eqb (entry_name d) name) dir = true) as Ht.
  { apply existsb_exists. exists d. split; [by apply list_elem_of_In|].
    by apply String.eqb_eq. }
  by rewrite Ht in Hex.
Qed.

(** The removal loop unlinks only listed files, and only when the unlink
    succeeds; every other entry stays. *)
Lemma remove_archived_spec files dir removed failed :
  let r := remove_archived e files dir removed failed in
  exists gone,
    snd (fst r) = removed ++ gone
    /\ (forall f, f ∈ gone -> f ∈ files /\ unlink_ok e f = true)
    /\ (forall d, d ∈ fst (fst r) <-> d ∈ dir /\ entry_name d ∉ gone)
    /\ ((forall f, unlink_ok e f = true) ->
        forall d, d ∈ fst (fst r) -> entry_name d ∉ files).
Proof.
  revert dir removed failed.
  induction files as [|f files IH]; intros dir removed failed; simpl.
  - exists []. rewrite app_nil_r. split; [done|].
    split; [intros f Hf; by apply elem_of_nil in Hf|].
    split; [|intros _ d _ Hd; by apply elem_of_nil in Hd].
    intros d. split; [intros Hd; split; [done|]; apply not_elem_of_nil|tauto].
  - destruct (exists_in dir f) eqn:Hex; [destruct (unlink_ok e f) eqn:Hok|].
    + destruct (IH (unlink f dir) (removed ++ [f]) failed)
        as (gone & Hrem & Hgone & Hdir & Hall).
      exists (f :: gone). rewrite Hrem, <- app_assoc. split; [done|].
      split; [|split].
      * intros g [->|Hg]%elem_of_cons; [split; [left|done]|].
        destruct (Hgone g Hg). split; [by right|done].
      * intros d. rewrite Hdir, elem_of_unlink, not_elem_of_cons. tauto.
      * intros Hu d Hd. rewrite not_elem_of_cons. split; [|by apply Hall].
        apply Hdir in Hd as [Hd _]. by apply elem_of_unlink in Hd as [_ Hne].
    + destruct (IH dir removed (failed + 1)) as (gone & Hrem & Hgone & Hdir & Hall).
      exists gone. split; [done|]. split; [|split; [done|]].
      * intros g Hg. destruct (Hgone g Hg). split; [by right|done].
      * intros Hu. by rewrite Hu in Hok.
    + destruct (IH dir removed failed) as (gone & Hrem & Hgone & Hdir & Hall).
      exists gone. split; [done|]. split; [|split; [done|]].
      * intros g Hg. destruct (Hgone g Hg). split; [by right|done].
      * intros Hu d Hd. rewrite not_elem_of_cons. split; [|by apply Hall].
        apply Hdir in Hd as [Hd _]. by apply (exists_in_false dir f Hex).
Qed.

(** The clean-up loop unlinks only regular files among the listed title
    files, and only when the unlink succeeds; every other entry stays. *)
Lemma remove_titles_spec titles dir removed :
  let r := remove_titles e titles dir removed in
  exists gone,
    snd r = removed ++ gone
    /\ (forall t, t ∈ gone ->
          DirEntry t true ∈ titles /\ unlink_ok e t = true)
    /\ (forall d, d ∈ fst r <-> d ∈ dir /\ entry_name d ∉ gone)
    /\ ((forall f, unlink_ok e f = true) ->
        forall d t, d ∈ fst r -> t ∈ titles -> entry_is_file t = true ->
                    entry_name d <> entry_name t).
Proof.
  revert dir removed.
  induction titles as [|t titles IH]; intros dir removed; simpl.
  - exists []. rewrite app_nil_r. split; [done|].
    split; [intros f Hf; by apply elem_of_nil in Hf|].
    split; [|intros _ d t _ Ht; by apply elem_of_nil in Ht].
    intros d. split; [intros Hd; split; [done|]; apply not_elem_of_nil|tauto].
  - destruct (entry_is_file t) eqn:Hfile; simpl;
      [destruct (exists_in dir (entry_name t)) eqn:Hex;
       [destruct (unlink_ok e (entry_name t)) eqn:Hok|]|].
    + destruct (IH (unlink (entry_name t) dir) (removed ++ [entry_name t]))
        as (gone & Hrem & Hgone & Hdir & Hall).
      exists (entry_name t :: gone). rewrite Hrem, <- app_assoc. split; [done|].
      split; [|split].
      * intros g [->|Hg]%elem_of_cons.
        -- split; [|done]. destruct t as [name is_file]. simpl in *. subst. left.
        -- destruct (Hgone g Hg). split; [by right|done].
      * intros d. rewrite Hdir, elem_of_unlink, not_elem_of_cons. tauto.
      * intros Hu d t' Hd [->|Ht']%elem_of_cons Hf'; [|by apply (Hall Hu d t')].
        apply Hdir in Hd as [Hd _]. by apply elem_of_unlink in Hd as [_ Hne].
    + destruct (IH dir removed) as (gone & Hrem & Hgone & Hdir & Hall).
      exists gone. split; [done|]. split; [|split; [done|]].
      * intros g Hg. destruct (Hgone g Hg). split; [by right|done].
      * intros Hu. by rewrite Hu in Hok.
    + destruct (IH dir removed) as (gone & Hrem & Hgone & Hdir & Hall).
      exists gone. split; [done|]. split; [|split; [done|]].
      * intros g Hg. destruct (Hgone g Hg). split; [by right|done].
      * intros Hu d t' Hd [->|Ht']%elem_of_cons Hf'; [|by apply (Hall Hu d t')].
        apply Hdir in Hd as [Hd _]. by apply (exists_in_false dir _ Hex).
    + destruct (IH dir removed) as (gone & Hrem & Hgone & Hdir & Hall).
      exists gone. split; [done|]. split; [|split; [done|]].
      * intros g Hg. destruct (Hgone g Hg). split; [by right|done].
      * intros Hu d t' Hd [->|Ht']%elem_of_cons Hf'; [|by apply (Hall Hu d t')].
        by rewrite Hfile in Hf'.
Qed.

Lemma remove_titles_nothing titles dir removed :
  (forall t, t ∈ titles -> entry_is_file t = false) ->
  remove_titles e titles dir removed = (dir, removed).
Proof.
  revert dir removed. induction titles as [|t titles IH]; intros dir removed Hno;
    [done|].
  simpl. rewrite (Hno t) by left. simpl. apply IH. intros t' Ht'. apply Hno. by right.
Qed.

End ArchiverRuns.

Section ArchiverMain.

Import Ledger Archiver.

Context (e : env).

Lemma archive_name_not_range : Py.glob_match RANGE_PATTERN ARCHIVE_NAME = false.
Proof. reflexivity. Qed.


(** The script, phase by phase. *)
Lemma main_phases completed completed_ids_set dir members :
  load_tracked_ids completed = Ret completed_ids_set ->
  let files := complete_files dir completed_ids_set in
  let r := main e completed dir members in
  exists dir1 members1 status,
    match files with
    | [] => (dir, members, TarOk)
    | _ => write_archive e files dir members
    end = (dir1, members1, status)
    /\ files_to_archive r = files
    /\ archive_members r = members1
    /\ match status with
       | TarUncaught =>
           how_ended r = Traceback /\ archive_failure_reported r = false
           /\ out_dir r = dir1
           /\ removed_range_files r = [] /\ removed_title_files r = []
       | TarCaught =>
           how_ended r = RanToEnd /\ archive_failure_reported r = true
           /\ removed_range_files r = []
           /\ (out_dir r, removed_title_files r)
              = remove_titles e (glob TITLE_PATTERN dir1) dir1 []
       | TarOk =>
           how_ended r = RanToEnd /\ archive_failure_reported r = false
           /\ exists dir2 failed,
                remove_archived e files dir1 [] 0
                = (dir2, removed_range_files r, failed)
                /\ (out_dir r, removed_title_files r)
                   = remove_titles e (glob TITLE_PATTERN dir2) dir2 []
       end.
Proof.
  intros Hload files r. subst r. unfold main. rewrite Hload. fold files.
  destruct (match files with
            | [] => (dir, members, TarOk)
            | _ => write_archive e files dir members
            end) as [[dir1 members1] status] eqn:Ew.
  exists dir1, members1, status. split; [done|].
  destruct status.
  - destruct (remove_archived e files dir1 [] 0) as [[dir2 removed] failed] eqn:Er.
    destruct (remove_titles e (glob TITLE_PATTERN dir2) dir2 []) as [dir3 titles] eqn:Et.
    simpl. repeat split; try done. exists dir2, failed. by rewrite ?Et.
  - simpl.
    destruct (remove_titles e (glob TITLE_PATTERN dir1) dir1 []) as [dir3 titles] eqn:Et.
    simpl. by rewrite ?Et.
  - simpl. done.
Qed.

Lemma first_phase_dir completed_ids_set dir members dir1 members1 status :
  match complete_files dir completed_ids_set with
  | [] => (dir, members, TarOk)
  | _ => write_archive e (complete_files dir completed_ids_set) dir members
  end = (dir1, members1, status) ->
  dir1 = dir \/ dir1 = dir ++ [DirEntry ARCHIVE_NAME true].
Proof.
  destruct (complete_files dir completed_ids_set) as [|f files].
  - intros [= <- _ _]. by left.
  - intros Hw. pose proof (write_archive_spec e (f :: files) dir members) as [Hd _].
    by rewrite Hw in Hd.
Qed.

(** What can have happened to the entries of the directory. *)
Lemma main_effect completed completed_ids_set dir members :
  load_tracked_ids completed = Ret completed_ids_set ->
  let r := main e completed dir members in
  (forall d, d ∈ out_dir r -> d ∈ dir \/ d = DirEntry ARCHIVE_NAME true)
  /\ (forall d, d ∈ dir ->
        d ∈ out_dir r \/ entry_name d ∈ removed_range_files r
        \/ entry_name d ∈ removed_title_files r)
  /\ (forall f, f ∈ removed_range_files r ->
        f ∈ complete_files dir completed_ids_set /\ unlink_ok e f = true
        /\ how_ended r = RanToEnd /\ archive_failure_reported r = false
        /\ f ∈ archive_members r)
  /\ (forall t, t ∈ removed_title_files r ->
        Py.glob_match TITLE_PATTERN t = true /\ unlink_ok e t = true)
  /\ (forall d, d ∈ out_dir r ->
        (entry_name d ∉ removed_range_files r)
        /\ (entry_name d ∉ removed_title_files r)).
Proof.
  intros Hload r.
  destruct (main_phases completed completed_ids_set dir members Hload)
    as (dir1 & members1 & status & Hw & Hfiles & Hmem & Hst).
  fold r in Hfiles, Hmem, Hst.
  pose proof (first_phase_dir _ _ _ _ _ _ Hw) as Hdir1.
  assert (forall d, d ∈ dir1 <-> d ∈ dir \/ (d = DirEntry ARCHIVE_NAME true /\ dir1 <> dir))
    as Hin1.
  { intros d. destruct Hdir1 as [Heq1|Heq1]; rewrite Heq1; [tauto|].
    rewrite elem_of_app, list_elem_of_singleton. split.
    - intros [?| ->]; [by left|]. right. split; [done|].
      intros Heq. apply (f_equal length) in Heq. rewrite length_app in Heq.
      simpl in Heq. lia.
    - intros [?|[-> _]]; [by left|by right]. }
  assert (forall t dirx, DirEntry t true ∈ glob TITLE_PATTERN dirx ->
            Py.glob_match TITLE_PATTERN t = true) as Htitle.
  { intros t dirx Ht. by apply elem_of_glob in Ht as [_ Ht]. }
  destruct status.
  - destruct Hst as (Hend & Hrep & dir2 & failed & Hra & Hrt).
    destruct (remove_archived_spec e (complete_files dir completed_ids_set) dir1 [] 0)
      as (gone & Hg1 & Hg2 & Hg3 & _).
    rewrite Hra in Hg1, Hg3. simpl in Hg1, Hg3.
    destruct (remove_titles_spec e (glob TITLE_PATTERN dir2) dir2 [])
      as (gone' & Ht1 & Ht2 & Ht3 & _).
    rewrite <- Hrt in Ht1, Ht3. simpl in Ht1, Ht3.
    rewrite Hg1, Ht1.
    assert (forall f, f ∈ complete_files dir completed_ids_set -> f ∈ members1)
      as Harch.
    { intros f Hf.
      destruct (complete_files dir completed_ids_set) as [|f0 files] eqn:Ef;
        [by apply elem_of_nil in Hf|].
      pose proof (write_archive_spec e (f0 :: files) dir members)
        as (_ & added & _ & Hok & Happ & Hnew).
      rewrite Hw in Hok, Happ, Hnew. simpl in Hok, Happ, Hnew.
      destruct (exists_in dir ARCHIVE_NAME).
      - rewrite Happ, Hok by done. apply elem_of_app. by right.
      - by rewrite Hnew, Hok. }
    split; [|split; [|split; [|split]]].
    + intros d Hd. apply Ht3 in Hd as [Hd _]. apply Hg3 in Hd as [Hd _].
      apply Hin1 in Hd. tauto.
    + intros d Hd.
      destruct (decide (entry_name d ∈ gone)) as [?|Hn1]; [by right; left|].
      destruct (decide (entry_name d ∈ gone')) as [?|Hn2]; [by right; right|].
      left. apply Ht3. split; [|done]. apply Hg3. split; [|done].
      apply Hin1. by left.
    + intros f Hf. destruct (Hg2 f Hf) as [Hc Hu].
      split; [done|]. split; [done|]. split; [done|]. split; [done|].
      rewrite Hmem. by apply Harch.
    + intros t Ht. destruct (Ht2 t Ht) as [Hin Hu]. split; [|done].
      by apply (Htitle t dir2).
    + intros d Hd. apply Ht3 in Hd as [Hd Hn2]. apply Hg3 in Hd as [_ Hn1]. done.
  - destruct Hst as (Hend & Hrep & Hnone & Hrt).
    destruct (remove_titles_spec e (glob TITLE_PATTERN dir1) dir1 [])
      as (gone' & Ht1 & Ht2 & Ht3 & _).
    rewrite <- Hrt in Ht1, Ht3. simpl in Ht1, Ht3.
    rewrite Hnone, Ht1.
    split; [|split; [|split; [|split]]].
    + intros d Hd. apply Ht3 in Hd as [Hd _]. apply Hin1 in Hd. tauto.
    + intros d Hd.
      destruct (decide (entry_name d ∈ gone')) as [?|Hn2]; [by right; right|].
      left. apply Ht3. split; [|done]. apply Hin1. by left.
    + intros f Hf. by apply elem_of_nil in Hf.
    + intros t Ht. destruct (Ht2 t Ht) as [Hin Hu]. split; [|done].
      by apply (Htitle t dir1).
    + intros d Hd. apply Ht3 in Hd as [_ Hn2]. split; [apply not_elem_of_nil|done].
  - destruct Hst as (Hend & Hrep & Hout & Hnone & Hnone').
    rewrite Hnone, Hnone', Hout.
    split; [|split; [|split; [|split]]].
    + intros d Hd. apply Hin1 in Hd. tauto.
    + intros d Hd. left. apply Hin1. by left.
    + intros f Hf. by apply elem_of_nil in Hf.
    + intros t Ht. by apply elem_of_nil in Ht.
    + intros d _. split; apply not_elem_of_nil.
Qed.

End ArchiverMain.

Section ArchiverSafety.

Import Ledger Archiver.

Context (e : env).


Lemma main_exited_early completed dir members code :
  load_tracked_ids completed = SysExit code ->
  main e completed dir members = Result dir members [] [] [] false (ExitedEarly code).
Proof. intros Hload. unfold main. by rewrite Hload. Qed.

Lemma add_all_ok files members :
  (forall f, tar_add e f = TarOk) -> snd (add_all e files members) = TarOk.
Proof.
  intros Hadd. revert members. induction files as [|f files IH]; intros members;
    [done|].
  simpl. rewrite Hadd. apply IH.
Qed.

Lemma write_archive_ok files dir members :
  tar_open e = TarOk -> (forall f, tar_add e f = TarOk) -> tar_close e = TarOk ->
  snd (write_archive e files dir members) = TarOk.
Proof.
  intros Hopen Hadd Hclose. unfold write_archive. rewrite Hopen.
  pose proof (add_all_ok files (if exists_in dir ARCHIVE_NAME then members else [])
                Hadd) as Hok.
  destruct (add_all e files _) as [members' status]. simpl in Hok. by subst status.
Qed.

Lemma no_complete_files_without_ids dir :
  complete_files dir ∅ = [].
Proof.
  destruct (complete_files dir ∅) as [|f files] eqn:E; [done|]. exfalso.
  assert (f ∈ complete_files dir ∅) as Hf by (rewrite E; left).
  apply elem_of_complete_files in Hf as (n & kmin & kmax & _ & _ & _ & Hlt & Hall).
  pose proof (constituent_ids_nonempty n kmin kmax Hlt) as Hne.
  destruct (constituent_ids n kmin kmax) as [|id ids]; [done|].
  by apply (not_elem_of_empty (C:=gset string) id), Hall; left.
Qed.

End ArchiverSafety.

(** X4.  In every run of the archiving script, whatever fails: a range file
    is unlinked only if it belongs to the batch of Complete files, the
    archive write of the whole batch succeeded (no failure reported, the run
    reached its end) and the file is a member of the archive. *)
Theorem removed_only_after_archived e completed dir members f :
  let r := Archiver.main e completed dir members in
  f ∈ Archiver.removed_range_files r ->
  f ∈ Archiver.files_to_archive r
  /\ f ∈ Archiver.archive_members r
  /\ Archiver.unlink_ok e f = true
  /\ Archiver.archive_failure_reported r = false
  /\ Archiver.how_ended r = Archiver.RanToEnd.
Proof.
  intros r Hf. subst r.
  destruct (Ledger.load_tracked_ids completed) as [completed_ids_set|code] eqn:Hload.
  - destruct (main_effect e completed completed_ids_set dir members Hload)
      as (_ & _ & Hremoved & _).
    destruct (main_phases e completed completed_ids_set dir members Hload)
      as (_ & _ & _ & _ & Hfiles & _).
    destruct (Hremoved f Hf) as (Hc & Hu & Hend & Hrep & Harch).
    by rewrite Hfiles.
  - rewrite (main_exited_early e completed dir members code Hload) in Hf.
    by apply elem_of_nil in Hf.
Qed.

Lemma removed_only_after_archived_witness :
  "uni_16_5_8.txt"
  ∈ Archiver.archive_members
      (Archiver.main example_working_tar (Ledger.Content example_completed)
         example_dir []).
Proof.
  apply (removed_only_after_archived example_working_tar
           (Ledger.Content example_completed) example_dir [] "uni_16_5_8.txt").
  vm_compute. right. left.
Defined.



(** X6.  A run of the archiving script creates nothing in out/ but the
    archive file, and an entry that is gone afterwards was either a range
    file of the Complete batch that is now a member of the archive, or was
    unlinked by the title clean-up and has a name matching *.title.  So
    range files that are not Complete, the archive and unrelated files stay. *)
Theorem only_archived_and_title_files_disappear e completed dir members :
  let r := Archiver.main e completed dir members in
  (forall d, d ∈ Archiver.out_dir r ->
     d ∈ dir \/ d = Archiver.DirEntry Archiver.ARCHIVE_NAME true)
  /\ (forall d, d ∈ dir -> d ∉ Archiver.out_dir r ->
        (Archiver.entry_name d ∈ Archiver.removed_range_files r
         /\ Archiver.entry_name d ∈ Archiver.files_to_archive r
         /\ Archiver.entry_name d ∈ Archiver.archive_members r)
        \/ (Archiver.entry_name d ∈ Archiver.removed_title_files r
            /\ Py.glob_match Archiver.TITLE_PATTERN (Archiver.entry_name d) = true))
  /\ (forall d, d ∈ dir ->
        Py.glob_match Archiver.TITLE_PATTERN (Archiver.entry_name d) = false ->
        Archiver.entry_name d ∉ Archiver.files_to_archive r ->
        d ∈ Archiver.out_dir r).
Proof.
  intros r. subst r.
  destruct (Ledger.load_tracked_ids completed) as [completed_ids_set|code] eqn:Hload.
  - destruct (main_effect e completed completed_ids_set dir members Hload)
      as (Hnew & Hfate & Hremoved & Htitles & _).
    destruct (main_phases e completed completed_ids_set dir members Hload)
      as (_ & _ & _ & _ & Hfiles & _).
    split; [done|]. split.
    + intros d Hd Hgone. destruct (Hfate d Hd) as [?|[Hr|Ht]]; [done|..].
      * left. destruct (Hremoved _ Hr) as (Hc & _ & _ & _ & Harch).
        by rewrite Hfiles.
      * right. by destruct (Htitles _ Ht).
    + intros d Hd Hnt Hnc. destruct (Hfate d Hd) as [?|[Hr|Ht]]; [done|..].
      * destruct (Hremoved _ Hr) as (Hc & _). by rewrite Hfiles in Hnc.
      * destruct (Htitles _ Ht) as (Hm & _). by rewrite Hm in Hnt.
  - rewrite (main_exited_early e completed dir members code Hload). simpl.
    split; [by left|]. split; [done|done].
Qed.

(** X7.  With a tar library and a file system that do not fail, a run
    archives every file of the batch and leaves none of them in out/, and a
    second run on the result finds nothing to archive and changes nothing:
    same directory, same archive members, nothing removed. *)
Theorem archiver_is_idempotent e completed completed_ids_set dir members :
  Ledger.load_tracked_ids completed = Ledger.Ret completed_ids_set ->
  Archiver.tar_open e = Archiver.TarOk ->
  (forall f, Archiver.tar_add e f = Archiver.TarOk) ->
  Archiver.tar_close e = Archiver.TarOk ->
  (forall f, Archiver.unlink_ok e f = true) ->
  let r1 := Archiver.main e completed dir members in
  let r2 := Archiver.main e completed (Archiver.out_dir r1)
              (Archiver.archive_members r1) in
  (forall f, f ∈ Archiver.files_to_archive r1 ->
     f ∈ Archiver.archive_members r1
     /\ forall d, d ∈ Archiver.out_dir r1 -> Archiver.entry_name d <> f)
  /\ Archiver.complete_files (Archiver.out_dir r1) completed_ids_set = []
  /\ r2 = Archiver.Result (Archiver.out_dir r1) (Archiver.archive_members r1)
            [] [] [] false Archiver.RanToEnd.
Proof.
  intros Hload Hopen Hadd Hclose Hunlink r1 r2.
  destruct (main_phases e completed completed_ids_set dir members Hload)
    as (dir1 & members1 & status & Hw & Hfiles & Hmem & Hst).
  fold r1 in Hfiles, Hmem, Hst.
  pose proof (first_phase_dir _ _ _ _ _ _ _ Hw) as Hdir1.
  assert (status = Archiver.TarOk) as ->.
  { destruct (Archiver.complete_files dir completed_ids_set) as [|f0 files].
    - by injection Hw as _ _ <-.
    - pose proof (write_archive_ok e (f0 :: files) dir members Hopen Hadd Hclose) as Hok.
      by rewrite Hw in Hok. }
  destruct Hst as (Hend & Hrep & dir2 & failed & Hra & Hrt).
  destruct (remove_archived_spec e (Archiver.complete_files dir completed_ids_set)
              dir1 [] 0) as (gone & _ & _ & Hg3 & Hclean).
  rewrite Hra in Hg3, Hclean. simpl in Hg3, Hclean.
  destruct (remove_titles_spec e (Archiver.glob Archiver.TITLE_PATTERN dir2) dir2 [])
    as (gone' & _ & _ & Ht3 & Htclean).
  rewrite <- Hrt in Ht3, Htclean. simpl in Ht3, Htclean.
  assert (forall d, d ∈ Archiver.out_dir r1 ->
            Archiver.entry_name d ∉ Archiver.complete_files dir completed_ids_set)
    as Hnone.
  { intros d Hd. apply Hclean; [done|]. by apply Ht3 in Hd as [Hd _]. }
  assert (Archiver.complete_files (Archiver.out_dir r1) completed_ids_set = [])
    as Hempty.
  { destruct (Archiver.complete_files (Archiver.out_dir r1) completed_ids_set)
      as [|f files] eqn:E; [done|]. exfalso.
    assert (f ∈ Archiver.complete_files (Archiver.out_dir r1) completed_ids_set)
      as Hf by (rewrite E; left).
    apply elem_of_complete_files in Hf
      as (n & kmin & kmax & Hd & Hglob & Hparse & Hlt & Hall).
    apply (Hnone _ Hd). simpl. apply elem_of_complete_files.
    exists n, kmin, kmax. split; [|done].
    apply Ht3 in Hd as [Hd _]. apply Hg3 in Hd as [Hd _].
    destruct Hdir1 as [->| ->]; [done|].
    apply elem_of_app in Hd as [Hd|Hd]; [done|].
    apply list_elem_of_singleton in Hd. injection Hd as ->.
    by rewrite archive_name_not_range in Hglob. }
  split; [|split; [done|]].
  - intros f Hf. rewrite Hfiles in Hf. split.
    + destruct (main_effect e completed completed_ids_set dir members Hload)
        as (_ & _ & _ & _ & _).
      rewrite Hmem.
      destruct (Archiver.complete_files dir completed_ids_set) as [|f0 files] eqn:Ef;
        [by apply elem_of_nil in Hf|].
      pose proof (write_archive_spec e (f0 :: files) dir members)
        as (_ & added & _ & Hok & Happ & Hnew).
      rewrite Hw in Hok, Happ, Hnew. simpl in Hok, Happ, Hnew.
      destruct (Archiver.exists_in dir Archiver.ARCHIVE_NAME).
      * rewrite Happ, Hok by done. apply elem_of_app. by right.
      * by rewrite Hnew, Hok.
    + intros d Hd Heq. apply (Hnone d Hd). by rewrite Heq.
  - subst r2. unfold Archiver.main. rewrite Hload, Hempty. simpl.
    rewrite remove_titles_nothing; [done|].
    intros t Ht. apply elem_of_glob in Ht as [Ht Hm].
    destruct (Archiver.entry_is_file t) eqn:Hfile; [|done]. exfalso.
    apply (Htclean Hunlink t t); [done| |done|done].
    apply elem_of_glob. split; [|done]. by apply Ht3 in Ht as [Ht _].
Qed.

Lemma archiver_is_idempotent_witness :
  Archiver.main example_working_tar (Ledger.Content example_completed)
    (Archiver.out_dir
       (Archiver.main example_working_tar (Ledger.Content example_completed)
          example_dir []))
    (Archiver.archive_members
       (Archiver.main example_working_tar (Ledger.Content example_completed)
          example_dir []))
  = Archiver.Result
      (Archiver.out_dir
         (Archiver.main example_working_tar (Ledger.Content example_completed)
            example_dir []))
      (Archiver.archive_members
         (Archiver.main example_working_tar (Ledger.Content example_completed)
            example_dir []))
      [] [] [] false Archiver.RanToEnd.
Proof.
  apply (archiver_is_idempotent example_working_tar (Ledger.Content example_completed)
           (Ledger.id_set_of_text example_completed) example_dir []);
    reflexivity.
Defined.

(** X8.  While no ID is completed (completed_ids.txt is missing or holds
    no ID), no range file is ever Complete: nothing is archived, no range
    file is unlinked, the archive members stay as they are, and every entry
    whose name does not match *.title stays in out/. *)
Theorem nothing_archived_without_completed_ids e completed dir members :
  Ledger.load_tracked_ids completed = Ledger.Ret ∅ ->
  let r := Archiver.main e completed dir members in
  Archiver.files_to_archive r = []
  /\ Archiver.removed_range_files r = []
  /\ Archiver.archive_members r = members
  /\ Archiver.archive_failure_reported r = false
  /\ (forall d, d ∈ dir ->
        Py.glob_match Archiver.TITLE_PATTERN (Archiver.entry_name d) = false ->
        d ∈ Archiver.out_dir r).
Proof.
  intros Hload r.
  destruct (main_phases e completed ∅ dir members Hload)
    as (dir1 & members1 & status & Hw & Hfiles & Hmem & Hst).
  destruct (main_effect e completed ∅ dir members Hload)
    as (_ & Hfate & Hremoved & Htitles & _).
  fold r in Hfiles, Hmem, Hst, Hfate, Hremoved, Htitles.
  rewrite no_complete_files_without_ids in Hw, Hfiles, Hst.
  injection Hw as <- <- <-.
  destruct Hst as (_ & Hrep & dir2 & failed & Hra & _).
  simpl in Hra. injection Hra as _ Hnone _.
  split; [done|]. split; [done|]. split; [done|]. split; [done|].
  intros d Hd Hnt. destruct (Hfate d Hd) as [?|[Hr|Ht]]; [done|..].
  - rewrite <- Hnone in Hr. by apply elem_of_nil in Hr.
  - destruct (Htitles _ Ht) as (Hm & _). by rewrite Hm in Hnt.
Qed.

Lemma nothing_archived_without_completed_ids_witness :
  Archiver.files_to_archive
    (Archiver.main example_working_tar Ledger.Absent example_dir []) = []
  /\ Archiver.removed_range_files
       (Archiver.main example_working_tar Ledger.Absent example_dir []) = [].
Proof.
  destruct (nothing_archived_without_completed_ids example_working_tar
              Ledger.Absent example_dir []) as (Hfiles & Hremoved & _).
  - reflexivity.
  - split; [exact Hfiles|exact Hremoved].
Defined.

(** ** Accounting of a Dispatcher run *)

Section Accounting.

Import Ledger Dispatcher.

Context (cfg : config) (e : env).

Lemma count_events_app P tr1 tr2 :
  count_events P (tr1 ++ tr2) = count_events P tr1 + count_events P tr2.
Proof. unfold count_events. rewrite List.filter_app, length_app. lia. Qed.

Lemma appended_ids_app tr1 tr2 :
  appended_ids (tr1 ++ tr2) = appended_ids tr1 ++ appended_ids tr2.
Proof. unfold appended_ids. apply flat_map_app. Qed.

Lemma qsub_kmins_app tr1 tr2 :
  qsub_kmins (tr1 ++ tr2) = qsub_kmins tr1 ++ qsub_kmins tr2.
Proof. unfold qsub_kmins. apply flat_map_app. Qed.

(** The events and counters of one claimed range. *)
Lemma claim_and_submit_counts kmin kmax ids st :
  let r := claim_and_submit cfg e kmin kmax ids st in
  exists evs,
    trace (fst r) = trace st ++ evs
    /\ submitted_count (fst r) = submitted_count st + count_events is_qsub_ok evs
    /\ error_count (fst r) = error_count st + count_events is_failure evs
    /\ skipped_ranges_count (fst r) = skipped_ranges_count st
    /\ count_events is_append evs = 1
    /\ count_events is_qsub_ok evs + count_events is_failure evs = 1
    /\ appended_ids evs = ids
    /\ (qsub_kmins evs = [] \/ qsub_kmins evs = [kmin]).
Proof.
  unfold claim_and_submit, mark_started, submit, append_ids_to_file.
  destruct (append_result e kmin); destruct (config_write_ok e kmin);
    try destruct (qsub e kmin); simpl; rewrite <- ?app_assoc;
    (eexists; split; [reflexivity|]); simpl; rewrite ?app_nil_r.
  all: unfold count_events; simpl; repeat split; auto; lia.
Qed.

(** The events and counters of one pass of the loop body. *)
Lemma loop_body_counts kmin st st' c :
  loop_body cfg e kmin st = (st', c) ->
  exists evs,
    trace st' = trace st ++ evs
    /\ submitted_count st' = submitted_count st + count_events is_qsub_ok evs
    /\ error_count st' = error_count st + count_events is_failure evs
    /\ skipped_ranges_count st' + count_events is_append evs
       = skipped_ranges_count st + 1
    /\ count_events is_qsub_ok evs + count_events is_failure evs
       = count_events is_append evs
    /\ 0 <= count_events is_append evs <= 1
    /\ (qsub_kmins evs = [] \/ qsub_kmins evs = [kmin])
    /\ (appended_ids evs = []
        \/ (appended_ids evs = constituent_ids (N cfg) kmin (kmax_of cfg kmin)
            /\ forall id, id ∈ appended_ids evs -> id ∉ started_ids_set st))
    /\ started_ids_set st' = started_ids_set st ∪ list_to_set (appended_ids evs).
Proof.
  intros Hbody.
  destruct (loop_body_cases cfg e kmin st) as [Hskip|(Hne & Hclear & Hclaim)].
  - rewrite Hskip in Hbody. injection Hbody as <- <-. exists [].
    rewrite app_nil_r. simpl. unfold count_events. simpl.
    repeat split; try done; try lia; auto.
    by rewrite union_empty_r_L.
  - rewrite Hclaim in Hbody.
    destruct (claim_and_submit_counts kmin (kmax_of cfg kmin)
                (constituent_ids (N cfg) kmin (kmax_of cfg kmin)) st)
      as (evs & Htr & Hsub & Herr & Hskip & Happ & Hone & Hids & Hk).
    destruct (claim_and_submit_spec cfg e kmin (kmax_of cfg kmin)
                (constituent_ids (N cfg) kmin (kmax_of cfg kmin)) st)
      as (tail & _ & _ & _ & Hset & _).
    rewrite Hbody in Htr, Hsub, Herr, Hskip, Hset. simpl in *.
    exists evs. rewrite Hids.
    assert (0 <= count_events is_qsub_ok evs)
      by (unfold count_events; lia).
    assert (0 <= count_events is_failure evs)
      by (unfold count_events; lia).
    repeat split; try done; try lia. right. done.
Qed.

Lemma main_loop_invariant_guarded (P : state -> Prop) kmins st :
  P st ->
  (forall kmin st0 st' c,
     P st0 -> submitted_count st0 < MAX_JOBS cfg ->
     loop_body cfg e kmin st0 = (st', c) -> P st') ->
  P (main_loop cfg e kmins st).
Proof.
  intros Hst Hstep. revert st Hst.
  induction kmins as [|kmin rest IH]; intros st Hst; simpl; [done|].
  destruct (Z.leb_spec (MAX_JOBS cfg) (submitted_count st)); [done|].
  destruct (loop_body cfg e kmin st) as [st' c] eqn:E.
  assert (P st') by (by apply (Hstep kmin st st' c)).
  destruct c; auto.
Qed.

(** The counters are the counts of the trace. *)
Lemma main_loop_counts kmins st :
  let st' := main_loop cfg e kmins st in
  exists evs,
    trace st' = trace st ++ evs
    /\ submitted_count st' = submitted_count st + count_events is_qsub_ok evs
    /\ error_count st' = error_count st + count_events is_failure evs
    /\ skipped_ranges_count st' + count_events is_append evs
       <= skipped_ranges_count st + Z.of_nat (length kmins)
    /\ skipped_ranges_count st <= skipped_ranges_count st'
    /\ count_events is_qsub_ok evs + count_events is_failure evs
       = count_events is_append evs
    /\ qsub_kmins evs `sublist_of` kmins.
Proof.
  revert st. induction kmins as [|kmin rest IH]; intros st; simpl.
  - exists []. rewrite app_nil_r. unfold count_events. simpl.
    repeat split; try lia. done.
  - destruct (Z.leb_spec (MAX_JOBS cfg) (submitted_count st)).
    { exists []. rewrite app_nil_r. unfold count_events. simpl.
      repeat split; try lia. apply sublist_nil_l. }
    destruct (loop_body cfg e kmin st) as [st1 c] eqn:E.
    destruct (loop_body_counts kmin st st1 c E)
      as (evs1 & Htr1 & Hsub1 & Herr1 & Hskip1 & Hsum1 & Hb1 & Hk1 & _).
    assert (qsub_kmins evs1 `sublist_of` [kmin]) as Hsl1.
    { destruct Hk1 as [-> | ->]; [apply sublist_nil_l|done]. }
    destruct c.
    + destruct (IH st1) as (evs2 & Htr2 & Hsub2 & Herr2 & Hskip2 & Hmono2 & Hsum2 & Hsl2).
      exists (evs1 ++ evs2). rewrite Htr2, Htr1, <- app_assoc.
      rewrite !count_events_app, qsub_kmins_app.
      repeat split; try lia.
      change (kmin :: rest) with ([kmin] ++ rest). by apply sublist_app.
    + exists evs1. repeat split; try lia; try done.
      change (kmin :: rest) with ([kmin] ++ rest).
      rewrite <- (app_nil_r (qsub_kmins evs1)).
      apply sublist_app; [done|apply sublist_nil_l].
Qed.

Lemma sublist_strongly_sorted {A} (R : relation A) l1 l2 :
  l1 `sublist_of` l2 -> StronglySorted R l2 -> StronglySorted R l1.
Proof.
  induction 1 as [|x l1 l2 Hsub IH|x l1 l2 Hsub IH]; intros Hs; [done|..].
  - apply StronglySorted_inv in Hs as [Hs Hall]. constructor; [by apply IH|].
    apply Forall_forall. intros y Hy. rewrite Forall_forall in Hall.
    apply Hall. by apply (elem_of_sublist l1 l2).
  - apply StronglySorted_inv in Hs as [Hs _]. by apply IH.
Qed.

Lemma range_strongly_sorted start stop step :
  0 < step -> StronglySorted Z.lt (Py.range start stop step).
Proof.
  intros Hs.
  remember (Py.range_len start stop step) as len eqn:Hlen.
  revert start Hlen. induction len as [|len IH]; intros start Hlen.
  - unfold Py.range. rewrite <- Hlen. constructor.
  - destruct (Z.lt_ge_cases start stop) as [Hlt|Hge];
      [|by rewrite range_len_empty in Hlen].
    rewrite range_cons by done. constructor.
    + apply IH. pose proof (range_length start stop step) as HL.
      rewrite range_cons in HL by done. simpl in HL.
      rewrite range_length in HL. lia.
    + apply Forall_forall. intros k Hk. apply elem_of_range in Hk; [lia|done].
Qed.

End Accounting.

Section RunAccounting.

Import Ledger Dispatcher.

Context (cfg : config) (e : env).

Lemma count_events_nonneg P tr : 0 <= count_events P tr.
Proof. unfold count_events. lia. Qed.

Lemma main_loop_cap kmins st :
  submitted_count st <= Z.max 0 (MAX_JOBS cfg) ->
  submitted_count (main_loop cfg e kmins st) <= Z.max 0 (MAX_JOBS cfg).
Proof.
  intros Hst.
  apply (main_loop_invariant_guarded cfg e
           (fun st => submitted_count st <= Z.max 0 (MAX_JOBS cfg))); [done|].
  intros kmin st0 st' c _ Hlt Hbody.
  destruct (loop_body_counts cfg e kmin st0 st' c Hbody)
    as (evs & _ & Hsub & _ & _ & Hsum & Hb & _).
  pose proof (count_events_nonneg is_failure evs). lia.
Qed.

Lemma constituent_ids_clean n kmin kmax :
  Forall clean_id (constituent_ids n kmin kmax).
Proof.
  apply Forall_forall.
  intros id (k & -> & _)%elem_of_constituent_ids. apply id_str_clean.
Qed.

(** What a run appends: no ID twice, none that was already started, and
    the in-memory set is the loaded set plus the appended IDs. *)
Lemma main_loop_appended kmins st :
  let st' := main_loop cfg e kmins st in
  exists evs,
    trace st' = trace st ++ evs
    /\ NoDup (appended_ids evs)
    /\ (forall id, id ∈ appended_ids evs -> id ∉ started_ids_set st)
    /\ started_ids_set st' = started_ids_set st ∪ list_to_set (appended_ids evs).
Proof.
  simpl.
  apply (main_loop_invariant cfg e (fun st' =>
    exists evs,
      trace st' = trace st ++ evs
      /\ NoDup (appended_ids evs)
      /\ (forall id, id ∈ appended_ids evs -> id ∉ started_ids_set st)
      /\ started_ids_set st' = started_ids_set st ∪ list_to_set (appended_ids evs))).
  - exists []. rewrite app_nil_r. simpl. repeat split; [constructor| |].
    + intros id Hid. by apply elem_of_nil in Hid.
    + by rewrite union_empty_r_L.
  - intros kmin st0 st1 c (evs0 & Htr0 & Hnd0 & Hnew0 & Hset0) Hbody.
    destruct (loop_body_counts cfg e kmin st0 st1 c Hbody)
      as (evs1 & Htr1 & _ & _ & _ & _ & _ & _ & Hids1 & Hset1).
    exists (evs0 ++ evs1). rewrite Htr1, Htr0, <- app_assoc.
    rewrite appended_ids_app. split; [done|].
    destruct Hids1 as [Hnil|[Hids1 Hfresh]].
    + rewrite Hnil in *. rewrite app_nil_r. repeat split; try done.
      rewrite Hset1, Hset0. simpl. by rewrite union_empty_r_L.
    + repeat split.
      * apply NoDup_app. split; [done|]. split.
        -- intros id Hid0 Hid1. apply (Hfresh id Hid1).
           rewrite Hset0. by apply elem_of_union_r, elem_of_list_to_set.
        -- rewrite Hids1. apply constituent_ids_NoDup.
      * intros id [Hid|Hid]%elem_of_app; [by apply Hnew0|].
        intros Hin. apply (Hfresh id Hid). rewrite Hset0.
        by apply elem_of_union_l.
      * rewrite Hset1, Hset0, list_to_set_app_L. by rewrite union_assoc_L.
Qed.

(** The text of the ledger only grows, and what is added never begins
    with a line feed. *)
Lemma str_take_no_leading_lf n s :
  no_leading_lf s -> no_leading_lf (Py.str_take n s).
Proof.
  intros Hs r. destruct n as [|n]; [done|]. destruct s as [|c s]; [done|].
  simpl. intros [= -> _]. by apply (Hs s).
Qed.

Lemma no_leading_lf_app s t :
  no_leading_lf s -> no_leading_lf t -> no_leading_lf (s +:+ t).
Proof.
  intros Hs Ht r. destruct s as [|c s]; [rewrite app_empty_l; apply Ht|].
  rewrite app_cons. intros [= -> _]. by apply (Hs s).
Qed.

Lemma ledger_after_grows started0 content tr :
  appends_are_claims cfg started0 tr ->
  exists extra,
    ledger_after content tr = content +:+ extra /\ no_leading_lf extra.
Proof.
  revert content. induction tr as [|ev tr IH]; intros content Hclaims.
  - exists "". split; [by rewrite app_empty_r|done].
  - assert (appends_are_claims cfg started0 tr) as Htl.
    { intros ids wres Hin. apply (Hclaims ids wres). by right. }
    destruct ev as [ids wres| | |]; simpl; try by apply IH.
    destruct (Hclaims ids wres) as (_ & _ & kmin & Hids); [by left|].
    assert (no_leading_lf (lines_of_ids ids)) as Hlf.
    { intros r. apply lines_of_ids_start. rewrite Hids.
      apply constituent_ids_clean. }
    destruct wres as [|written]; simpl.
    + destruct (IH (content +:+ lines_of_ids ids) Htl) as (extra & -> & Hex).
      exists (lines_of_ids ids +:+ extra). split; [by rewrite app_assoc'|].
      by apply no_leading_lf_app.
    + destruct (IH (content +:+ Py.str_take written (lines_of_ids ids)) Htl)
        as (extra & -> & Hex).
      exists (Py.str_take written (lines_of_ids ids) +:+ extra).
      split; [by rewrite app_assoc'|].
      apply no_leading_lf_app; [by apply str_take_no_leading_lf|done].
Qed.

(** Text added after a terminated last line leaves the IDs of the
    earlier lines in the set that is read back. *)
Lemma id_set_of_text_extended content extra :
  line_terminated content -> no_leading_lf extra ->
  id_set_of_text content ⊆ id_set_of_text (content +:+ extra).
Proof.
  intros Hterm Hlf. unfold id_set_of_text, Py.file_lines.
  rewrite universal_newlines_app by done.
  rewrite (split_lines_app true);
    [|apply universal_newlines_no_cr|by apply universal_newlines_ends_line].
  rewrite List.filter_app, map_app, list_to_set_app_L.
  apply union_subseteq_l.
Qed.

Lemma lines_of_ids_app ids1 ids2 :
  lines_of_ids (ids1 ++ ids2) = lines_of_ids ids1 +:+ lines_of_ids ids2.
Proof.
  induction ids1 as [|id ids1 IH]; [by rewrite app_empty_l|].
  simpl. rewrite IH. by rewrite !app_assoc'.
Qed.

Lemma ledger_after_all_ok content tr :
  (forall ids wres, LedgerAppend ids wres ∈ tr -> wres = WriteOk) ->
  ledger_after content tr = content +:+ lines_of_ids (appended_ids tr).
Proof.
  revert content. induction tr as [|ev tr IH]; intros content Hok.
  - by rewrite app_empty_r.
  - assert (forall ids wres, LedgerAppend ids wres ∈ tr -> wres = WriteOk) as Htl.
    { intros ids wres Hin. apply (Hok ids wres). by right. }
    destruct ev as [ids wres| | |]; simpl; try by apply IH.
    rewrite (Hok ids wres) by (by left). simpl.
    rewrite IH by done. by rewrite lines_of_ids_app, app_assoc'.
Qed.

End RunAccounting.

Section LedgerGrowth.

Import Ledger Dispatcher.

Context (cfg : config) (e : env).

Lemma str_app_inv_head (s t u : string) : s +:+ t = s +:+ u -> t = u.
Proof.
  induction s as [|c s IH]; [by rewrite !app_empty_l|].
  rewrite !app_cons. intros [= H]. by apply IH.
Qed.

Lemma appended_ids_no_append tl :
  forallb (fun ev => negb (is_append ev)) tl = true -> appended_ids tl = [].
Proof.
  induction tl as [|ev tl IH]; [done|]. simpl.
  intros [Hev Htl]%andb_true_iff. destruct ev; try done; by apply IH.
Qed.

Lemma main_loop_file_all_ok kmins st :
  (forall k, append_result e k = WriteOk) ->
  exists evs,
    trace (main_loop cfg e kmins st) = trace st ++ evs
    /\ started_file (main_loop cfg e kmins st)
       = started_file st +:+ lines_of_ids (appended_ids evs).
Proof.
  intros Hok.
  apply (main_loop_invariant cfg e (fun st' =>
    exists evs,
      trace st' = trace st ++ evs
      /\ started_file st' = started_file st +:+ lines_of_ids (appended_ids evs))).
  - exists []. by rewrite app_nil_r, app_empty_r.
  - intros kmin st0 st1 c (evs0 & Htr0 & Hfile0) Hbody.
    destruct (loop_body_cases cfg e kmin st0) as [Hskip|(_ & _ & Hclaim)].
    { rewrite Hskip in Hbody. injection Hbody as <- <-. by exists evs0. }
    rewrite Hclaim in Hbody.
    destruct (claim_and_submit_spec cfg e kmin (kmax_of cfg kmin)
                (constituent_ids (N cfg) kmin (kmax_of cfg kmin)) st0)
      as (tl & Htr & Hna & Hfile & _).
    rewrite Hbody, Hok in Htr, Hfile. simpl in Htr, Hfile.
    eexists (evs0 ++ _ :: tl). rewrite Htr, Htr0, <- app_assoc.
    split; [reflexivity|].
    rewrite Hfile, Hfile0, appended_ids_app. simpl.
    rewrite (appended_ids_no_append tl Hna), app_nil_r.
    by rewrite lines_of_ids_app, app_assoc'.
Qed.

End LedgerGrowth.

(** X9. In a run that reaches the summary, the three counters it prints
    are the counts of what happened: [submitted_count] is the number of
    qsub calls that succeeded, [error_count] the number of failed config
    writes and failed qsub calls, every range that was claimed in the
    ledger was either submitted or counted as an error, and skipped plus
    claimed ranges never exceed the number of ranges of the partition. *)
Theorem counters_account_for_the_trace cfg e started st :
  Dispatcher.main cfg e started = Dispatcher.Finished st ->
  Dispatcher.submitted_count st = count_events is_qsub_ok (Dispatcher.trace st)
  /\ Dispatcher.error_count st = count_events is_failure (Dispatcher.trace st)
  /\ count_events is_append (Dispatcher.trace st)
     = Dispatcher.submitted_count st + Dispatcher.error_count st
  /\ 0 <= Dispatcher.skipped_ranges_count st
  /\ Dispatcher.skipped_ranges_count st + Dispatcher.submitted_count st
     + Dispatcher.error_count st
     <= Z.of_nat (length (Py.range 1 (Dispatcher.MAX_K cfg)
                            (Dispatcher.job_k_range_size cfg))).
Proof.
  intros (text0 & _ & ->)%main_finished.
  destruct (main_loop_counts cfg e
              (Py.range 1 (Dispatcher.MAX_K cfg) (Dispatcher.job_k_range_size cfg))
              (initial_state text0))
    as (evs & Htr & Hsub & Herr & Hskip & Hmono & Hsum & _).
  simpl in *. rewrite Htr. lia.
Qed.

Lemma counters_account_for_the_trace_witness :
  Dispatcher.submitted_count (small_run 5 "1.pbs" "")
  = count_events is_qsub_ok (Dispatcher.trace (small_run 5 "1.pbs" "")).
Proof.
  refine (proj1 (counters_account_for_the_trace (small_config 5)
            (constant_env Ledger.WriteOk true (Dispatcher.QsubOk "1.pbs"))
            Ledger.Absent (small_run 5 "1.pbs" "") _)).
  reflexivity.
Defined.

(** X10. A run never submits more than MAX_JOBS jobs: the number of
    successful qsub calls of a finished run is at most MAX_JOBS (and zero
    when MAX_JOBS is not positive), whatever the outside world answers. *)
Theorem submissions_respect_the_cap cfg e started st :
  Dispatcher.main cfg e started = Dispatcher.Finished st ->
  Dispatcher.submitted_count st <= Z.max 0 (Dispatcher.MAX_JOBS cfg)
  /\ count_events is_qsub_ok (Dispatcher.trace st)
     <= Z.max 0 (Dispatcher.MAX_JOBS cfg).
Proof.
  intros (text0 & _ & ->)%main_finished.
  pose proof (main_loop_cap cfg e
                (Py.range 1 (Dispatcher.MAX_K cfg) (Dispatcher.job_k_range_size cfg))
                (initial_state text0)) as Hcap.
  destruct (main_loop_counts cfg e
              (Py.range 1 (Dispatcher.MAX_K cfg) (Dispatcher.job_k_range_size cfg))
              (initial_state text0))
    as (evs & Htr & Hsub & _).
  simpl in *. rewrite Htr. lia.
Qed.

Lemma submissions_respect_the_cap_witness :
  Dispatcher.submitted_count (small_run 1 "1.pbs" "") <= Z.max 0 1.
Proof.
  refine (proj1 (submissions_respect_the_cap (small_config 1)
            (constant_env Ledger.WriteOk true (Dispatcher.QsubOk "1.pbs"))
            Ledger.Absent (small_run 1 "1.pbs" "") _)).
  reflexivity.
Defined.

(** X11. Jobs are handed to qsub in increasing order of kmin, each range
    of the partition at most once: the kmin values of the qsub calls of a
    finished run form a sub-sequence of range(1, MAX_K, job_k_range_size),
    strictly increasing. *)
Theorem submissions_follow_the_partition cfg e started st :
  Dispatcher.main cfg e started = Dispatcher.Finished st ->
  qsub_kmins (Dispatcher.trace st)
    `sublist_of` Py.range 1 (Dispatcher.MAX_K cfg) (Dispatcher.job_k_range_size cfg)
  /\ StronglySorted Z.lt (qsub_kmins (Dispatcher.trace st)).
Proof.
  intros Hmain. pose proof (main_finished_valid _ _ _ _ Hmain) as Hpos.
  apply main_finished in Hmain as (text0 & _ & ->).
  destruct (main_loop_counts cfg e
              (Py.range 1 (Dispatcher.MAX_K cfg) (Dispatcher.job_k_range_size cfg))
              (initial_state text0))
    as (evs & Htr & _ & _ & _ & _ & _ & Hsl).
  simpl in Htr. rewrite Htr. split; [done|].
  apply (sublist_strongly_sorted _ _ _ Hsl).
  apply range_strongly_sorted.
  unfold Dispatcher.job_k_range_size, K_STEP. lia.
Qed.

Lemma submissions_follow_the_partition_witness :
  StronglySorted Z.lt (qsub_kmins (Dispatcher.trace (small_run 5 "1.pbs" ""))).
Proof.
  refine (proj2 (submissions_follow_the_partition (small_config 5)
            (constant_env Ledger.WriteOk true (Dispatcher.QsubOk "1.pbs"))
            Ledger.Absent (small_run 5 "1.pbs" "") _)).
  reflexivity.
Defined.

(** X12. Within one run no ID is handed to append_ids_to_file twice, no
    ID that was loaded from started_ids.txt is appended again, and the
    in-memory set at the end is the loaded set plus the appended IDs. *)
Theorem no_id_is_claimed_twice cfg e started st :
  Dispatcher.main cfg e started = Dispatcher.Finished st ->
  exists text0,
    Ledger.touch started = Ledger.Content text0
    /\ NoDup (appended_ids (Dispatcher.trace st))
    /\ (forall id, id ∈ appended_ids (Dispatcher.trace st) ->
          id ∉ Ledger.id_set_of_text text0)
    /\ Dispatcher.started_ids_set st
       = Ledger.id_set_of_text text0
         ∪ list_to_set (appended_ids (Dispatcher.trace st)).
Proof.
  intros (text0 & Ht & ->)%main_finished. exists text0. split; [done|].
  destruct (main_loop_appended cfg e
              (Py.range 1 (Dispatcher.MAX_K cfg) (Dispatcher.job_k_range_size cfg))
              (initial_state text0))
    as (evs & Htr & Hnd & Hnew & Hset).
  simpl in Htr. by rewrite Htr.
Qed.

Lemma no_id_is_claimed_twice_witness :
  exists text0,
    Ledger.touch Ledger.Absent = Ledger.Content text0
    /\ NoDup (appended_ids (Dispatcher.trace (small_run 5 "1.pbs" ""))).
Proof.
  destruct (no_id_is_claimed_twice (small_config 5)
              (constant_env Ledger.WriteOk true (Dispatcher.QsubOk "1.pbs"))
              Ledger.Absent (small_run 5 "1.pbs" ""))
    as (text0 & Ht & Hnd & _).
  - reflexivity.
  - exists text0. split; [exact Ht|exact Hnd].
Defined.

(** X13. The Dispatcher only ever appends to started_ids.txt: at the end
    of a run the file is its initial text followed by what was added.  When
    the initial text ends with a line terminator, every ID that could be
    read from it can still be read afterwards, even if appends failed half
    way; and when no append fails, what was added is exactly one line per
    appended ID, in order. *)
Theorem ledger_only_grows cfg e started st :
  Dispatcher.main cfg e started = Dispatcher.Finished st ->
  exists text0 extra,
    Ledger.touch started = Ledger.Content text0
    /\ Dispatcher.started_file st = text0 +:+ extra
    /\ (line_terminated text0 ->
        Ledger.id_set_of_text text0
          ⊆ Ledger.id_set_of_text (Dispatcher.started_file st))
    /\ ((forall k, Dispatcher.append_result e k = Ledger.WriteOk) ->
        extra = Ledger.lines_of_ids (appended_ids (Dispatcher.trace st))).
Proof.
  intros Hmain.
  destruct (main_run_invariant _ _ _ _ Hmain)
    as (text0 & Ht & _ & Hfile & _ & Hclaims & _).
  destruct (ledger_after_grows cfg _ text0 _ Hclaims) as (extra & Hex & Hlf).
  exists text0, extra. split; [done|]. rewrite Hfile, Hex.
  split; [done|]. split; [intros Hterm; by apply id_set_of_text_extended|].
  intros Hok. apply main_finished in Hmain as (text1 & Ht1 & ->).
  assert (text1 = text0) as -> by congruence.
  destruct (main_loop_file_all_ok cfg e
              (Py.range 1 (Dispatcher.MAX_K cfg) (Dispatcher.job_k_range_size cfg))
              (initial_state text0) Hok) as (evs & Htr & Hall).
  simpl in Htr, Hall. rewrite Htr. rewrite Hfile, Hex in Hall.
  by apply str_app_inv_head in Hall.
Qed.

Lemma ledger_only_grows_witness :
  exists text0 extra,
    Ledger.touch Ledger.Absent = Ledger.Content text0
    /\ Dispatcher.started_file (small_run 5 "1.pbs" "") = text0 +:+ extra.
Proof.
  destruct (ledger_only_grows (small_config 5)
              (constant_env Ledger.WriteOk true (Dispatcher.QsubOk "1.pbs"))
              Ledger.Absent (small_run 5 "1.pbs" ""))
    as (text0 & extra & Ht & Hfile & _).
  - reflexivity.
  - exists text0, extra. split; [exact Ht|exact Hfile].
Defined.

(** ** task_run.py: the output file it looks for *)

Section TaskRunFacts.

Import Ledger TaskRun.

Lemma item_length s i o : PyMore.item s i = Some o -> String.length o = 1%nat.
Proof.
  unfold PyMore.item. destruct (String.get i s); [|done]. by intros [= <-].
Qed.

(** The loop leaves in [output_file] one character of the first line that
    starts with the marker: the character at the position given by the
    number of that line plus one. *)
Lemma find_output_spec i lines o :
  find_output i lines = OutputFile o ->
  exists j line,
    lines !! j = Some line
    /\ PyMore.startswith line MARKER = true
    /\ PyMore.item line (i + j + 1) = Some o
    /\ forall j' line', (j' < j)%nat -> lines !! j' = Some line' ->
         PyMore.startswith line' MARKER = false.
Proof.
  revert i. induction lines as [|line rest IH]; intros i; [done|]. simpl.
  destruct (PyMore.startswith line MARKER) eqn:Em.
  - destruct (PyMore.item line (i + 1)) as [c|] eqn:Ei; [|done].
    intros [= <-]. exists 0%nat, line.
    rewrite Nat.add_0_r. repeat split; try done. intros j' line' Hj. lia.
  - intros (j & l & Hl & Hm & Hi & Hfirst)%IH. exists (S j), l.
    repeat split; try done.
    + by replace (i + S j + 1)%nat with (S i + j + 1)%nat by lia.
    + intros [|j'] line' Hj Hl'; simpl in Hl'; [by simplify_eq|].
      apply (Hfirst j' line'); [lia|done].
Qed.

Lemma universal_newlines_no_cr_app s t :
  all_chars not_cr s = true ->
  Py.universal_newlines false (s +:+ t) = s +:+ Py.universal_newlines false t.
Proof.
  induction s as [|c s IH]; [done|].
  rewrite !app_cons. simpl. intros [Hc Hs]%andb_true_iff.
  unfold not_cr in Hc. destruct (Ascii.eqb_spec c Py.CR) as [|Hcr]; [done|].
  destruct (Ascii.eqb_spec c Py.LF) as [->|Hlf]; by rewrite IH.
Qed.

Lemma split_lines_line line t :
  all_chars not_lf line = true ->
  Py.split_lines (line +:+ Py.newline +:+ t)
  = (line +:+ Py.newline) :: Py.split_lines t.
Proof.
  induction line as [|c line IH]; [done|].
  rewrite !app_cons. simpl. intros [Hc Hline]%andb_true_iff.
  unfold not_lf in Hc. destruct (Ascii.eqb c Py.LF); [done|]. by rewrite IH.
Qed.

(** In the files task_gen.py writes, the marker is the third line, so the
    loop takes the fourth character of the marker itself. *)
Lemma find_output_generated tl :
  find_output 0
    (("# Request approximation of R_z rotations by angles of the form $2\pi k/n$ for k in the interval [k1,k2)"
        +:+ Py.newline)
     :: ("UNIFORM" +:+ Py.newline)
     :: ("#Filename with approximation results" +:+ Py.newline)
     :: tl)
  = OutputFile "l".
Proof. reflexivity. Qed.

End TaskRunFacts.

(** X14. Whenever process_config_file gets as far as looking for an
    output file, the name it uses is a single character: the character of
    the first line that starts with the marker, at the position given by
    that line's number plus one ([line[i+1]]), not the file name on the line
    that follows the marker.  The config is skipped exactly when a path
    with that one-character name exists. *)
Theorem output_file_is_one_character e config_file o :
  TaskRun.process_config_file e config_file = TaskRun.Skipped o
  \/ TaskRun.process_config_file e config_file = TaskRun.Completed o
  \/ TaskRun.process_config_file e config_file = TaskRun.RaisedCalledProcessError o ->
  String.length o = 1%nat
  /\ exists text i line,
       config_file = Ledger.Content text
       /\ Py.file_lines text !! i = Some line
       /\ PyMore.startswith line TaskRun.MARKER = true
       /\ (forall i' line', (i' < i)%nat -> Py.file_lines text !! i' = Some line' ->
             PyMore.startswith line' TaskRun.MARKER = false)
       /\ PyMore.item line (i + 1) = Some o
       /\ (TaskRun.process_config_file e config_file = TaskRun.Skipped o
           <-> TaskRun.path_exists e o = true).
Proof.
  unfold TaskRun.process_config_file.
  destruct config_file as [| |text]; [by intros [|[|]]..|].
  destruct (TaskRun.find_output 0 (Py.file_lines text)) as [|o'|] eqn:Ef;
    [by intros [|[|]]| |by intros [|[|]]].
  apply find_output_spec in Ef as (j & line & Hl & Hm & Hi & Hfirst).
  simpl in Hi. intros Hout.
  assert (o' = o) as ->.
  { destruct (String.eqb o' ""); [by destruct Hout as [|[|]]|].
    destruct (TaskRun.path_exists e o'); [|destruct (TaskRun.run_ok e)];
      destruct Hout as [|[|]]; congruence. }
  split; [by apply (item_length line (j + 1))|].
  exists text, j, line. repeat split; try done.
  - destruct (String.eqb o ""); [done|].
    destruct (TaskRun.path_exists e o); [done|].
    by destruct (TaskRun.run_ok e).
  - intros ->. destruct (String.eqb_spec o "") as [->|]; [|done].
    by apply item_length in Hi.
Qed.

Lemma output_file_is_one_character_witness :
  String.length "F" = 1%nat.
Proof.
  refine (proj1 (output_file_is_one_character
            (TaskRun.Env (fun _ => false) true)
            (Ledger.Content TaskRun.MARKER) "F" _)).
  right. left. reflexivity.
Defined.

(** X15. For every config file that task_gen.py writes, whatever n, the
    batch and the k range are, process_config_file takes the letter l (the
    fourth character of the marker line) as the output file: it skips the
    config when a path named l exists and runs sqct otherwise; the
    batch_out file named in the config plays no part. *)
Theorem generated_configs_check_the_path_l e n batch k1 k2 k_step :
  TaskRun.process_config_file e
    (Ledger.Content (TaskGenFiles.config_content n batch k1 k2 k_step))
  = if TaskRun.path_exists e "l" then TaskRun.Skipped "l"
    else if TaskRun.run_ok e then TaskRun.Completed "l"
    else TaskRun.RaisedCalledProcessError "l".
Proof.
  unfold TaskRun.process_config_file, TaskGenFiles.config_content, Py.file_lines.
  do 6 (rewrite universal_newlines_no_cr_app by reflexivity).
  do 3 (rewrite split_lines_line by reflexivity).
  by rewrite find_output_generated.
Qed.

(** ** What a loaded ledger contains *)

Section LoadedIds.

Lemma rstrip_idem s : Py.rstrip (Py.rstrip s) = Py.rstrip s.
Proof.
  induction s as [|c s IH]; [done|]. simpl.
  destruct (Py.rstrip s) as [|c' r'] eqn:E.
  - destruct (Py.is_space c) eqn:Ec; [done|]. simpl. by rewrite Ec.
  - simpl. simpl in IH. by rewrite IH.
Qed.

Lemma lstrip_rstrip_head c r :
  Py.is_space c = false -> Py.lstrip (Py.rstrip (String c r)) = Py.rstrip (String c r).
Proof.
  intros Hc. simpl. destruct (Py.rstrip r); rewrite ?Hc; simpl; by rewrite Hc.
Qed.

Lemma lstrip_head s :
  Py.lstrip s = "" \/ exists c r, Py.lstrip s = String c r /\ Py.is_space c = false.
Proof.
  induction s as [|c s IH]; [by left|]. simpl.
  destruct (Py.is_space c) eqn:Ec; [done|]. right. by exists c, s.
Qed.

Lemma strip_idem s : Py.strip (Py.strip s) = Py.strip s.
Proof.
  unfold Py.strip.
  destruct (lstrip_head s) as [->|(c & r & -> & Hc)]; [done|].
  rewrite lstrip_rstrip_head by done. apply rstrip_idem.
Qed.

Lemma elem_of_id_set_of_text text id :
  id ∈ Ledger.id_set_of_text text <->
  exists line, line ∈ Py.file_lines text /\ Py.strip line = id /\ id <> "".
Proof.
  unfold Ledger.id_set_of_text.
  rewrite elem_of_list_to_set, list_elem_of_fmap. split.
  - intros (line & -> & Hin). exists line.
    apply list_elem_of_In, filter_In in Hin as [Hin Hne].
    apply list_elem_of_In in Hin. repeat split; [done|].
    by destruct (String.eqb_spec (Py.strip line) "").
  - intros (line & Hin & <- & Hne). exists line. split; [done|].
    apply list_elem_of_In, filter_In. split; [by apply list_elem_of_In|].
    by destruct (String.eqb_spec (Py.strip line) "").
Qed.

End LoadedIds.

(** X16. What load_tracked_ids and load_completed_ids put in the set is
    never the empty string and never carries white space at either end:
    every element is the stripped form of some line of the file, and
    stripping it again changes nothing. *)
Theorem loaded_ids_are_trimmed text id :
  id ∈ Ledger.id_set_of_text text ->
  id <> "" /\ Py.strip id = id
  /\ exists line, line ∈ Py.file_lines text /\ Py.strip line = id.
Proof.
  intros (line & Hin & <- & Hne)%elem_of_id_set_of_text.
  split; [done|]. split; [apply strip_idem|by exists line].
Qed.

Lemma loaded_ids_are_trimmed_witness : Py.strip "16_1" = "16_1".
Proof.
  refine (proj1 (proj2 (loaded_ids_are_trimmed
                          (" 16_1 " +:+ Py.newline) "16_1" _))).
  apply elem_of_id_set_of_text. exists (" 16_1 " +:+ Py.newline).
  split; [|split; [reflexivity|discriminate]].
  apply list_elem_of_In. left. reflexivity.
Defined.

(** X17. The batch can only grow with the Completed ledger: a file that
    is selected for archiving with one set of completed IDs is selected
    with every larger set (same directory). *)
Theorem batch_grows_with_completed dir (completed completed' : gset string) f :
  completed ⊆ completed' ->
  f ∈ Archiver.complete_files dir completed ->
  f ∈ Archiver.complete_files dir completed'.
Proof.
  intros Hsub (n & kmin & kmax & Hd & Hg & Hp & Hlt & Hall)%elem_of_complete_files.
  apply elem_of_complete_files. exists n, kmin, kmax.
  repeat split; try done. intros id Hid. by apply Hsub, Hall.
Qed.

Lemma batch_grows_with_completed_witness :
  "uni_16_1_5.txt" ∈ Archiver.complete_files example_dir
    (Ledger.id_set_of_text example_completed ∪ {["4_1"]}).
Proof.
  apply (batch_grows_with_completed example_dir
           (Ledger.id_set_of_text example_completed)).
  - apply union_subseteq_l.
  - apply elem_of_complete_files. exists 16, 1, 5.
    split; [vm_compute; left|]. split; [reflexivity|].
    split; [reflexivity|]. split; [lia|]. intros id Hid.
    apply (bool_decide_unpack _). revert id Hid. apply Forall_forall.
    vm_compute. repeat constructor.
Defined.

(** ** The IDs of all jobs together *)

Section JobIds.

Lemma range_split (w : nat) a c s :
  0 < s -> a + Z.of_nat w * s <= c ->
  Py.range a c s
  = Py.range a (a + Z.of_nat w * s) s ++ Py.range (a + Z.of_nat w * s) c s.
Proof.
  intros Hs. revert a. induction w as [|w IH]; intros a Hle.
  - rewrite Z.mul_0_l, Z.add_0_r. by rewrite (range_nil a a s) by lia.
  - rewrite (range_cons a c s) by lia.
    rewrite (range_cons a (a + Z.of_nat (S w) * s) s) by lia.
    simpl. f_equal. rewrite (IH (a + s)) by lia.
    by replace (a + s + Z.of_nat w * s) with (a + Z.of_nat (S w) * s) by lia.
Qed.

Lemma flat_map_clipped (w : nat) start stop s :
  0 < s -> (0 < w)%nat ->
  flat_map (fun r => Py.range (fst r) (snd r) s)
           (clipped_ranges start stop (Z.of_nat w * s))
  = Py.range start stop s.
Proof.
  intros Hs Hw. unfold clipped_ranges.
  assert (0 < Z.of_nat w * s) as Hsize by nia.
  remember (Py.range_len start stop (Z.of_nat w * s)) as len eqn:Hlen.
  revert start Hlen. induction len as [|len IH]; intros start Hlen.
  - destruct (Z.lt_ge_cases start stop) as [Hlt|Hge].
    + pose proof (range_len_pos start stop (Z.of_nat w * s) Hsize Hlt) as Hp.
      assert (0 <= (stop - start - 1) / (Z.of_nat w * s))
        by (apply Z.div_pos; lia). lia.
    + by rewrite !range_nil by lia.
  - destruct (Z.lt_ge_cases start stop) as [Hlt|Hge];
      [|by rewrite range_len_empty in Hlen].
    rewrite (range_cons start stop (Z.of_nat w * s)) by done. simpl.
    rewrite IH.
    + destruct (Z.le_gt_cases (start + Z.of_nat w * s) stop) as [Hle|Hgt].
      * rewrite Z.min_l by done. by rewrite <- range_split.
      * rewrite Z.min_r by lia.
        rewrite (range_nil (start + Z.of_nat w * s) stop s) by lia.
        apply app_nil_r.
    + pose proof (range_length start stop (Z.of_nat w * s)) as HL.
      rewrite range_cons in HL by done. simpl in HL.
      rewrite range_length in HL. lia.
Qed.

Lemma flat_map_fmap {A B C} (f : B -> C) (g : A -> list B) l :
  flat_map (fun x => map f (g x)) l = map f (flat_map g l).
Proof.
  induction l as [|x l IH]; [done|]. simpl. by rewrite IH, map_app.
Qed.

Lemma job_ids_concat cfg :
  0 < Dispatcher.NUM_K_PER_JOB cfg ->
  flat_map (fun r => constituent_ids (Dispatcher.N cfg) (fst r) (snd r))
           (Dispatcher.partition cfg)
  = constituent_ids (Dispatcher.N cfg) 1 (Dispatcher.MAX_K cfg).
Proof.
  intros Hw. unfold constituent_ids.
  rewrite (flat_map_fmap (id_str (Dispatcher.N cfg))
             (fun r => Py.range (fst r) (snd r) K_STEP)).
  f_equal. rewrite partition_clipped. unfold Dispatcher.job_k_range_size.
  rewrite <- (Z2Nat.id (Dispatcher.NUM_K_PER_JOB cfg)) by lia.
  apply flat_map_clipped; [done|lia].
Qed.

Lemma job_ids_size cfg :
  0 < Dispatcher.NUM_K_PER_JOB cfg ->
  Forall (fun r =>
            0 < Z.of_nat (length (constituent_ids (Dispatcher.N cfg) (fst r) (snd r)))
              <= Dispatcher.NUM_K_PER_JOB cfg)
         (Dispatcher.partition cfg).
Proof.
  intros Hw. apply Forall_forall. intros [a b] Hin.
  unfold Dispatcher.partition in Hin.
  apply list_elem_of_fmap in Hin as (kmin & [= -> ->] & Hk).
  assert (0 < Dispatcher.job_k_range_size cfg) as Hsize
    by (unfold Dispatcher.job_k_range_size, K_STEP; lia).
  apply elem_of_range in Hk as [Hk _]; [|done]. simpl.
  unfold constituent_ids. rewrite length_map, range_length.
  assert (kmin < Z.min (kmin + Dispatcher.job_k_range_size cfg)
                   (Dispatcher.MAX_K cfg)) as Hlt by lia.
  pose proof (range_len_ceil kmin _ K_STEP ltac:(done) Hlt) as Hc.
  simpl in Hc. unfold Dispatcher.job_k_range_size in *. unfold K_STEP in *.
  nia.
Qed.

End JobIds.

(** X18. The jobs of the partition split the work at the level of IDs:
    concatenating the constituent IDs of the Dispatcher's ranges, in order,
    gives exactly the IDs of range(1, MAX_K, K_STEP), so every ID of the
    whole run belongs to one job and none is computed twice; and every job
    has at least one and at most NUM_K_PER_JOB IDs. *)
Theorem jobs_enumerate_every_id_once cfg :
  0 < Dispatcher.NUM_K_PER_JOB cfg ->
  flat_map (fun r => constituent_ids (Dispatcher.N cfg) (fst r) (snd r))
           (Dispatcher.partition cfg)
  = constituent_ids (Dispatcher.N cfg) 1 (Dispatcher.MAX_K cfg)
  /\ Forall (fun r =>
               0 < Z.of_nat (length (constituent_ids (Dispatcher.N cfg)
                                       (fst r) (snd r)))
                 <= Dispatcher.NUM_K_PER_JOB cfg)
            (Dispatcher.partition cfg).
Proof.
  intros Hw. split; [by apply job_ids_concat|by apply job_ids_size].
Qed.

Lemma jobs_enumerate_every_id_once_witness :
  flat_map (fun r => constituent_ids 16 (fst r) (snd r))
           (Dispatcher.partition (small_config 5))
  = constituent_ids 16 1 8.
Proof.
  refine (proj1 (jobs_enumerate_every_id_once (small_config 5) _)).
  simpl. lia.
Defined.

(** ** task_gen.py: one file per batch *)

Section ConfigNames.

Lemma str_app_inv_tail (s t u : string) : s +:+ u = t +:+ u -> s = t.
Proof.
  intros H.
  assert (String.length s = String.length t) as Hlen.
  { apply (f_equal String.length) in H. rewrite !str_length_app in H. lia. }
  rewrite <- (str_take_app s u), H, Hlen. apply str_take_app.
Qed.

Lemma str_of_int_inj a b : Py.str_of_int a = Py.str_of_int b -> a = b.
Proof.
  intros H. apply (f_equal Py.int_of_str) in H.
  rewrite !int_of_str_of_int in H. by injection H.
Qed.

Lemma config_filename_inj n batch n' batch' :
  TaskGenFiles.filename n batch = TaskGenFiles.filename n' batch' ->
  n = n' /\ batch = batch'.
Proof.
  unfold TaskGenFiles.filename. intros H.
  apply str_app_inv_head in H.
  assert (n = n') as <-.
  { apply (f_equal (Py.split "_")) in H.
    change ("_" +:+ ?r) with (String "_" r) in H.
    rewrite !split_cons in H by apply str_of_int_no_underscore.
    injection H as H _. by apply str_of_int_inj. }
  split; [done|].
  do 2 apply str_app_inv_head in H.
  apply str_app_inv_tail, str_of_int_inj in H. lia.
Qed.

Lemma written_files_names n k_per_batch k_step :
  NoDup (map fst (TaskGenFiles.written_files n k_per_batch k_step)).
Proof.
  unfold TaskGenFiles.written_files. cbv zeta. rewrite map_map. simpl.
  apply NoDup_fmap_2_strong; [|apply range_NoDup; lia].
  intros b b' _ _ H. by apply config_filename_inj in H as [_ ?].
Qed.

End ConfigNames.

(** X19. task_gen.py never writes two batches to the same file: the name
    configs/uni{n}_{batch+1}.config determines both n and the batch, and
    the names of the files written for one n are pairwise different. *)
Theorem config_files_do_not_collide :
  (forall n batch n' batch',
      TaskGenFiles.filename n batch = TaskGenFiles.filename n' batch' ->
      n = n' /\ batch = batch')
  /\ (forall n k_per_batch k_step,
        NoDup (map fst (TaskGenFiles.written_files n k_per_batch k_step))).
Proof.
  split; [apply config_filename_inj|apply written_files_names].
Qed.

(** ** Running the Dispatcher again *)

Section SecondRun.

Import Ledger Dispatcher.





End SecondRun.



